(** * Better strings: a shallow embedding of [better-string.hh]

    The header implements Python-style string algorithms that are generic in
    the text encoding.  This development embeds the encoding traits, the
    codepoint iterators and encoders, and the algorithms of
    [ext::algorithm::string] as executable functions over lists of code
    units, and states properties of the specification against them.

    Conventions of the embedding.
    - A string or view is the list of its code units, each unit held as the
      unsigned value of its storage ([0 <= u < 2^w]).  A pointer into the
      view is its offset from [data()], an integer that may leave the view.
    - Views are a pointer and a length and are not NUL terminated by
      contract, so a read at an offset outside [0, size) is outside the
      borrowed view.  It is reported as [Undefined].  Owning strings are
      not told from views: the unit behind the last one, which the UTF-16
      cursor reads on a high surrogate half that ends the string, is
      outside for both, and the properties of codepoint counts leave
      UTF-16 out where that read would decide the count.
    - The static arrays of [string_literal] hold their values and no
      terminator.  Measuring one with [Traits::length] reads behind the
      array, which is [Undefined] as well.
    - [size_t] is 64 bits wide; [npos] is [size_t(-1)].
    - The loops over a cursor leave only when the cursor passes their
      bound.  A turn that leaves the cursor where it was is therefore followed
      by the same turn for ever, and the run is reported as [Diverge] (in
      [transcode], whose turns also append to a buffer, such a run ends only
      when memory does).  Loops carry fuel: the entry points supply one
      turn for each unit of the buffer and one or two more.  [OutOfFuel] is
      the embedding's own artefact, not a behaviour of the code. *)

From Stdlib Require Import ZArith List Bool String Ascii Lia.
Import ListNotations.
Open Scope Z_scope.

(* ================================================================== *)
(** * Outcomes of a call *)

Inductive exn : Type :=
| invalid_argument (what : string)
| out_of_range (what : string)
| logic_error (what : string).

Inductive outcome (A : Type) : Type :=
| Ok (a : A)
| Throw (e : exn)
| Undefined
| Diverge
| OutOfFuel.

Arguments Ok {A} a.
Arguments Throw {A} e.
Arguments Undefined {A}.
Arguments Diverge {A}.
Arguments OutOfFuel {A}.

Definition bind {A B : Type} (c : outcome A) (k : A -> outcome B) : outcome B :=
  match c with
  | Ok a => k a
  | Throw e => Throw e
  | Undefined => Undefined
  | Diverge => Diverge
  | OutOfFuel => OutOfFuel
  end.

Notation "x <- c ;; k" := (bind c (fun x => k))
  (at level 61, c at next level, right associativity).

(* ================================================================== *)
(** * Code units, views and machine integers *)

Definition units := list Z.

Definition size (s : units) : Z := Z.of_nat (List.length s).

(** [s[i]]: a read through a pointer into the view. *)
Definition rd (s : units) (i : Z) : outcome Z :=
  if i <? 0 then Undefined
  else match nth_error s (Z.to_nat i) with
       | Some u => Ok u
       | None => Undefined
       end.

(** The units in [[a, b)], as built by the (pointer, pointer) constructors. *)
Definition slice (s : units) (a b : Z) : units :=
  firstn (Z.to_nat (b - a)) (skipn (Z.to_nat a) s).

Definition npos : Z := 18446744073709551615.
Definition size_t (x : Z) : Z := x mod 18446744073709551616.
Definition uint32_t (x : Z) : Z := x mod 4294967296.
Definition uint8_t (x : Z) : Z := x mod 256.

(** Conversion of an unsigned bit pattern of [w] bits to the signed value. *)
Definition signed (w : Z) (x : Z) : Z :=
  let m := x mod 2 ^ w in
  if m <? 2 ^ (w - 1) then m else m - 2 ^ w.

Definition int32_t (x : Z) : Z := signed 32 x.

(** [char(x)]: plain [char] is a signed 8-bit type on the targets of the
    library. *)
Definition char (x : Z) : Z := signed 8 x.

(** Character literals and string literals as code units. *)
Definition c_ (a : ascii) : Z := Z.of_N (N_of_ascii a).
Definition lit (s : string) : units := map c_ (list_ascii_of_string s).

(** [Traits::compare(ptr, sub.data(), sub.size()) == 0]: the range
    [[ptr, ptr + n)] has to lie in the view. *)
Definition compare_eq (s : units) (ptr : Z) (sub : units) : outcome bool :=
  if (ptr <? 0) || (size s <? ptr + size sub) then Undefined
  else Ok (if list_eq_dec Z.eq_dec (slice s ptr (ptr + size sub)) sub
           then true else false).

(** [string_literal<Char, values...>()]: a pointer to the static array
    [{ values... }].  The array holds the values and nothing else: no
    terminator is written behind them. *)
Definition string_literal (values : units) : units := values.

Module Traits.

(** [Traits::length(str)]: the offset of the first zero unit, found by
    reading the units from [str] on. *)
Fixpoint length_loop (str : units) (fuel : nat) (i : Z) : outcome Z :=
  match fuel with
  | O => OutOfFuel
  | S fuel =>
      c <- rd str i ;;
      if c =? 0 then Ok i else length_loop str fuel (i + 1)
  end.

Definition length (str : units) : outcome Z :=
  length_loop str (S (List.length str)) 0.

End Traits.

(** [basic_string_view(const Char * str)]: the constructor that a pointer
    converts through.  It measures the view with [Traits::length]. *)
Definition basic_string_view (str : units) : outcome units :=
  len <- Traits.length str ;;
  Ok (slice str 0 len).

(* ================================================================== *)
(** * Encodings *)

Inductive Encoding : Type :=
| Char8 | Char16 | Char32 | UTF8 | UTF16 | UTF32.

Inductive Errors : Type := Strict | Ignore | Replace.

(** Width in bits of the character type of an encoding. *)
Definition char_bits (E : Encoding) : Z :=
  match E with
  | Char8 | UTF8 => 8
  | Char16 | UTF16 => 16
  | Char32 | UTF32 => 32
  end.

(** [push_back] of a value into a string whose units are [w] bits wide. *)
Definition push_back (w : Z) (s : units) (v : Z) : units :=
  s ++ [v mod 2 ^ w].

(* ------------------------------------------------------------------ *)
(** ** Encoders *)

Module UTF8Encoder.

(** In [cp & 0xF800 == 0xD8] the comparison binds tighter than [&]: the
    test is [cp & 0], which never holds. *)
Definition surrogate_test (cp : Z) : bool :=
  negb (Z.land cp (if 0xF800 =? 0xD8 then 1 else 0) =? 0).

Definition append (w : Z) (str : units) (cp : Z) : units * bool :=
  if cp <? 0x80 then
    (push_back w str (char cp), true)
  else if cp <? 0x800 then
    let str := push_back w str (char (Z.lor 0xC0 (Z.shiftr cp 6))) in
    let str := push_back w str (char (Z.lor 0x80 (Z.land cp 0x3F))) in
    (str, true)
  else if cp <? 0x10000 then
    if surrogate_test cp then (str, false)
    else
      let str := push_back w str (char (Z.lor 0xE0 (Z.shiftr cp 12))) in
      let str := push_back w str
                   (char (Z.lor 0x80 (Z.land (Z.shiftr cp 6) 0x3F))) in
      let str := push_back w str (char (Z.lor 0x80 (Z.land cp 0x3F))) in
      (str, true)
  else if cp <? 0x110000 then
    let str := push_back w str (char (Z.lor 0xF0 (Z.shiftr cp 18))) in
    let str := push_back w str
                 (char (Z.lor 0x80 (Z.land (Z.shiftr cp 12) 0x3F))) in
    let str := push_back w str
                 (char (Z.lor 0x80 (Z.land (Z.shiftr cp 6) 0x3F))) in
    let str := push_back w str (char (Z.lor 0x80 (Z.land cp 0x3F))) in
    (str, true)
  else (str, false).

End UTF8Encoder.

Module UTF16Encoder.

Definition append (w : Z) (str : units) (cp : Z) : units * bool :=
  if cp <? 0x10000 then
    if UTF8Encoder.surrogate_test cp then (str, false)
    else (push_back w str (cp mod 2 ^ 16), true)
  else if cp <? 0x110000 then
    let cp := uint32_t (cp - 10000) in
    let str := push_back w str (Z.lor 0xD800 (Z.shiftr cp 10) mod 2 ^ 16) in
    let str := push_back w str (Z.lor 0xDC00 (Z.land cp 0x3FF) mod 2 ^ 16) in
    (str, true)
  else (str, false).

End UTF16Encoder.

Module UTF32Encoder.

(** [(cp & 0xF800 != 0xD8) && (cp < 0x110000)]: again the comparison binds
    tighter, so the left operand is [cp & 1]. *)
Definition accepts (cp : Z) : bool :=
  negb (Z.land cp (if 0xF800 =? 0xD8 then 0 else 1) =? 0)
  && (cp <? 0x110000).

Definition append (w : Z) (str : units) (cp : Z) : units * bool :=
  if accepts cp then (push_back w str cp, true) else (str, false).

End UTF32Encoder.

(* ------------------------------------------------------------------ *)
(** ** Iterators

    An iterator is the offset its [ptr] field holds; the functions take the
    view it points into.  [incr] is [operator++], [decr] is [operator--],
    [deref] is [operator*], [ne] is [operator!=]. *)

Module UTF8Iterator.

Definition ascii (ch : Z) : bool := ch <? 0x80.
Definition head (ch : Z) : bool := 0xC0 <? ch.
Definition head2 (ch : Z) : bool := ch <? 0xE0.
Definition head3 (ch : Z) : bool := ch <? 0xF0.
Definition head4 (ch : Z) : bool := ch <? 0xF8.
Definition tail (ch : Z) : bool := Z.land ch 0xC0 =? 0x80.

(** The cursor stays where it is when a lead byte is not followed by the
    tails it announces: no branch moves it. *)
Definition incr (s : units) (ptr : Z) : outcome Z :=
  ch <- rd s ptr ;;
  if negb (head ch) then Ok (ptr + 1)
  else if head2 ch then
    b1 <- rd s (ptr + 1) ;;
    if tail b1 then Ok (ptr + 2) else Ok ptr
  else if head3 ch then
    b1 <- rd s (ptr + 1) ;;
    if tail b1 then
      b2 <- rd s (ptr + 2) ;;
      if tail b2 then Ok (ptr + 3) else Ok ptr
    else Ok ptr
  else if head4 ch then
    b1 <- rd s (ptr + 1) ;;
    if tail b1 then
      b2 <- rd s (ptr + 2) ;;
      if tail b2 then
        b3 <- rd s (ptr + 3) ;;
        if tail b3 then Ok (ptr + 4) else Ok ptr
      else Ok ptr
    else Ok ptr
  else Ok (ptr + 1).

Definition decr (s : units) (ptr : Z) : outcome Z :=
  b1 <- rd s (ptr - 1) ;;
  if tail b1 then
    b2 <- rd s (ptr - 2) ;;
    if head2 b2 && head b2 then Ok (ptr - 2)
    else if tail b2 then
      b3 <- rd s (ptr - 3) ;;
      if head3 b3 && negb (head2 b3) then Ok (ptr - 3)
      else if tail b3 then
        if head4 b3 && negb (head3 b3) then Ok (ptr - 4)
        else Ok (ptr - 1)
      else Ok (ptr - 1)
    else Ok (ptr - 1)
  else Ok (ptr - 1).

Definition deref (s : units) (ptr : Z) : outcome Z :=
  ch <- rd s ptr ;;
  if ascii ch then Ok ch
  else if negb (head ch) then Ok (- ch)
  else if head2 ch then
    b1 <- rd s (ptr + 1) ;;
    if negb (tail b1) then Ok (- ch)
    else
      let codepoint :=
        Z.lor (Z.shiftl (Z.land ch 0x1F) 6) (Z.land b1 0x3F) in
      if codepoint <? 0x80 then Ok (-1) else Ok codepoint
  else if head3 ch then
    b1 <- rd s (ptr + 1) ;;
    bad <- (if negb (tail b1)
            then b2 <- rd s (ptr + 2) ;; Ok (negb (tail b2))
            else Ok false) ;;
    if (bad : bool) then Ok (- ch)
    else
      b2 <- rd s (ptr + 2) ;;
      let codepoint :=
        Z.lor (Z.lor (Z.shiftl (Z.land ch 0x0F) 12)
                     (Z.shiftl (Z.land b1 0x3F) 6))
              (Z.land b2 0x3F) in
      if (codepoint <? 0x800) || (Z.land codepoint 0xF800 =? 0xD800)
      then Ok (-1) else Ok codepoint
  else if head4 ch then
    b1 <- rd s (ptr + 1) ;;
    bad <- (if negb (tail b1)
            then b2 <- rd s (ptr + 2) ;;
                 if negb (tail b2)
                 then b3 <- rd s (ptr + 3) ;; Ok (negb (tail b3))
                 else Ok false
            else Ok false) ;;
    if (bad : bool) then Ok (- ch)
    else
      b2 <- rd s (ptr + 2) ;;
      b3 <- rd s (ptr + 3) ;;
      let codepoint :=
        Z.lor (Z.lor (Z.lor (Z.shiftl (Z.land ch 0x07) 18)
                            (Z.shiftl (Z.land b1 0x3F) 12))
                     (Z.shiftl (Z.land b2 0x3F) 6))
              (Z.land b3 0x3F) in
      if (codepoint <? 0x10000) || (0x10FFFF <? codepoint)
      then Ok (-1) else Ok codepoint
  else Ok (- ch).

(** [left != right] is [left.ptr < right.ptr]. *)
Definition ne (left right : Z) : bool := left <? right.

End UTF8Iterator.

Module UTF16Iterator.

Definition is_surrogate_first (ch : Z) : bool := Z.land ch 0xFC00 =? 0xD800.
Definition is_surrogate_last (ch : Z) : bool := Z.land ch 0xFC00 =? 0xDC00.

Definition incr (s : units) (ptr : Z) : outcome Z :=
  let ptr := ptr + 1 in
  a <- rd s (ptr - 1) ;;
  if is_surrogate_first a then
    b <- rd s ptr ;;
    if is_surrogate_last b then Ok (ptr + 1) else Ok ptr
  else Ok ptr.

Definition decr (s : units) (ptr : Z) : outcome Z :=
  let ptr := ptr - 1 in
  a <- rd s ptr ;;
  if is_surrogate_last a then
    b <- rd s (ptr - 1) ;;
    if is_surrogate_first b then Ok (ptr - 1) else Ok ptr
  else Ok ptr.

Definition deref (s : units) (ptr : Z) : outcome Z :=
  a <- rd s ptr ;;
  if is_surrogate_first a then
    b <- rd s (ptr + 1) ;;
    if is_surrogate_last b
    then Ok (Z.shiftl (Z.land a 0x3FF) 10 + Z.land b 0x3FF + 0x10000)
    else Ok a
  else Ok a.

Definition ne (left right : Z) : bool := left <? right.

End UTF16Iterator.

Module UTF32Iterator.

Definition incr (ptr : Z) : Z := ptr + 1.
Definition decr (ptr : Z) : Z := ptr - 1.

(** The source tests [u & 0xF800 != 0xD8] and [u < 0x110000] for the unit
    [u] under the cursor and returns [u] if both hold, [-1] otherwise.  With
    the precedence of the language the first test is [u & (0xF800 != 0xD8)],
    the lowest bit of [u]. *)
Definition deref (s : units) (ptr : Z) : outcome Z :=
  u <- rd s ptr ;;
  if negb (Z.land u (if 0xF800 =? 0xD8 then 0 else 1) =? 0)
     && (u <? 0x110000)
  then Ok (int32_t u) else Ok (-1).

Definition ne (left right : Z) : bool := negb (left =? right).

End UTF32Iterator.

(* ------------------------------------------------------------------ *)
(** ** Encoding traits *)

Module encoding_traits.

Definition replacement (E : Encoding) : Z :=
  match E with
  | Char8 => c_ "?"
  | _ => 0xFFFD
  end.

Definition multichar (E : Encoding) : bool :=
  match E with
  | UTF8 | UTF16 => true
  | _ => false
  end.

(** Iterators of the uninterpreted encodings are plain pointers. *)
Definition incr (E : Encoding) (s : units) (ptr : Z) : outcome Z :=
  match E with
  | UTF8 => UTF8Iterator.incr s ptr
  | UTF16 => UTF16Iterator.incr s ptr
  | UTF32 => Ok (UTF32Iterator.incr ptr)
  | _ => Ok (ptr + 1)
  end.

Definition decr (E : Encoding) (s : units) (ptr : Z) : outcome Z :=
  match E with
  | UTF8 => UTF8Iterator.decr s ptr
  | UTF16 => UTF16Iterator.decr s ptr
  | UTF32 => Ok (UTF32Iterator.decr ptr)
  | _ => Ok (ptr - 1)
  end.

(** [int32_t cp = *iter].  Dereferencing a plain pointer yields the
    character, converted from its own type. *)
Definition deref (E : Encoding) (s : units) (ptr : Z) : outcome Z :=
  match E with
  | UTF8 => UTF8Iterator.deref s ptr
  | UTF16 => UTF16Iterator.deref s ptr
  | UTF32 => UTF32Iterator.deref s ptr
  | Char8 => u <- rd s ptr ;; Ok (char u)
  | Char16 => rd s ptr
  | Char32 => u <- rd s ptr ;; Ok (int32_t u)
  end.

Definition ne (E : Encoding) (left right : Z) : bool :=
  match E with
  | UTF8 => UTF8Iterator.ne left right
  | UTF16 => UTF16Iterator.ne left right
  | _ => negb (left =? right)
  end.

(** [append(string, cp)], for a string whose units are [w] bits wide. *)
Definition append (E : Encoding) (w : Z) (str : units) (cp : Z)
  : units * bool :=
  match E with
  | UTF8 => UTF8Encoder.append w str cp
  | UTF16 => UTF16Encoder.append w str cp
  | UTF32 => UTF32Encoder.append w str cp
  | _ => (push_back w str (char cp), true)
  end.

End encoding_traits.

(** [iter(data + size) - iter(data)]: the difference of two cursors.  The
    UTF-8 and UTF-16 iterators count by advancing the right cursor; the other
    encodings subtract pointers. *)
Fixpoint distance_loop (E : Encoding) (s : units) (fuel : nat)
  (left right len : Z) : outcome Z :=
  if right <? left then
    match fuel with
    | O => OutOfFuel
    | S fuel =>
        next <- encoding_traits.incr E s right ;;
        if next =? right then Diverge
        else distance_loop E s fuel left next (size_t (len + 1))
    end
  else Ok len.

Definition length (E : Encoding) (s : units) : outcome Z :=
  match E with
  | UTF8 | UTF16 => distance_loop E s (S (List.length s)) (size s) 0 0
  | _ => Ok (size s)
  end.

(* ================================================================== *)
(** * String algorithms ([ext::algorithm::string]) *)

(** [n] copies of the fill token, as the padding loops write them. *)
Definition padding (fillchar : units) (n : Z) : units :=
  List.concat (repeat fillchar (Z.to_nat n)).

(* -------------------- Alignment -------------------- *)

Definition center (E : Encoding) (self : units) (width : Z) (fillchar : units)
  : outcome units :=
  fl <- length E fillchar ;;
  if negb (fl =? 1) then Throw (invalid_argument "center(): fillchar")
  else
    sl <- length E self ;;
    if width <? sl then Ok self
    else
      sl <- length E self ;;
      let diff := width - sl in
      let l := diff / 2 in
      let r := diff - l in
      Ok (padding fillchar l ++ self ++ padding fillchar r).

Definition ljust (E : Encoding) (self : units) (width : Z) (fillchar : units)
  : outcome units :=
  fl <- length E fillchar ;;
  if negb (fl =? 1) then Throw (invalid_argument "ljust(): fillchar")
  else
    sl <- length E self ;;
    if width <? sl then Ok self
    else
      sl <- length E self ;;
      let diff := width - sl in
      Ok (self ++ padding fillchar diff).

Definition rjust (E : Encoding) (self : units) (width : Z) (fillchar : units)
  : outcome units :=
  fl <- length E fillchar ;;
  if negb (fl =? 1) then Throw (invalid_argument "rjust(): fillchar")
  else
    sl <- length E self ;;
    if width <? sl then Ok self
    else
      sl <- length E self ;;
      let diff := width - sl in
      Ok (padding fillchar diff ++ self).

(* -------------------- Search -------------------- *)

Fixpoint find_loop (E : Encoding) (self sub : units) (fuel : nat)
  (iter done : Z) : outcome Z :=
  if encoding_traits.ne E iter done then
    match fuel with
    | O => OutOfFuel
    | S fuel =>
        m <- compare_eq self iter sub ;;
        if (m : bool) then Ok iter
        else
          next <- encoding_traits.incr E self iter ;;
          if next =? iter then Diverge
          else find_loop E self sub fuel next done
    end
  else Ok npos.

Definition find (E : Encoding) (self sub : units) (start end_ : Z)
  : outcome Z :=
  if size self <? size sub then Ok 0
  else
    let end_ := Z.min end_ (size self) in
    find_loop E self sub (S (S (List.length self)))
              start (end_ - size sub + 1).

(* -------------------- Split and join -------------------- *)

(** The copying loop of [join]: a separator before every item but the
    first. *)
Definition join (self : units) (iterable : list units) : units :=
  snd (fold_left
         (fun (st : bool * units) (item : units) =>
            let (first, data) := st in
            (false, (if first then data else data ++ self) ++ item))
         iterable (true, [])).

Fixpoint split_loop (E : Encoding) (self sep : units) (fuel : nat)
  (maxsplit prev iter done : Z) (result : list units) : outcome (list units) :=
  if negb (maxsplit =? 0) && encoding_traits.ne E iter done then
    match fuel with
    | O => OutOfFuel
    | S fuel =>
        m <- compare_eq self iter sep ;;
        if (m : bool) then
          split_loop E self sep fuel (size_t (maxsplit - 1))
                     (iter + size sep) (iter + size sep) done
                     (result ++ [slice self prev iter])
        else
          next <- encoding_traits.incr E self iter ;;
          if next =? iter then Diverge
          else split_loop E self sep fuel maxsplit prev next done result
    end
  else Ok (result ++ [slice self prev (size self)]).

(** [split] with a separator. *)
Definition split (E : Encoding) (self sep : units) (maxsplit : Z)
  : outcome (list units) :=
  if size sep =? 0 then Throw (invalid_argument "split(): sep")
  else
    let maxsplit := if size self <? size sep then 0 else maxsplit in
    split_loop E self sep (S (S (List.length self))) maxsplit 0 0
               (size self - size sep + 1) [].

Definition is_space (c : Z) : bool :=
  (c =? c_ " ") || ((0x9 <=? c) && (c <=? 0xD)).

(** The inner loop of the whitespace [rsplit]: step back while the unit
    under [ptr] is whitespace. *)
Fixpoint rsplit_skip (self : units) (fuel : nat) (ptr : Z) : outcome Z :=
  c <- rd self ptr ;;
  if is_space c then
    match fuel with
    | O => OutOfFuel
    | S fuel => rsplit_skip self fuel (ptr - 1)
    end
  else Ok ptr.

Fixpoint rsplit_loop (E : Encoding) (self : units) (fuel : nat)
  (maxsplit prev iter : Z) (result : list units) : outcome (list units) :=
  if negb (maxsplit =? 0) && encoding_traits.ne E 0 iter then
    match fuel with
    | O => OutOfFuel
    | S fuel =>
        let ptr := iter - 1 in
        c <- rd self ptr ;;
        if is_space c then
          let result := result ++ [slice self (ptr + 1) prev] in
          ptr <- rsplit_skip self (S (List.length self)) ptr ;;
          rsplit_loop E self fuel (size_t (maxsplit - 1)) (ptr + 1) ptr result
        else
          iter <- encoding_traits.decr E self iter ;;
          rsplit_loop E self fuel maxsplit prev iter result
    end
  else Ok (rev (result ++ [slice self 0 prev])).

(** [rsplit] on whitespace. *)
Definition rsplit (E : Encoding) (self : units) (maxsplit : Z)
  : outcome (list units) :=
  rsplit_loop E self (S (List.length self)) maxsplit (size self) (size self) [].

(* -------------------- Transcoding -------------------- *)

Definition Encoding_eq_dec (a b : Encoding) : {a = b} + {a <> b}.
Proof. decide equality. Defined.

(** The loop of the overload for [From != To].  The source passes [input]
    to every [append]: the converted units go to the end of the input
    sequence, and [output] is never mentioned.  [done] is computed once from
    the size on entry. *)
Fixpoint transcode_loop (From To : Encoding) (mode : Errors) (fuel : nat)
  (input : units) (iter done : Z) : outcome units :=
  if encoding_traits.ne From iter done then
    match fuel with
    | O => OutOfFuel
    | S fuel =>
        let w := char_bits From in
        cp <- encoding_traits.deref From input iter ;;
        input <-
          match mode with
          | Strict =>
              if cp <? 0 then
                Throw (invalid_argument "transcode(): input: Decoding error!")
              else
                let (str, ok) := encoding_traits.append To w input (uint32_t cp) in
                if ok then Ok str
                else Throw (invalid_argument
                              "transcode(): input: Encoding error!")
          | Replace =>
              let (str, ok) :=
                if cp <? 0 then (input, false)
                else encoding_traits.append To w input (uint32_t cp) in
              if ok then Ok str
              else Ok (fst (encoding_traits.append To w str
                              (uint32_t (encoding_traits.replacement To))))
          | Ignore =>
              if 0 <? cp
              then Ok (fst (encoding_traits.append To w input (uint32_t cp)))
              else Ok input
          end ;;
        next <- encoding_traits.incr From input iter ;;
        if next =? iter then Diverge
        else transcode_loop From To mode fuel input next done
    end
  else Ok input.

(** [transcode(input, output, mode)]: the result is the pair of the input
    sequence and the output buffer after the call.  For equal encodings the
    units are copied to the resized output. *)
Definition transcode (From To : Encoding) (input output : units)
  (mode : Errors) : outcome (units * units) :=
  if Encoding_eq_dec From To then Ok (input, input)
  else
    input' <- transcode_loop From To mode (S (List.length input))
                             input 0 (size input) ;;
    Ok (input', output).

(** The member function [transcode<From, To>(mode)]: a fresh [result] is
    passed as the output and returned. *)
Definition transcode_member (From To : Encoding) (self : units)
  (mode : Errors) : outcome units :=
  r <- transcode From To self [] mode ;;
  Ok (snd r).

(* -------------------- Truncation -------------------- *)

Fixpoint truncate_loop (E : Encoding) (self : units) (fuel : nat)
  (width sz iter done : Z) : outcome units :=
  if encoding_traits.ne E iter done then
    match fuel with
    | O => OutOfFuel
    | S fuel =>
        if size_t sz =? width then Ok (slice self 0 iter)
        else
          next <- encoding_traits.incr E self iter ;;
          if next =? iter then Diverge
          else truncate_loop E self fuel width (sz + 1) next done
    end
  else Ok self.

Definition truncate (E : Encoding) (self : units) (width : Z)
  : outcome units :=
  truncate_loop E self (S (List.length self)) width 0 0 (size self).

(* -------------------- Quoting -------------------- *)

Definition dquote : Z := 34.
Definition backslash : Z := 92.

Definition digits_lower : units := lit "0123456789abcdef".
Definition digits_upper : units := lit "0123456789ABCDEF".
Definition digit_of (digits : units) (d : Z) : Z := nth (Z.to_nat d) digits 0.

Definition nibble (ch : Z) (shift : Z) : Z :=
  digit_of digits_lower (Z.land (Z.shiftr ch shift) 0xF).

(** The body of the loop of [quote] for one decoded character [ch] (a
    [uint32_t]): the [switch] and the code after it.  The case for the null
    character has no [continue] and runs into the case for the bell. *)
Definition quote_char (To : Encoding) (Ascii : bool) (ch : Z)
  (result : units) : units :=
  let w := char_bits To in
  let push := push_back w in
  if (ch =? c_ "'") || (ch =? dquote) || (ch =? backslash) then
    push (push result backslash) (char ch)
  else if ch =? 0 then
    let result := push (push result backslash) (c_ "0") in
    push (push result backslash) (c_ "a")
  else if ch =? 7 then push (push result backslash) (c_ "a")
  else if ch =? 8 then push (push result backslash) (c_ "b")
  else if ch =? 12 then push (push result backslash) (c_ "f")
  else if ch =? 10 then push (push result backslash) (c_ "n")
  else if ch =? 13 then push (push result backslash) (c_ "r")
  else if ch =? 9 then push (push result backslash) (c_ "t")
  else if ch =? 11 then push (push result backslash) (c_ "v")
  else if (ch <? 0x20) || (Ascii && (0x80 <=? ch)) then
    if ch <? 0x10000 then
      fold_left push
        [backslash; c_ "u"; nibble ch 12; nibble ch 8; nibble ch 4; nibble ch 0]
        result
    else if ch <? 0x110000 then
      fold_left push
        [backslash; c_ "U"; nibble ch 28; nibble ch 24; nibble ch 20;
         nibble ch 16; nibble ch 12; nibble ch 8; nibble ch 4; nibble ch 0]
        result
    else if Ascii then push result (c_ "?")
    else fst (encoding_traits.append To w result
                (uint32_t (encoding_traits.replacement To)))
  else if Ascii then push result ch
  else
    let (str, ok) := encoding_traits.append To w result ch in
    if ok then str
    else fst (encoding_traits.append To w str
                (uint32_t (encoding_traits.replacement To))).

Fixpoint quote_loop (From To : Encoding) (Ascii : bool) (self : units)
  (fuel : nat) (iter done : Z) (result : units) : outcome units :=
  if encoding_traits.ne From iter done then
    match fuel with
    | O => OutOfFuel
    | S fuel =>
        cp <- encoding_traits.deref From self iter ;;
        let result := quote_char To Ascii (uint32_t cp) result in
        next <- encoding_traits.incr From self iter ;;
        if next =? iter then Diverge
        else quote_loop From To Ascii self fuel next done result
    end
  else Ok (push_back (char_bits To) result dquote).

Definition quote (From To : Encoding) (Ascii : bool) (self : units)
  : outcome units :=
  quote_loop From To Ascii self (S (List.length self)) 0 (size self)
             (push_back (char_bits To) [] dquote).

(* ================================================================== *)
(** * Translation tables ([ext::impl::Translation]) *)

Module Translation.

Record Node : Type := { key : Z; value : Z }.

(** A [std::vector<Node>]: the slots of its allocation, constructed or
    raw, and its size.  Iteration covers the first [vsize] slots. *)
Record vector : Type := { slots : list (option Node); vsize : nat }.

Definition empty : vector := {| slots := []; vsize := 0 |}.

(** [reserve(n)] grows the allocation and leaves the size as it is. *)
Definition reserve (v : vector) (n : nat) : vector :=
  {| slots := slots v ++ repeat None (n - List.length (slots v));
     vsize := vsize v |}.

Fixpoint set_slot (l : list (option Node)) (i : nat) (n : Node)
  : list (option Node) :=
  match l, i with
  | [], _ => []
  | _ :: l, O => Some n :: l
  | x :: l, S i => x :: set_slot l i n
  end.

(** [data[i] = node] writes the slot and does not touch the size. *)
Definition assign (v : vector) (i : nat) (n : Node) : vector :=
  {| slots := set_slot (slots v) i n; vsize := vsize v |}.

(** The elements a range-based [for] visits. *)
Definition elements (v : vector) : list Node :=
  flat_map (fun o => match o with Some n => [n] | None => [] end)
           (firstn (vsize v) (slots v)).

(** Conversion of a character of [bits] bits to [int32_t]. *)
Definition char_value (bits : Z) (u : Z) : Z :=
  if bits =? 8 then char u else if bits =? 32 then int32_t u else u.

Fixpoint fill_pairs (bits : Z) (x y : units) (fuel : nat) (i : nat)
  (data : vector) : outcome vector :=
  match fuel with
  | O => Ok data
  | S fuel =>
      k <- rd x (Z.of_nat i) ;;
      v <- rd y (Z.of_nat i) ;;
      fill_pairs bits x y fuel (S i)
        (assign data i {| key := char_value bits k;
                          value := char_value bits v |})
  end.

Fixpoint fill_skips (bits : Z) (z : units) (n : nat) (fuel : nat) (i : nat)
  (data : vector) : outcome vector :=
  match fuel with
  | O => Ok data
  | S fuel =>
      k <- rd z (Z.of_nat i) ;;
      fill_skips bits z n fuel (S i)
        (assign data (n + i) {| key := char_value bits k; value := -1 |})
  end.

(** The constructor [Translation(x, y, z)]. *)
Definition make (bits : Z) (x y z : units) : outcome vector :=
  let n := List.length x in
  let m := List.length z in
  let data := reserve empty (n + m) in
  data <- fill_pairs bits x y n 0 data ;;
  fill_skips bits z n m 0 data.

(** The call operator. *)
Definition call (data : vector) (in_ : Z) : Z :=
  match List.find (fun node => key node =? in_) (elements data) with
  | Some node => value node
  | None => in_
  end.

End Translation.

(** [maketrans(from, to, skip)] on strings of [char]. *)
Definition maketrans (from to skip : units) : outcome Translation.vector :=
  Translation.make 8 from to skip.

(* ================================================================== *)
(** * Format specifiers ([ext::impl::Specifier]) *)

Notation "' pat <- c ;; k" :=
  (bind c (fun x => match x with pat => k end))
  (at level 61, pat pattern, c at next level, right associativity).

Definition is_align (ch : Z) : bool :=
  (ch =? c_ "<") || (ch =? c_ ">") || (ch =? c_ "=") || (ch =? c_ "^").
Definition is_sign (ch : Z) : bool :=
  (ch =? c_ "+") || (ch =? c_ "-") || (ch =? c_ " ").
Definition is_alpha (ch : Z) : bool :=
  ((c_ "A" <=? ch) && (ch <=? c_ "Z")) || ((c_ "a" <=? ch) && (ch <=? c_ "z")).
Definition is_digit (ch : Z) : bool := (c_ "0" <=? ch) && (ch <=? c_ "9").
Definition is_conv (ch : Z) : bool :=
  (ch =? c_ "a") || (ch =? c_ "r") || (ch =? c_ "s").

(** [iter < end && p( *iter )]. *)
Definition peek (s : units) (iter end_ : Z) (p : Z -> bool) : bool :=
  (iter <? end_) && match rd s iter with Ok c => p c | _ => false end.

Definition unit_at (s : units) (iter : Z) : Z := nth (Z.to_nat iter) s 0.

(** [for (; iter < end && is_digit( *iter ); ++ iter) acc = acc * 10 +
    ( *iter ) - '0'], in [size_t]. *)
Fixpoint number_loop (s : units) (fuel : nat) (iter end_ acc : Z) : Z * Z :=
  match fuel with
  | O => (acc, iter)
  | S fuel =>
      if peek s iter end_ is_digit
      then number_loop s fuel (iter + 1) end_
             (size_t (acc * 10 + unit_at s iter - c_ "0"))
      else (acc, iter)
  end.

Module Specifier.

Record t : Type := {
  type : Z;
  sign : Z;
  align : Z;
  alter : bool;
  comma : bool;
  width : Z;
  precision : Z;
  fill : units;
  other : units
}.

Definition initial : t :=
  {| type := 0; sign := 0; align := 0; alter := false; comma := false;
     width := npos; precision := npos; fill := []; other := [] |}.

(** The constructor: parses
    [[[fill]align][sign][#][0][width][,][.precision][type]]. *)
Definition parse (E : Encoding) (spec : units) : outcome t :=
  if size spec =? 0 then Ok initial
  else
    let end_ := size spec in
    let fuel := S (List.length spec) in
    second <- encoding_traits.incr E spec 0 ;;
    let '(fill, align, iter) :=
      if peek spec second end_ is_align
      then (slice spec 0 second, unit_at spec second, second + 1)
      else if peek spec 0 end_ is_align
      then ([], unit_at spec 0, 1)
      else ([], 0, 0) in
    let '(sign, iter) :=
      if peek spec iter end_ is_sign
      then (unit_at spec iter, iter + 1) else (0, iter) in
    let '(alter, iter) :=
      if peek spec iter end_ (Z.eqb (c_ "#"))
      then (true, iter + 1) else (false, iter) in
    ' (align, fill, iter) <-
      (if peek spec iter end_ (Z.eqb (c_ "0"))
       then
         fill <- match fill with
                 | [] => basic_string_view (string_literal [c_ "0"])
                 | _ => Ok fill
                 end ;;
         Ok (if align =? 0 then c_ "=" else align, fill, iter + 1)
       else Ok (align, fill, iter)) ;;
    let '(width, iter) :=
      if peek spec iter end_ is_digit
      then number_loop spec fuel (iter + 1) end_
             (size_t (unit_at spec iter - c_ "0"))
      else (npos, iter) in
    let '(comma, iter) :=
      if peek spec iter end_ (Z.eqb (c_ ","))
      then (true, iter + 1) else (false, iter) in
    let '(precision, iter) :=
      if peek spec iter end_ (Z.eqb (c_ "."))
      then number_loop spec fuel (iter + 1) end_ 0
      else (npos, iter) in
    if peek spec iter end_ is_alpha then
      Ok {| type := unit_at spec iter; sign := sign; align := align;
            alter := alter; comma := comma; width := width;
            precision := precision; fill := fill;
            other := if iter + 1 <? end_
                     then slice spec (iter + 1) end_ else [] |}
    else
      Ok {| type := 0; sign := sign; align := align;
            alter := alter; comma := comma; width := width;
            precision := precision; fill := fill; other := [] |}.

End Specifier.

(* ================================================================== *)
(** * Renderers ([format_proxy]) *)

(** The default encoding of the character type of [E]. *)
Definition default_encoding (E : Encoding) : Encoding :=
  match E with
  | Char8 | UTF8 => UTF8
  | Char16 | UTF16 => UTF16
  | Char32 | UTF32 => UTF32
  end.

(** [better_string_view<Char>::format__<Char, To>(str, spec)]. *)
Definition string_format__ (To : Encoding) (str : units) (spec : Specifier.t)
  : outcome units :=
  result <- transcode_member (default_encoding To) To str Replace ;;
  let ty := Specifier.type spec in
  if negb (ty =? 0) && negb (ty =? c_ "s") then
    Throw (invalid_argument "string::format__(): spec: Invalid format code!")
  else if negb (Specifier.sign spec =? 0) then
    Throw (invalid_argument "string::format__(): spec: Sign is not allowed!")
  else if Specifier.align spec =? c_ "=" then
    Throw (invalid_argument
             "string::format__(): spec: Numeric alignment (=) is not allowed!")
  else if Specifier.alter spec then
    Throw (invalid_argument
             "string::format__(): spec: Alternate form (#) is not allowed!")
  else if Specifier.comma spec then
    Throw (invalid_argument
             "string::format__(): spec: Comma separator (,) is not allowed!")
  else if negb (size (Specifier.other spec) =? 0) then
    Throw (invalid_argument
             "string::format__(): spec: Invalid format specification!")
  else
    result <- (if negb (Specifier.precision spec =? npos)
               then truncate To result (Specifier.precision spec)
               else Ok result) ;;
    if negb (Specifier.width spec =? npos) then
      let align := if Specifier.align spec =? 0
                   then c_ "<" else Specifier.align spec in
      fill <- match Specifier.fill spec with
              | [] => basic_string_view (string_literal [c_ " "])
              | f => Ok f
              end ;;
      if align =? c_ "<" then ljust To result (Specifier.width spec) fill
      else if align =? c_ ">" then rjust To result (Specifier.width spec) fill
      else if align =? c_ "^" then center To result (Specifier.width spec) fill
      else Throw (invalid_argument
                    "string::format__(): spec: Invalid alignment!")
    else Ok result.

(** [do { number.push_back(digits[n % base]); n /= base; } while (n > 0)]. *)
Fixpoint number_digits (fuel : nat) (digits : units) (base n : Z)
  (number : units) : units :=
  match fuel with
  | O => number
  | S fuel =>
      let number := number ++ [digit_of digits (n mod base)] in
      let n := n / base in
      if 0 <? n then number_digits fuel digits base n number else number
  end.

Module int64_proxy.

Definition magnitude (value : Z) : Z :=
  size_t (if value <? 0 then - value else value).

Definition str__ (value : Z) : units :=
  let number := number_digits 64 digits_lower 10 (magnitude value) [] in
  let number := if value <? 0 then number ++ [c_ "-"] else number in
  rev number.

Definition format__ (E : Encoding) (value : Z) (spec : Specifier.t)
  : outcome units :=
  let ty := Specifier.type spec in
  if ty =? c_ "c" then
    let spec := {| Specifier.type := c_ "s";
                   Specifier.sign := Specifier.sign spec;
                   Specifier.align := Specifier.align spec;
                   Specifier.alter := Specifier.alter spec;
                   Specifier.comma := Specifier.comma spec;
                   Specifier.width := Specifier.width spec;
                   Specifier.precision := Specifier.precision spec;
                   Specifier.fill := Specifier.fill spec;
                   Specifier.other := Specifier.other spec |} in
    let w := char_bits E in
    let (temp, ok) := encoding_traits.append E w [] (uint32_t value) in
    let temp := if ok then temp
                else fst (encoding_traits.append E w temp
                            (uint32_t (encoding_traits.replacement E))) in
    string_format__ E temp spec
  else
    base <-
      (if ty =? c_ "b" then Ok 2
       else if ty =? c_ "o" then Ok 8
       else if (ty =? 0) || (ty =? c_ "d") || (ty =? c_ "n") then Ok 10
       else if (ty =? c_ "x") || (ty =? c_ "X") then Ok 16
       else if (ty =? c_ "e") || (ty =? c_ "E") || (ty =? c_ "f")
               || (ty =? c_ "F") || (ty =? c_ "g") || (ty =? c_ "G")
               || (ty =? c_ "%")
       then Throw (logic_error "Not implemented!")
       else Throw (invalid_argument
                     "int64_t::format__(): spec: Invalid format code!")) ;;
    if Specifier.comma spec then
      Throw (invalid_argument
        "int64_t::format__(): spec: Comma separator (,) is not allowed!")
    else if negb (Specifier.precision spec =? npos) then
      Throw (invalid_argument
        "int64_t::format__(): spec: Precision (.) is not allowed!")
    else if negb (size (Specifier.other spec) =? 0) then
      Throw (invalid_argument
        "int64_t::format__(): spec: Invalid format specification!")
    else
      let w := char_bits E in
      let result := [] in
      let result :=
        if value <? 0 then push_back w result (c_ "-")
        else if negb (Specifier.sign spec =? 0)
             then push_back w result (c_ "+")
             else result in
      let result :=
        if Specifier.alter spec && negb (base =? 10)
        then push_back w (push_back w result (c_ "0")) ty
        else result in
      let digits := if ty =? c_ "X" then digits_upper else digits_lower in
      let number :=
        fold_left (push_back w)
          (number_digits 64 digits base (magnitude value) []) [] in
      if negb (Specifier.width spec =? npos) then
        let width := Specifier.width spec in
        fill <- match Specifier.fill spec with
                | [] => basic_string_view (string_literal [c_ " "])
                | f => Ok f
                end ;;
        let align := if Specifier.align spec =? 0
                     then c_ ">" else Specifier.align spec in
        let result :=
          if (align =? c_ "=") && (size result + size number <? width)
          then result ++ padding fill (width - size result - size number)
          else result in
        let result := result ++ rev number in
        if align =? c_ "<" then ljust E result width fill
        else if align =? c_ ">" then rjust E result width fill
        else if align =? c_ "^" then center E result width fill
        else Ok result
      else Ok (result ++ rev number).

End int64_proxy.

(** Argument values the embedding covers: the signed integers, which all
    use the proxy of [int64_t], and the floating point numbers, whose
    renderers are not implemented. *)
Inductive value : Type :=
| Int64 (v : Z)
| Double.

(** [impl::formatter<E, Char, T>(value, func, spec, out)]. *)
Definition formatter (E : Encoding) (v : value) (func : Z) (spec : units)
  (out : units) : outcome units :=
  if func =? 0 then
    sp <- Specifier.parse E spec ;;
    r <- match v with
         | Int64 n => int64_proxy.format__ E n sp
         | Double => Throw (logic_error "Not implemented!")
         end ;;
    Ok (out ++ r)
  else if (func =? c_ "a") || (func =? c_ "r") || (func =? c_ "s") then
    s <- match v with
         | Int64 n => Ok (int64_proxy.str__ n)
         | Double => Throw (logic_error "Not implemented!")
         end ;;
    sp <- Specifier.parse E spec ;;
    r <- string_format__ E s sp ;;
    Ok (out ++ r)
  else Ok out.

(* ================================================================== *)
(** * The format engine ([format1], [format]) *)

(** A formatter of the dispatch table, with its input bound:
    [fomatters[index](inputs[index], conv, spec, result)]. *)
Definition Formatter : Type := Z -> units -> units -> outcome units.

Definition switching_to_manual : exn :=
  invalid_argument
    "format(): format - Switching from automatic to manual indexing".
Definition switching_to_automatic : exn :=
  invalid_argument
    "format(): format - Switching from manual to automatic indexing".
Definition unterminated : exn :=
  invalid_argument "format(): format - Unterminated format sequence".

(** The state of the scanning loop of [format1]; [position] is the counter
    the caller shares with it by reference. *)
Record fstate : Type := {
  iter : Z;
  from : Z;
  result : units;
  position : Z
}.

(** The block "Process index": [c] is the unit under [iter].  It yields the
    index, the new position counter and the new cursor. *)
Definition format1_index (self : units) (c iter position : Z)
  : outcome (Z * Z * Z) :=
  if is_digit c then
    position <-
      (if position =? 0 then Ok npos
       else if negb (position =? npos) then Throw switching_to_manual
       else Ok position) ;;
    let (index, iter) :=
      number_loop self (S (List.length self)) (iter + 1) (size self)
                  (size_t (c - c_ "0")) in
    Ok (index, position, iter)
  else if position =? npos then Throw switching_to_automatic
  else Ok (position, size_t (position + 1), iter).

(** The search for the end of the format specification. *)
Fixpoint spec_loop (E : Encoding) (self : units) (fuel : nat)
  (iter end_ level : Z) : outcome (Z * Z) :=
  if iter <? end_ then
    match fuel with
    | O => OutOfFuel
    | S fuel =>
        c <- rd self iter ;;
        let advance (level : Z) :=
          next <- encoding_traits.incr E self iter ;;
          if next =? iter then Diverge
          else spec_loop E self fuel next end_ level in
        if c =? c_ "{" then advance (level + 1)
        else if c =? c_ "}" then
          if level - 1 =? 0 then Ok (iter, 0) else advance (level - 1)
        else advance level
    end
  else Ok (iter, level).

(** One turn of the loop [while (iter < end)]. *)
Definition format1_iter (E : Encoding) (self : units)
  (fomatters : list Formatter) (count : Z) (st : fstate) : outcome fstate :=
  let end_ := size self in
  c <- rd self (iter st) ;;
  if c =? c_ "{" then
    let result := result st ++ slice self (from st) (iter st) in
    let iter := iter st + 1 in
    c <- rd self iter ;;
    if c =? c_ "{" then
      Ok {| iter := iter + 1; from := iter; result := result;
            position := position st |}
    else
      '(index, position, iter) <- format1_index self c iter (position st) ;;
      if count <=? index then
        Throw (out_of_range "format(): Argument index out of range")
      else
        c <- rd self iter ;;
        if c =? c_ "[" then Throw (logic_error "Not implemented!")
        else
          '(conv, iter) <-
            (if c =? c_ "!" then
               c <- rd self (iter + 1) ;;
               if is_conv c then Ok (c, iter + 1)
               else Throw (invalid_argument
                             "format(): format - Invalid conversion")
             else Ok (0, iter)) ;;
          c <- rd self iter ;;
          '(spec, iter) <-
            (if c =? c_ ":" then
               let start := iter + 1 in
               '(iter, level) <-
                 spec_loop E self (S (List.length self)) start end_ 1 ;;
               if 0 <? level then Throw unterminated
               else Ok (slice self start iter, iter)
             else Ok ([], iter)) ;;
          c <- rd self iter ;;
          if negb (c =? c_ "}") then Throw unterminated
          else
            match nth_error fomatters (Z.to_nat index) with
            | None => Undefined
            | Some f =>
                result <- f conv spec result ;;
                Ok {| iter := iter + 1; from := iter + 1; result := result;
                      position := position |}
            end
  else if c =? c_ "}" then
    let result := result st ++ slice self (from st) (iter st) in
    let iter := iter st + 1 in
    c <- rd self iter ;;
    if negb (c =? c_ "}") then
      Throw (invalid_argument
               "format(): format - Single '}' in format string")
    else
      Ok {| iter := iter + 1; from := iter; result := result;
            position := position st |}
  else
    next <- encoding_traits.incr E self (iter st) ;;
    Ok {| iter := next; from := from st; result := result st;
          position := position st |}.

Fixpoint format1_loop (E : Encoding) (self : units)
  (fomatters : list Formatter) (count : Z) (fuel : nat) (st : fstate)
  : outcome (units * Z) :=
  if iter st <? size self then
    match fuel with
    | O => OutOfFuel
    | S fuel =>
        st' <- format1_iter E self fomatters count st ;;
        if iter st' =? iter st then Diverge
        else format1_loop E self fomatters count fuel st'
    end
  else Ok (result st ++ slice self (from st) (size self), position st).

(** [format1(self, inputs, fomatters, count, position)]: the formatted
    string and the final value of the shared position counter. *)
Definition format1 (E : Encoding) (self : units) (fomatters : list Formatter)
  (count : Z) (position : Z) : outcome (units * Z) :=
  format1_loop E self fomatters count (S (List.length self))
    {| iter := 0; from := 0; result := []; position := position |}.

(** [format(self, values...)]. *)
Definition format (E : Encoding) (self : units) (values : list value)
  : outcome units :=
  let position := 0 in
  r <- format1 E self (map (formatter E) values)
               (Z.of_nat (List.length values)) position ;;
  Ok (fst r).

(* ================================================================== *)
(** * The other algorithms of [ext::algorithm::string] *)

(* -------------------- Alignment -------------------- *)


(* -------------------- Search -------------------- *)

(** [index]: the loop of [find], ending in an exception. *)
Fixpoint index_loop (E : Encoding) (self sub : units) (fuel : nat)
  (iter done : Z) : outcome Z :=
  if encoding_traits.ne E iter done then
    match fuel with
    | O => OutOfFuel
    | S fuel =>
        m <- compare_eq self iter sub ;;
        if (m : bool) then Ok iter
        else
          next <- encoding_traits.incr E self iter ;;
          if next =? iter then Diverge
          else index_loop E self sub fuel next done
    end
  else Throw (invalid_argument "index(): sub").

Definition index (E : Encoding) (self sub : units) (start end_ : Z)
  : outcome Z :=
  if size self <? size sub then Ok 0
  else
    let end_ := Z.min end_ (size self) in
    index_loop E self sub (S (S (List.length self)))
               start (end_ - size sub + 1).

(** The loop of [rfind] and [rindex]: [not_found] is what the function
    does after the loop. *)
Fixpoint rfind_loop (E : Encoding) (self sub : units) (not_found : outcome Z)
  (fuel : nat) (done iter : Z) : outcome Z :=
  if encoding_traits.ne E done iter then
    match fuel with
    | O => OutOfFuel
    | S fuel =>
        let ptr := iter - size sub in
        m <- compare_eq self ptr sub ;;
        if (m : bool) then Ok ptr
        else
          iter <- encoding_traits.decr E self iter ;;
          rfind_loop E self sub not_found fuel done iter
    end
  else not_found.

Definition rfind (E : Encoding) (self sub : units) (start end_ : Z)
  : outcome Z :=
  if size self <? size sub then Ok 0
  else
    let end_ := Z.min end_ (size self) in
    rfind_loop E self sub (Ok npos) (S (S (List.length self)))
               (start + size sub - 1) end_.

Definition rindex (E : Encoding) (self sub : units) (start end_ : Z)
  : outcome Z :=
  if size self <? size sub then Ok 0
  else
    let end_ := Z.min end_ (size self) in
    rfind_loop E self sub (Throw (invalid_argument "rindex(): sub"))
               (S (S (List.length self))) (start + size sub - 1) end_.

(** [count]: after a match the cursor is set behind it. *)
Fixpoint count_loop (E : Encoding) (self sub : units) (fuel : nat)
  (iter done result : Z) : outcome Z :=
  if encoding_traits.ne E iter done then
    match fuel with
    | O => OutOfFuel
    | S fuel =>
        m <- compare_eq self iter sub ;;
        next <- (if (m : bool) then Ok (iter + size sub)
                 else encoding_traits.incr E self iter) ;;
        if next =? iter then Diverge
        else count_loop E self sub fuel next done
               (if m then size_t (result + 1) else result)
    end
  else Ok result.

Definition count (E : Encoding) (self sub : units) (start end_ : Z)
  : outcome Z :=
  if size self <? size sub then Ok 0
  else
    let end_ := Z.min end_ (size self) in
    count_loop E self sub (S (S (List.length self)))
               start (end_ - size sub + 1) 0.

(* -------------------- Replace -------------------- *)

Fixpoint replace_loop (E : Encoding) (self old str : units) (fuel : nat)
  (count prev iter done : Z) (result : units) : outcome units :=
  if negb (count =? 0) && encoding_traits.ne E iter done then
    match fuel with
    | O => OutOfFuel
    | S fuel =>
        m <- compare_eq self iter old ;;
        if (m : bool) then
          replace_loop E self old str fuel (size_t (count - 1))
                       (iter + size old) (iter + size old) done
                       (result ++ slice self prev iter ++ str)
        else
          next <- encoding_traits.incr E self iter ;;
          if next =? iter then Diverge
          else replace_loop E self old str fuel count prev next done result
    end
  else Ok (result ++ slice self prev (size self)).

(** [replace].  For a string shorter than [old] the source returns [0],
    which builds the result string from a null pointer: that is undefined.
    An empty [old] matches without moving the cursor, as often as [count]
    allows, which is what the additional fuel is for. *)
Definition replace (E : Encoding) (self old str : units) (count : Z)
  : outcome units :=
  if size self <? size old then Undefined
  else
    replace_loop E self old str
      (S (S (List.length self))
       + (if size old =? 0 then Z.to_nat count else 0))
      count 0 0 (size self - size old + 1) [].

(** [translate], with the table as a function on codepoints. *)
Fixpoint translate_loop (E : Encoding) (self : units) (table : Z -> Z)
  (mode : Errors) (fuel : nat) (iter done : Z) (result : units)
  : outcome units :=
  if encoding_traits.ne E iter done then
    match fuel with
    | O => OutOfFuel
    | S fuel =>
        let w := char_bits E in
        cp <- encoding_traits.deref E self iter ;;
        result <-
          match mode with
          | Strict =>
              if cp <? 0 then
                Throw (invalid_argument "translate(): input: Decoding error!")
              else
                let cp := int32_t (table cp) in
                if cp =? -1 then Ok result
                else
                  let (str, ok) :=
                    encoding_traits.append E w result (uint32_t cp) in
                  if ok then Ok str
                  else Throw (invalid_argument
                                "translate(): input: Encoding error!")
          | Replace =>
              let cp := if cp <? 0 then encoding_traits.replacement E
                        else cp in
              let cp := int32_t (table cp) in
              if cp =? -1 then Ok result
              else
                let (str, ok) :=
                  encoding_traits.append E w result (uint32_t cp) in
                if ok then Ok str
                else Ok (fst (encoding_traits.append E w str
                                (uint32_t (encoding_traits.replacement E))))
          | Ignore =>
              if cp <? 0 then Ok result
              else
                let cp := int32_t (table cp) in
                if cp =? -1 then Ok result
                else Ok (fst (encoding_traits.append E w result
                                (uint32_t cp)))
          end ;;
        next <- encoding_traits.incr E self iter ;;
        if next =? iter then Diverge
        else translate_loop E self table mode fuel next done result
    end
  else Ok result.

Definition translate (E : Encoding) (self : units) (table : Z -> Z)
  (mode : Errors) : outcome units :=
  translate_loop E self table mode (S (List.length self)) 0 (size self) [].

(** [expandtabs]. *)
Fixpoint expandtabs_loop (E : Encoding) (self : units) (tabsize : Z)
  (fuel : nat) (iter done count : Z) (result : units) : outcome units :=
  if encoding_traits.ne E iter done then
    match fuel with
    | O => OutOfFuel
    | S fuel =>
        let w := char_bits E in
        cp <- encoding_traits.deref E self iter ;;
        let '(result, count) :=
          if cp =? 9 then
            (fold_left (push_back w)
               (repeat (c_ " ") (Z.to_nat (tabsize - count))) result, 0)
          else
            let result :=
              fst (encoding_traits.append E w result (uint32_t cp)) in
            let count := size_t (count + 1) in
            (result,
             if (count =? tabsize) || (cp =? 13) || (cp =? 10)
             then 0 else count) in
        next <- encoding_traits.incr E self iter ;;
        if next =? iter then Diverge
        else expandtabs_loop E self tabsize fuel next done count result
    end
  else Ok result.

Definition expandtabs (E : Encoding) (self : units) (tabsize : Z)
  : outcome units :=
  expandtabs_loop E self tabsize (S (List.length self)) 0 (size self) 0 [].

(* -------------------- Split on whitespace, from the left ---------- *)

(** The inner loop of the whitespace [split]: step forward while the unit
    under [ptr] is whitespace.  It has no bound of its own. *)
Fixpoint split_skip (self : units) (fuel : nat) (ptr : Z) : outcome Z :=
  c <- rd self ptr ;;
  if is_space c then
    match fuel with
    | O => OutOfFuel
    | S fuel => split_skip self fuel (ptr + 1)
    end
  else Ok ptr.

Fixpoint split_whitespace_loop (E : Encoding) (self : units) (fuel : nat)
  (maxsplit prev iter done : Z) (result : list units)
  : outcome (list units) :=
  if negb (maxsplit =? 0) && encoding_traits.ne E iter done then
    match fuel with
    | O => OutOfFuel
    | S fuel =>
        c <- rd self iter ;;
        if is_space c then
          let result := result ++ [slice self prev iter] in
          ptr <- split_skip self (S (List.length self)) iter ;;
          split_whitespace_loop E self fuel (size_t (maxsplit - 1))
                                ptr ptr done result
        else
          next <- encoding_traits.incr E self iter ;;
          if next =? iter then Diverge
          else split_whitespace_loop E self fuel maxsplit prev next done
                                     result
    end
  else Ok (result ++ [slice self prev (size self)]).

(** [split] on whitespace. *)
Definition split_whitespace (E : Encoding) (self : units) (maxsplit : Z)
  : outcome (list units) :=
  split_whitespace_loop E self (S (List.length self)) maxsplit 0 0
                        (size self) [].

(* -------------------- Split on a separator, from the right -------- *)

Fixpoint rsplit_separator_loop (E : Encoding) (self sep : units) (fuel : nat)
  (maxsplit prev done iter : Z) (result : list units)
  : outcome (list units) :=
  if negb (maxsplit =? 0) && encoding_traits.ne E done iter then
    match fuel with
    | O => OutOfFuel
    | S fuel =>
        let ptr := iter - size sep in
        m <- compare_eq self ptr sep ;;
        if (m : bool) then
          rsplit_separator_loop E self sep fuel (size_t (maxsplit - 1))
                                ptr done ptr
                                (result ++ [slice self (ptr + size sep) prev])
        else
          iter <- encoding_traits.decr E self iter ;;
          rsplit_separator_loop E self sep fuel maxsplit prev done iter result
    end
  else Ok (rev (result ++ [slice self 0 prev])).

(** [rsplit] with a separator. *)
Definition rsplit_separator (E : Encoding) (self sep : units) (maxsplit : Z)
  : outcome (list units) :=
  if size sep =? 0 then Throw (invalid_argument "rsplit(): sep")
  else
    let maxsplit := if size self <? size sep then 0 else maxsplit in
    rsplit_separator_loop E self sep (S (S (List.length self))) maxsplit
                          (size self) (size sep - 1) (size self) [].

(* -------------------- Prefix and suffix -------------------- *)

(** [end - start] is a difference of [size_t]. *)
Definition startswith (self prefix : units) (start end_ : Z) : outcome bool :=
  let end_ := Z.min end_ (size self) in
  if size_t (end_ - start) <? size prefix then Ok false
  else compare_eq self start prefix.

Definition endswith (self suffix : units) (start end_ : Z) : outcome bool :=
  let end_ := Z.min end_ (size self) in
  if size_t (end_ - start) <? size suffix then Ok false
  else compare_eq self (end_ - size suffix) suffix.

Definition removeprefix (self prefix : units) : outcome units :=
  b <- startswith self prefix 0 (size self) ;;
  if (b : bool) then Ok (slice self (size prefix) (size self))
  else Ok self.

Definition removesuffix (self suffix : units) : outcome units :=
  b <- endswith self suffix 0 (size self) ;;
  if (b : bool) then Ok (slice self 0 (size self - size suffix))
  else Ok self.

(* ================================================================== *)
(** * Notions the properties are stated with *)

(** The units the loop of [quote] writes for the null character: the
    escape for the null character and then the escape for the bell. *)
Definition null_escape : units := [backslash; c_ "0"; backslash; c_ "a"].

(** The two indexing modes, as values of the position counter: the
    sentinel once an explicit index was seen, the next automatic index once
    an automatic one was.  Zero is the counter before the first field. *)
Definition manual_mode (position : Z) : Prop := position = npos.
Definition automatic_mode (position : Z) : Prop := 0 < position < npos.

(** The items of a list, each followed by the separator. *)
Definition terminated (sep : units) (items : list units) : units :=
  List.concat (map (fun p => p ++ sep) items).

(** A unit of the ASCII range. *)
Definition ascii_unit (u : Z) : Prop := 0 <= u < 0x80.

(** The values the UTF-8 iterator puts together from the payload bits of a
    lead unit and of the units behind it. *)
Definition payload2 (ch b1 : Z) : Z :=
  Z.lor (Z.shiftl (Z.land ch 0x1F) 6) (Z.land b1 0x3F).
Definition payload3 (ch b1 b2 : Z) : Z :=
  Z.lor (Z.lor (Z.shiftl (Z.land ch 0x0F) 12) (Z.shiftl (Z.land b1 0x3F) 6))
        (Z.land b2 0x3F).
Definition payload4 (ch b1 b2 b3 : Z) : Z :=
  Z.lor (Z.lor (Z.lor (Z.shiftl (Z.land ch 0x07) 18)
                      (Z.shiftl (Z.land b1 0x3F) 12))
               (Z.shiftl (Z.land b2 0x3F) 6))
        (Z.land b3 0x3F).

(** A token that decodes to exactly one codepoint: the cursor at its first
    unit reads a codepoint, not an error value, and one step takes it to the
    end of the token. *)
Definition decodes_to_one_codepoint (E : Encoding) (f : units) : Prop :=
  exists cp, encoding_traits.deref E f 0 = Ok cp /\ 0 <= cp
             /\ encoding_traits.incr E f 0 = Ok (size f).

(* ================================================================== *)
(** * Concrete runs *)

(** U+1F600 in UTF-8. *)
Definition grinning : units := [0xF0; 0x9F; 0x98; 0x80].
(** U+270F in UTF-8. *)
Definition pencil : units := [0xE2; 0x9C; 0x8F].

Example center_abc :
  center UTF8 (lit "abc") 8 (lit "-") = Ok (lit "--abc---").
Proof. reflexivity. Qed.

Example center_emoji :
  center UTF8 (grinning ++ grinning ++ grinning) 8 pencil
  = Ok (pencil ++ pencil ++ grinning ++ grinning ++ grinning
        ++ pencil ++ pencil ++ pencil).
Proof. vm_compute. reflexivity. Qed.

Example find_abc : find UTF8 (lit "---abc") (lit "abc") 0 npos = Ok 3.
Proof. vm_compute. reflexivity. Qed.

Example find_none : find UTF8 (lit "------") (lit "abc") 0 npos = Ok npos.
Proof. vm_compute. reflexivity. Qed.

Example split_abc :
  split UTF8 (lit "abc---def") (lit "--") npos = Ok [lit "abc"; lit "-def"].
Proof. vm_compute. reflexivity. Qed.

Example rsplit_abcd :
  rsplit UTF8 (lit "a b c d") 2 = Ok [lit "a b"; lit "c"; lit "d"].
Proof. vm_compute. reflexivity. Qed.

Example join_abc :
  join (lit "abc") [lit "-"; lit "-"; lit "-"] = lit "-abc-abc-".
Proof. reflexivity. Qed.

Example format_indices :
  format UTF8 (lit "{2}{1}{0}") [Int64 1; Int64 2; Int64 3] = Ok (lit "321").
Proof. vm_compute. reflexivity. Qed.

Example format_braces : format UTF8 (lit "{{}}") [] = Ok (lit "{}").
Proof. vm_compute. reflexivity. Qed.

Example format_hex :
  format UTF8 (lit "{:#x}") [Int64 42] = Ok (lit "0x2a").
Proof. vm_compute. reflexivity. Qed.

Example format_neg :
  format UTF8 (lit "{:" ++ grinning ++ lit "=+06}") [Int64 (-42)]
  = Ok (lit "-" ++ grinning ++ grinning ++ grinning ++ lit "42").
Proof. vm_compute. reflexivity. Qed.

Example format_fill_and_width :
  format UTF8 (lit "{:*^6}") [Int64 (-42)] = Ok (lit "*-42**").
Proof. vm_compute. reflexivity. Qed.

(* ================================================================== *)
(** * Properties *)

(** ** Reasoning about outcomes *)

Lemma bind_Ok {A B : Type} (c : outcome A) (k : A -> outcome B) (b : B) :
  bind c k = Ok b -> exists a, c = Ok a /\ k a = Ok b.
Proof.
  destruct c as [a| | | |]; simpl; intros H; try discriminate.
  exists a. split; [reflexivity | exact H].
Qed.

Ltac inv_bind H :=
  let a := fresh "a" in
  let Ha := fresh "Ha" in
  apply bind_Ok in H; destruct H as [a [Ha H]].

Lemma size_nonneg (s : units) : 0 <= size s.
Proof. unfold size. lia. Qed.

Lemma size_app (a b : units) : size (a ++ b) = size a + size b.
Proof. unfold size. rewrite length_app. lia. Qed.

(* ------------------------------------------------------------------ *)
(** ** Formatting of integers *)

(** A literal of one unit that is not zero cannot be measured inside its
    array: [Traits::length] reads the unit and then the one behind it. *)
Lemma literal_without_terminator (c : Z) :
  c <> 0 -> basic_string_view (string_literal [c]) = Undefined.
Proof.
  intros Hc. unfold basic_string_view, string_literal, Traits.length.
  cbn [List.length Traits.length_loop]. change (rd [c] 0) with (Ok c).
  cbn [bind]. destruct (c =? 0) eqn:H0; [apply Z.eqb_eq in H0; contradiction|].
  reflexivity.
Qed.

(** C6.  With the template "{:=+06}" the fill is not named and the flag "0"
    takes it from [string_literal<Char, '0'>()], an array of one unit that
    the view constructor measures with [Traits::length]: the run reads
    behind the array, for every encoding and every integer, and what it
    returns is not fixed by the code.  With the template whose fill is
    U+1F600 and whose alignment is "^" the fill is named, and 42 is written
    as the sign and digits between one fill codepoint and two: fifteen bytes
    that count as six codepoints. *)
Theorem format_42_zero_flag_reads_behind_literal :
  (forall (E : Encoding) (n : Z),
      Specifier.parse E (lit "=+06") = Undefined
      /\ format E (lit "{:=+06}") [Int64 n] = Undefined)
  /\ format UTF8 (lit "{:" ++ grinning ++ lit "^+06}") [Int64 42]
     = Ok (grinning ++ lit "+42" ++ grinning ++ grinning)
  /\ length UTF8 (grinning ++ lit "+42" ++ grinning ++ grinning) = Ok 6
  /\ size (grinning ++ lit "+42" ++ grinning ++ grinning) = 15.
Proof.
  split.
  - intros E n. split; destruct E; vm_compute; reflexivity.
  - repeat split; vm_compute; reflexivity.
Qed.

(** With the fill "0" named in front of the alignment the same width, sign
    and value give the output the template of the flag is meant to give. *)
Lemma format_42_named_zero_fill :
  format UTF8 (lit "{:0=+6}") [Int64 42] = Ok (lit "+00042").
Proof. vm_compute. reflexivity. Qed.

(** The default fill of a width is taken the same way, from
    [string_literal<Char, ' '>()]. *)
Lemma format_width_default_fill (E : Encoding) (n : Z) :
  format E (lit "{:6}") [Int64 n] = Undefined.
Proof. destruct E; vm_compute; reflexivity. Qed.

(* ------------------------------------------------------------------ *)
(** ** Reads and ranges *)

Lemma rd_range (s : units) (i u : Z) : rd s i = Ok u -> 0 <= i < size s.
Proof.
  unfold rd. intros H. destruct (i <? 0) eqn:Hneg; [discriminate|].
  apply Z.ltb_ge in Hneg.
  destruct (nth_error s (Z.to_nat i)) eqn:Hn; [|discriminate].
  assert (Hl : (Z.to_nat i < List.length s)%nat).
  { apply nth_error_Some. rewrite Hn. discriminate. }
  unfold size. lia.
Qed.

Lemma rd_cases (s : units) (i : Z) :
  rd s i = Undefined \/ exists u, rd s i = Ok u.
Proof.
  unfold rd. destruct (i <? 0); [left; reflexivity|].
  destruct (nth_error s (Z.to_nat i)) as [u|]; [right; exists u|left];
    reflexivity.
Qed.

Lemma rd_inside (s : units) (i : Z) :
  0 <= i < size s -> exists u, rd s i = Ok u.
Proof.
  intros H. destruct (rd_cases s i) as [Hu|Hu]; [|exact Hu].
  unfold rd in Hu. destruct (i <? 0) eqn:Hneg; [apply Z.ltb_lt in Hneg; lia|].
  destruct (nth_error s (Z.to_nat i)) eqn:Hn; [discriminate|].
  apply nth_error_None in Hn. unfold size in H. lia.
Qed.

(** A property of the integers of a range, checked on each of them. *)
Lemma forallb_range (P : Z -> bool) (lo : Z) (n : nat) :
  forallb P (map (fun k => lo + Z.of_nat k) (seq 0 n)) = true ->
  forall u, lo <= u < lo + Z.of_nat n -> P u = true.
Proof.
  intros H u Hu. rewrite forallb_forall in H. apply H.
  apply in_map_iff. exists (Z.to_nat (u - lo)). split; [lia|].
  apply in_seq. lia.
Qed.

Lemma int32_t_small (u : Z) : 0 <= u < 2147483648 -> int32_t u = u.
Proof.
  intros H. unfold int32_t, signed.
  change (2 ^ 32) with 4294967296. change (2 ^ (32 - 1)) with 2147483648.
  rewrite Z.mod_small by lia.
  destruct (u <? 2147483648) eqn:Hlt; [reflexivity|].
  apply Z.ltb_ge in Hlt. lia.
Qed.

(* ------------------------------------------------------------------ *)
(** ** Search *)

Lemma find_longer_sub (E : Encoding) (self sub : units) (start end_ : Z) :
  size self < size sub -> find E self sub start end_ = Ok 0.
Proof.
  intros H. unfold find.
  destruct (size self <? size sub) eqn:Hlt; [reflexivity|].
  apply Z.ltb_ge in Hlt. lia.
Qed.

(** C2.  Whenever the pattern is longer than the string, [find] answers
    offset 0, which is not the sentinel [npos]. *)
Theorem find_longer_pattern_returns_zero (E : Encoding) (self sub : units)
  (start end_ : Z) :
  size self < size sub ->
  find E self sub start end_ = Ok 0 /\ find E self sub start end_ <> Ok npos.
Proof.
  intros H. rewrite (find_longer_sub E self sub start end_ H).
  split; [reflexivity|]. unfold npos. discriminate.
Qed.

(** The pattern "ab" in the string "a". *)
Lemma find_longer_pattern_returns_zero_witness :
  size (lit "a") < size (lit "ab")
  /\ find UTF8 (lit "a") (lit "ab") 0 npos = Ok 0
  /\ find UTF8 (lit "a") (lit "ab") 0 npos <> Ok npos.
Proof.
  assert (H : size (lit "a") < size (lit "ab")) by (vm_compute; reflexivity).
  split; [exact H|].
  exact (find_longer_pattern_returns_zero UTF8 (lit "a") (lit "ab") 0 npos H).
Defined.

(* ------------------------------------------------------------------ *)
(** ** Translation tables *)

Lemma assign_vsize (v : Translation.vector) (i : nat) (n : Translation.Node) :
  Translation.vsize (Translation.assign v i n) = Translation.vsize v.
Proof. reflexivity. Qed.

Lemma fill_pairs_vsize (bits : Z) (x y : units) (fuel i : nat)
  (data t : Translation.vector) :
  Translation.fill_pairs bits x y fuel i data = Ok t ->
  Translation.vsize t = Translation.vsize data.
Proof.
  revert i data. induction fuel as [|fuel IH]; intros i data H; simpl in H.
  - injection H as <-. reflexivity.
  - inv_bind H. inv_bind H. apply IH in H. rewrite H. apply assign_vsize.
Qed.

Lemma fill_skips_vsize (bits : Z) (z : units) (n fuel i : nat)
  (data t : Translation.vector) :
  Translation.fill_skips bits z n fuel i data = Ok t ->
  Translation.vsize t = Translation.vsize data.
Proof.
  revert i data. induction fuel as [|fuel IH]; intros i data H; simpl in H.
  - injection H as <-. reflexivity.
  - inv_bind H. apply IH in H. rewrite H. apply assign_vsize.
Qed.

Lemma fill_pairs_returns (bits : Z) (x y : units) (fuel : nat) :
  forall i data,
    (i + fuel <= List.length x)%nat -> (i + fuel <= List.length y)%nat ->
    exists t, Translation.fill_pairs bits x y fuel i data = Ok t.
Proof.
  induction fuel as [|fuel IH]; intros i data Hx Hy; simpl.
  - exists data. reflexivity.
  - destruct (rd_inside x (Z.of_nat i)) as [k Hk]; [unfold size; lia|].
    destruct (rd_inside y (Z.of_nat i)) as [v Hv]; [unfold size; lia|].
    rewrite Hk, Hv. simpl. apply IH; lia.
Qed.

Lemma fill_skips_returns (bits : Z) (z : units) (n fuel : nat) :
  forall i data,
    (i + fuel <= List.length z)%nat ->
    exists t, Translation.fill_skips bits z n fuel i data = Ok t.
Proof.
  induction fuel as [|fuel IH]; intros i data Hz; simpl.
  - exists data. reflexivity.
  - destruct (rd_inside z (Z.of_nat i)) as [k Hk]; [unfold size; lia|].
    rewrite Hk. simpl. apply IH; lia.
Qed.

(** The constructor never grows the size of the table, so every lookup in a
    table it built falls through to [return in]. *)
Lemma maketrans_call_identity (from to skip : units)
  (t : Translation.vector) (c : Z) :
  maketrans from to skip = Ok t -> Translation.call t c = c.
Proof.
  unfold maketrans, Translation.make. intros H. inv_bind H.
  apply fill_skips_vsize in H. apply fill_pairs_vsize in Ha.
  unfold Translation.call, Translation.elements.
  rewrite H, Ha. reflexivity.
Qed.

(** C3.  For sequences [from] and [to] of equal length and any delete set,
    [maketrans] returns a table, and the table maps every codepoint to
    itself: it returns neither [to[i]] for [from[i]] nor the delete sentinel
    for a member of [skip]. *)
Theorem maketrans_table_maps_nothing (from to skip : units) (c : Z) :
  List.length from = List.length to ->
  exists t, maketrans from to skip = Ok t /\ Translation.call t c = c.
Proof.
  intros Hlen. unfold maketrans, Translation.make.
  destruct (fill_pairs_returns 8 from to (List.length from) 0
              (Translation.reserve Translation.empty
                 (List.length from + List.length skip)))
    as [t1 H1]; [lia|lia|].
  destruct (fill_skips_returns 8 skip (List.length from) (List.length skip) 0 t1)
    as [t H2]; [lia|].
  exists t. split.
  - rewrite H1. simpl. exact H2.
  - apply (maketrans_call_identity from to skip).
    unfold maketrans, Translation.make. rewrite H1. simpl. exact H2.
Qed.

(** The table of "ab" to "xy" with the delete set "c" maps a to a and c
    to c. *)
Lemma maketrans_table_maps_nothing_witness :
  List.length (lit "ab") = List.length (lit "xy")
  /\ (exists t, maketrans (lit "ab") (lit "xy") (lit "c") = Ok t
                /\ Translation.call t (c_ "a") = c_ "a")
  /\ (exists t, maketrans (lit "ab") (lit "xy") (lit "c") = Ok t
                /\ Translation.call t (c_ "c") = c_ "c").
Proof.
  split; [reflexivity|]. split.
  - exact (maketrans_table_maps_nothing (lit "ab") (lit "xy") (lit "c")
             (c_ "a") eq_refl).
  - exact (maketrans_table_maps_nothing (lit "ab") (lit "xy") (lit "c")
             (c_ "c") eq_refl).
Defined.

(* ------------------------------------------------------------------ *)
(** ** Decoding *)

Lemma surrogate_mask (u : Z) :
  0xD800 <= u <= 0xDFFF -> Z.land u 0xF800 = 0xD800.
Proof.
  intros H. apply Z.eqb_eq.
  apply (forallb_range (fun u => Z.land u 0xF800 =? 0xD800) 0xD800 2048);
    [vm_compute; reflexivity|lia].
Qed.

Lemma low_surrogate_is_not_first (u : Z) :
  0xDC00 <= u <= 0xDFFF -> UTF16Iterator.is_surrogate_first u = false.
Proof.
  intros H. apply negb_true_iff.
  apply (forallb_range (fun u => negb (UTF16Iterator.is_surrogate_first u))
           0xDC00 1024); [vm_compute; reflexivity|lia].
Qed.

Lemma land_1_odd (u : Z) : Z.land u 1 = if Z.odd u then 1 else 0.
Proof.
  change 1 with (Z.ones 1) at 1. rewrite Z.land_ones by lia.
  change (2 ^ 1) with 2. rewrite Zmod_odd. reflexivity.
Qed.

(** The UTF-32 iterator accepts exactly the odd units below 0x110000. *)
Lemma UTF32_deref_odd (s : units) (ptr u : Z) :
  rd s ptr = Ok u -> 0 <= u < 0x110000 -> Z.odd u = true ->
  UTF32Iterator.deref s ptr = Ok u.
Proof.
  intros Hrd Hu Hodd. unfold UTF32Iterator.deref. rewrite Hrd. simpl bind.
  change (if 0xF800 =? 0xD8 then 0 else 1) with 1.
  rewrite land_1_odd, Hodd. change (negb (1 =? 0)) with true.
  replace (u <? 0x110000) with true by (symmetry; apply Z.ltb_lt; lia).
  simpl. rewrite int32_t_small by lia. reflexivity.
Qed.

Lemma UTF32_deref_even (s : units) (ptr u : Z) :
  rd s ptr = Ok u -> Z.odd u = false -> UTF32Iterator.deref s ptr = Ok (-1).
Proof.
  intros Hrd Hodd. unfold UTF32Iterator.deref. rewrite Hrd. simpl bind.
  change (if 0xF800 =? 0xD8 then 0 else 1) with 1.
  rewrite land_1_odd, Hodd. reflexivity.
Qed.

(** The UTF-16 iterator returns a low surrogate half as it stands. *)
Lemma UTF16_deref_low_surrogate (s : units) (ptr u : Z) :
  rd s ptr = Ok u -> 0xDC00 <= u <= 0xDFFF ->
  UTF16Iterator.deref s ptr = Ok u.
Proof.
  intros Hrd Hu. unfold UTF16Iterator.deref. rewrite Hrd. simpl bind.
  rewrite low_surrogate_is_not_first by exact Hu. reflexivity.
Qed.

(** C4.  At a position that holds a surrogate half [u], the UTF-32 iterator
    returns [u] itself whenever [u] is odd, and the UTF-16 iterator returns
    [u] itself whenever [u] is a low half: non-negative codepoints, not error
    values. *)
Theorem surrogate_halves_are_decoded (s : units) (ptr u : Z) :
  rd s ptr = Ok u -> 0xD800 <= u <= 0xDFFF ->
  (Z.odd u = true ->
   encoding_traits.deref UTF32 s ptr = Ok u /\ 0 <= u)
  /\ (0xDC00 <= u ->
      encoding_traits.deref UTF16 s ptr = Ok u /\ 0 <= u).
Proof.
  intros Hrd Hu. split.
  - intros Hodd. split; [|lia].
    apply (UTF32_deref_odd s ptr u Hrd); [lia|exact Hodd].
  - intros Hlow. split; [|lia].
    apply (UTF16_deref_low_surrogate s ptr u Hrd). lia.
Qed.

(** The halves U+D801 and U+DC01. *)
Lemma surrogate_halves_are_decoded_witness :
  encoding_traits.deref UTF32 [0xD801] 0 = Ok 0xD801
  /\ encoding_traits.deref UTF32 [0xDC01] 0 = Ok 0xDC01
  /\ encoding_traits.deref UTF16 [0xDC01] 0 = Ok 0xDC01.
Proof.
  split; [|split].
  - apply (proj1 (surrogate_halves_are_decoded [0xD801] 0 0xD801 eq_refl
                    ltac:(lia)) eq_refl).
  - apply (proj1 (surrogate_halves_are_decoded [0xDC01] 0 0xDC01 eq_refl
                    ltac:(lia)) eq_refl).
  - apply (proj2 (surrogate_halves_are_decoded [0xDC01] 0 0xDC01 eq_refl
                    ltac:(lia))).
    lia.
Defined.

(* ------------------------------------------------------------------ *)
(** ** Transcoding *)

Lemma append_extends (E : Encoding) (w : Z) (s : units) (cp : Z) :
  exists x, fst (encoding_traits.append E w s cp) = s ++ x.
Proof.
  destruct E; simpl;
    unfold UTF8Encoder.append, UTF16Encoder.append, UTF32Encoder.append,
      push_back;
    repeat match goal with
      | |- context [if ?b then _ else _] => destruct b
      end;
    simpl; repeat rewrite <- app_assoc;
    solve [eexists; reflexivity | exists []; rewrite app_nil_r; reflexivity].
Qed.

Lemma append_pair_extends (E : Encoding) (w : Z) (s str : units) (cp : Z)
  (ok : bool) :
  encoding_traits.append E w s cp = (str, ok) -> exists x, str = s ++ x.
Proof.
  intros H. destruct (append_extends E w s cp) as [x Hx].
  rewrite H in Hx. exists x. exact Hx.
Qed.

Lemma transcode_loop_extends (From To : Encoding) (mode : Errors)
  (done : Z) (fuel : nat) :
  forall input it out,
    transcode_loop From To mode fuel input it done = Ok out ->
    exists x, out = input ++ x.
Proof.
  induction fuel as [|fuel IH]; intros input it out H; simpl in H.
  - destruct (encoding_traits.ne From it done); [discriminate|].
    injection H as <-. exists []. rewrite app_nil_r. reflexivity.
  - destruct (encoding_traits.ne From it done);
      [|injection H as <-; exists []; rewrite app_nil_r; reflexivity].
    inv_bind H. inv_bind H. inv_bind H.
    destruct (a1 =? it); [discriminate|].
    apply IH in H. destruct H as [x ->].
    assert (Hin : exists y, a0 = input ++ y).
    { destruct mode.
      - destruct (a <? 0); [discriminate|].
        destruct (encoding_traits.append To (char_bits From) input
                    (uint32_t a)) as [str ok] eqn:Happ.
        destruct ok; [|discriminate]. injection Ha0 as <-.
        apply (append_pair_extends _ _ _ _ _ _ Happ).
      - destruct (0 <? a); injection Ha0 as <-;
          [apply append_extends|exists []; rewrite app_nil_r; reflexivity].
      - destruct (if a <? 0 then (input, false)
                  else encoding_traits.append To (char_bits From) input
                         (uint32_t a)) as [str ok] eqn:Happ.
        assert (Hstr : exists y, str = input ++ y).
        { destruct (a <? 0).
          - injection Happ as <- _. exists []. rewrite app_nil_r.
            reflexivity.
          - apply (append_pair_extends _ _ _ _ _ _ Happ). }
        destruct Hstr as [y ->].
        destruct ok; injection Ha0 as <-; [exists y; reflexivity|].
        destruct (append_extends To (char_bits From) (input ++ y)
                    (uint32_t (encoding_traits.replacement To))) as [z ->].
        rewrite <- app_assoc. eexists. reflexivity. }
    destruct Hin as [y ->]. rewrite <- app_assoc. eexists. reflexivity.
Qed.

(** C1.  For distinct encodings, whenever [transcode] returns, the output
    buffer is exactly what it was on entry, and the input sequence has only
    grown at its end: the converted units went there. *)
Theorem transcode_writes_to_input (From To : Encoding) (input output : units)
  (mode : Errors) (r : units * units) :
  From <> To -> transcode From To input output mode = Ok r ->
  snd r = output /\ exists x, fst r = input ++ x.
Proof.
  intros Hne H. unfold transcode in H.
  destruct (Encoding_eq_dec From To) as [e|_]; [contradiction|].
  inv_bind H. injection H as <-. simpl. split; [reflexivity|].
  apply (transcode_loop_extends _ _ _ _ _ _ _ _ Ha).
Qed.

(** "A" from UTF-8 to UTF-16 under Replace: the output stays empty and the
    input becomes "AA". *)
Lemma transcode_writes_to_input_witness :
  UTF8 <> UTF16
  /\ transcode UTF8 UTF16 (lit "A") [] Replace = Ok (lit "AA", [])
  /\ snd (lit "AA", @nil Z) = []
  /\ exists x, fst (lit "AA", @nil Z) = lit "A" ++ x.
Proof.
  assert (Hne : UTF8 <> UTF16) by discriminate.
  split; [exact Hne|]. split; [reflexivity|].
  exact (transcode_writes_to_input UTF8 UTF16 (lit "A") [] Replace
           (lit "AA", []) Hne eq_refl).
Defined.

(** Under Ignore the loop keeps a codepoint only if it is greater than
    zero: the null character between A and B is decoded without error and
    dropped. *)
Lemma transcode_ignore_drops_null :
  encoding_traits.deref UTF8 [0x41; 0; 0x42] 1 = Ok 0
  /\ transcode UTF8 UTF16 [0x41; 0; 0x42] [] Ignore
     = Ok ([0x41; 0; 0x42] ++ [0x41; 0x42], []).
Proof. split; vm_compute; reflexivity. Qed.

(* ------------------------------------------------------------------ *)
(** ** Splitting and joining *)

Lemma compare_eq_Ok (s sub : units) (ptr : Z) (b : bool) :
  compare_eq s ptr sub = Ok b ->
  0 <= ptr /\ ptr + size sub <= size s
  /\ (b = true -> slice s ptr (ptr + size sub) = sub).
Proof.
  unfold compare_eq. intros H.
  destruct (ptr <? 0) eqn:H1; [discriminate|].
  destruct (size s <? ptr + size sub) eqn:H2; [discriminate|].
  apply Z.ltb_ge in H1. apply Z.ltb_ge in H2. simpl in H.
  repeat split; try assumption.
  intros ->.
  destruct (list_eq_dec Z.eq_dec (slice s ptr (ptr + size sub)) sub);
    [assumption|discriminate].
Qed.

(** The UTF-8 cursor on a two-byte lead that no tail follows. *)
Lemma UTF8_incr_stuck (s : units) (ptr ch b1 : Z) :
  rd s ptr = Ok ch -> 0xC0 < ch < 0xE0 ->
  rd s (ptr + 1) = Ok b1 -> UTF8Iterator.tail b1 = false ->
  UTF8Iterator.incr s ptr = Ok ptr.
Proof.
  intros H0 Hch H1 Ht. unfold UTF8Iterator.incr. rewrite H0. simpl bind.
  unfold UTF8Iterator.head, UTF8Iterator.head2.
  replace (0xC0 <? ch) with true by (symmetry; apply Z.ltb_lt; lia).
  replace (ch <? 0xE0) with true by (symmetry; apply Z.ltb_lt; lia).
  simpl negb. cbv iota. rewrite H1. simpl bind. rewrite Ht. reflexivity.
Qed.

(** C5.  When the string starts with a UTF-8 two-byte lead that no tail
    follows and the separator does not match there, the cursor of [split]
    never leaves offset 0: the call does not return, so there is no list to
    join. *)
Theorem split_does_not_return (self sep : units) (maxsplit ch b1 : Z) :
  rd self 0 = Ok ch -> 0xC0 < ch < 0xE0 ->
  rd self 1 = Ok b1 -> UTF8Iterator.tail b1 = false ->
  compare_eq self 0 sep = Ok false -> size sep <> 0 -> maxsplit <> 0 ->
  split UTF8 self sep maxsplit = Diverge.
Proof.
  intros H0 Hch H1 Ht Hcmp Hsep Hmax. unfold split.
  replace (size sep =? 0) with false by (symmetry; apply Z.eqb_neq; exact Hsep).
  apply compare_eq_Ok in Hcmp as Hr. destruct Hr as [_ [Hr _]].
  replace (size self <? size sep) with false
    by (symmetry; apply Z.ltb_ge; lia).
  cbn [split_loop].
  replace (maxsplit =? 0) with false by (symmetry; apply Z.eqb_neq; exact Hmax).
  unfold encoding_traits.ne, UTF8Iterator.ne.
  replace (0 <? size self - size sep + 1) with true
    by (symmetry; apply Z.ltb_lt; lia).
  cbn [negb andb]. rewrite Hcmp. cbn [bind].
  unfold encoding_traits.incr.
  rewrite (UTF8_incr_stuck self 0 ch b1 H0 Hch H1 Ht). reflexivity.
Qed.

(** The bytes C3 61 split at "b". *)
Lemma split_does_not_return_witness :
  rd [0xC3; 0x61] 0 = Ok 0xC3 /\ 0xC0 < 0xC3 < 0xE0
  /\ rd [0xC3; 0x61] 1 = Ok 0x61 /\ UTF8Iterator.tail 0x61 = false
  /\ compare_eq [0xC3; 0x61] 0 (lit "b") = Ok false
  /\ split UTF8 [0xC3; 0x61] (lit "b") npos = Diverge.
Proof.
  assert (Hch : 0xC0 < 0xC3 < 0xE0) by lia.
  repeat (split; [first [reflexivity | exact Hch]|]).
  apply (split_does_not_return [0xC3; 0x61] (lit "b") npos 0xC3 0x61
           eq_refl Hch eq_refl eq_refl eq_refl);
    unfold npos; discriminate.
Defined.

(** With cursors that are plain pointers, or the UTF-32 cursor, a match
    that ends at the end of the string steps over the bound of the loop, and
    the next comparison leaves the view. *)
Lemma split_steps_over_the_bound :
  split UTF32 (lit "ab") (lit "ab") npos = Undefined
  /\ split Char8 (lit "ab") (lit "ab") npos = Undefined
  /\ split UTF8 (lit "ab") (lit "ab") npos = Ok [[]; []].
Proof. repeat split; vm_compute; reflexivity. Qed.

(** *** The round trip, when [split] returns *)

Section RoundTrip.

Variable sep : units.

Lemma join_fold (l : list units) :
  forall data,
    snd (fold_left
           (fun (st : bool * units) (item : units) =>
              let (first, data) := st in
              (false, (if first then data else data ++ sep) ++ item))
           l (false, data))
    = data ++ List.concat (map (fun p => sep ++ p) l).
Proof.
  induction l as [|x l IH]; intros data; simpl.
  - rewrite app_nil_r. reflexivity.
  - rewrite IH. repeat rewrite <- app_assoc. reflexivity.
Qed.

Lemma join_cons (x : units) (l : list units) :
  join sep (x :: l) = x ++ List.concat (map (fun p => sep ++ p) l).
Proof. unfold join. simpl. apply join_fold. Qed.

Lemma separated_snoc (items : list units) (last : units) :
  List.concat (map (fun p => sep ++ p) (items ++ [last]))
  = sep ++ terminated sep items ++ last.
Proof.
  unfold terminated. induction items as [|a items IH]; simpl.
  - rewrite app_nil_r. reflexivity.
  - rewrite IH. repeat rewrite <- app_assoc. reflexivity.
Qed.

Lemma join_snoc (items : list units) (last : units) :
  join sep (items ++ [last]) = terminated sep items ++ last.
Proof.
  destruct items as [|a items].
  - simpl. rewrite join_cons. simpl. apply app_nil_r.
  - simpl app. rewrite join_cons, separated_snoc. unfold terminated. simpl.
    repeat rewrite <- app_assoc. reflexivity.
Qed.

Lemma terminated_snoc (items : list units) (last : units) :
  terminated sep (items ++ [last]) = terminated sep items ++ last ++ sep.
Proof.
  unfold terminated. rewrite map_app, concat_app. simpl.
  rewrite app_nil_r. reflexivity.
Qed.

End RoundTrip.

Lemma firstn_plus {A : Type} (n m : nat) :
  forall l : list A, firstn (n + m) l = firstn n l ++ firstn m (skipn n l).
Proof.
  induction n as [|n IH]; intros l; [reflexivity|].
  destruct l as [|x l]; simpl.
  - rewrite firstn_nil. reflexivity.
  - rewrite IH. reflexivity.
Qed.

Lemma slice_app (s : units) (a b c : Z) :
  0 <= a <= b -> b <= c -> slice s a b ++ slice s b c = slice s a c.
Proof.
  intros Hab Hbc. unfold slice.
  replace (Z.to_nat (c - a)) with (Z.to_nat (b - a) + Z.to_nat (c - b))%nat
    by lia.
  rewrite firstn_plus, skipn_skipn.
  replace (Z.to_nat (b - a) + Z.to_nat a)%nat with (Z.to_nat b) by lia.
  reflexivity.
Qed.

Lemma slice_to_end (s : units) (p : Z) :
  0 <= p -> slice s 0 p ++ slice s p (size s) = s.
Proof.
  intros Hp. unfold slice. simpl skipn. rewrite Z.sub_0_r.
  rewrite (firstn_all2 (n := Z.to_nat (size s - p))).
  - apply firstn_skipn.
  - rewrite length_skipn. unfold size. lia.
Qed.

Lemma incr_moves_forward (E : Encoding) (s : units) (p next : Z) :
  encoding_traits.incr E s p = Ok next -> p <= next.
Proof.
  intros H. destruct E; cbv [encoding_traits.incr UTF32Iterator.incr] in H;
    try (injection H as <-; lia).
  - unfold UTF8Iterator.incr in H. cbv [bind] in H.
    repeat match type of H with
      | match rd ?s ?i with _ => _ end = _ =>
          destruct (rd s i); try discriminate
      | (if ?b then _ else _) = _ => destruct b
      end; injection H as <-; lia.
  - unfold UTF16Iterator.incr in H. cbv [bind] in H.
    repeat match type of H with
      | match rd ?s ?i with _ => _ end = _ =>
          destruct (rd s i); try discriminate
      | (if ?b then _ else _) = _ => destruct b
      end; injection H as <-; lia.
Qed.

Lemma split_loop_join (E : Encoding) (self sep : units) (done : Z)
  (fuel : nat) :
  forall maxsplit prev it result parts,
    0 <= prev <= it ->
    terminated sep result = slice self 0 prev ->
    split_loop E self sep fuel maxsplit prev it done result = Ok parts ->
    join sep parts = self.
Proof.
  assert (Hexit : forall prev result,
             0 <= prev -> terminated sep result = slice self 0 prev ->
             join sep (result ++ [slice self prev (size self)]) = self).
  { intros prev result Hp Hinv.
    rewrite join_snoc, Hinv. apply slice_to_end. exact Hp. }
  induction fuel as [|fuel IH];
    intros maxsplit prev it result parts Hp Hinv H; simpl in H.
  - destruct (negb (maxsplit =? 0) && encoding_traits.ne E it done);
      [discriminate|].
    injection H as <-. apply Hexit; [lia|exact Hinv].
  - destruct (negb (maxsplit =? 0) && encoding_traits.ne E it done);
      [|injection H as <-; apply Hexit; [lia|exact Hinv]].
    inv_bind H. apply compare_eq_Ok in Ha. destruct Ha as [Hit [Hend Hm]].
    destruct a.
    + apply IH in H; [exact H| |].
      * pose proof (size_nonneg sep). lia.
      * rewrite terminated_snoc, Hinv.
        pose proof (size_nonneg sep).
        rewrite <- (slice_app self 0 it (it + size sep)) by lia.
        rewrite <- (slice_app self 0 prev it) by lia.
        rewrite (Hm eq_refl), <- app_assoc. reflexivity.
    + inv_bind H. destruct (a =? it); [discriminate|].
      apply incr_moves_forward in Ha.
      apply IH in H; [exact H|lia|exact Hinv].
Qed.

(** X2.  Whenever the separator [split] returns, for any bound on the number of
    splits, joining its parts with the separator gives the string back. *)
Lemma split_join_round_trip (E : Encoding) (self sep : units)
  (maxsplit : Z) (parts : list units) :
  split E self sep maxsplit = Ok parts -> join sep parts = self.
Proof.
  unfold split. intros H. destruct (size sep =? 0); [discriminate|].
  eapply (split_loop_join E self sep); [| |exact H]; [lia|reflexivity].
Qed.

Lemma split_join_round_trip_witness :
  split UTF8 (lit "a,b,,c") (lit ",") 2 = Ok [lit "a"; lit "b"; lit ",c"]
  /\ join (lit ",") [lit "a"; lit "b"; lit ",c"] = lit "a,b,,c".
Proof.
  split; [reflexivity|].
  apply (split_join_round_trip UTF8 (lit "a,b,,c") (lit ",") 2).
  reflexivity.
Defined.

(** *** The whitespace [rsplit] *)

Lemma is_space_cases (c : Z) :
  is_space c = true -> c = 32 \/ c = 9 \/ c = 10 \/ c = 11 \/ c = 12 \/ c = 13.
Proof.
  unfold is_space. intros H. apply orb_true_iff in H. destruct H as [H|H].
  - apply Z.eqb_eq in H. left. exact H.
  - apply andb_true_iff in H. destruct H as [H1 H2].
    apply Z.leb_le in H1. apply Z.leb_le in H2. lia.
Qed.

(** The inner scan ends outside the view or on a unit that is not
    whitespace. *)
Lemma rsplit_skip_outcome (self : units) (fuel : nat) :
  forall ptr, ptr < Z.of_nat fuel ->
    rsplit_skip self fuel ptr = Undefined
    \/ exists r c, rsplit_skip self fuel ptr = Ok r /\ 0 <= r <= ptr
                   /\ rd self r = Ok c /\ is_space c = false.
Proof.
  induction fuel as [|fuel IH]; intros ptr Hf; simpl;
    (destruct (rd_cases self ptr) as [Hrd|[c Hrd]]; rewrite Hrd; simpl;
     [left; reflexivity|]); apply rd_range in Hrd as Hr; [lia|].
  destruct (is_space c) eqn:Hc.
  - destruct (IH (ptr - 1)) as [H|[r [c' [H [Hb H']]]]]; [lia|auto|].
    right. exists r, c'. repeat split; try tauto; lia.
  - right. exists ptr, c. repeat split; try assumption; lia.
Qed.

(** Stepping a cursor back from offset 2 or more lands on offset 1 or more
    when the first unit is whitespace: a blank is no UTF-8 lead byte and no
    high surrogate. *)
Lemma decr_stays_inside (E : Encoding) (self : units) (c0 it it' : Z) :
  rd self 0 = Ok c0 -> is_space c0 = true -> 2 <= it ->
  encoding_traits.decr E self it = Ok it' -> 1 <= it' <= it - 1.
Proof.
  intros H0 Hs Hit H.
  assert (Hat : forall d b, rd self (it - d) = Ok b -> it = d -> b = c0).
  { intros d b Hb ->. replace (d - d) with 0 in Hb by lia.
    rewrite Hb in H0. injection H0 as ->. reflexivity. }
  apply is_space_cases in Hs.
  destruct E; simpl in H;
    try (injection H as <-; unfold UTF32Iterator.decr; lia).
  - unfold UTF8Iterator.decr in H.
    inv_bind H. destruct (UTF8Iterator.tail a); [|injection H as <-; lia].
    inv_bind H.
    destruct (UTF8Iterator.head2 a0 && UTF8Iterator.head a0) eqn:Hh.
    { injection H as <-.
      destruct (Z.eq_dec it 2) as [e|]; [|lia].
      rewrite (Hat 2 a0 Ha0 e) in Hh.
      destruct Hs as [->|[->|[->|[->|[->| ->]]]]]; discriminate. }
    destruct (UTF8Iterator.tail a0); [|injection H as <-; lia].
    inv_bind H. apply rd_range in Ha1 as Hr.
    destruct (UTF8Iterator.head3 a1 && negb (UTF8Iterator.head2 a1)) eqn:Hh3.
    { injection H as <-.
      destruct (Z.eq_dec it 3) as [e|]; [|lia].
      rewrite (Hat 3 a1 Ha1 e) in Hh3.
      destruct Hs as [->|[->|[->|[->|[->| ->]]]]]; discriminate. }
    destruct (UTF8Iterator.tail a1) eqn:Ht; [|injection H as <-; lia].
    destruct (UTF8Iterator.head4 a1 && negb (UTF8Iterator.head3 a1)) eqn:Hh4;
      [|injection H as <-; lia].
    exfalso. apply andb_true_iff in Hh4. destruct Hh4 as [H4 H3].
    apply negb_true_iff in H3.
    unfold UTF8Iterator.head4 in H4. unfold UTF8Iterator.head3 in H3.
    apply Z.ltb_lt in H4. apply Z.ltb_ge in H3.
    assert (Hc : a1 = 240 \/ a1 = 241 \/ a1 = 242 \/ a1 = 243 \/ a1 = 244
                 \/ a1 = 245 \/ a1 = 246 \/ a1 = 247) by lia.
    destruct Hc as [->|[->|[->|[->|[->|[->|[->| ->]]]]]]]; discriminate.
  - unfold UTF16Iterator.decr in H.
    inv_bind H.
    destruct (UTF16Iterator.is_surrogate_last a); [|injection H as <-; lia].
    inv_bind H.
    destruct (UTF16Iterator.is_surrogate_first a0) eqn:Hf;
      injection H as <-; [|lia].
    replace (it - 1 - 1) with (it - 2) in Ha0 by lia.
    destruct (Z.eq_dec it 2) as [e|]; [|lia].
    rewrite (Hat 2 a0 Ha0 e) in Hf.
    destruct Hs as [->|[->|[->|[->|[->| ->]]]]]; discriminate.
Qed.

Lemma ne_zero_below (E : Encoding) (it : Z) :
  1 <= it -> encoding_traits.ne E 0 it = true.
Proof.
  intros H.
  destruct E; cbv [encoding_traits.ne UTF8Iterator.ne UTF16Iterator.ne];
    try (apply Z.ltb_lt; lia); apply negb_true_iff, Z.eqb_neq; lia.
Qed.

Lemma decr_cases (E : Encoding) (self : units) (it : Z) :
  encoding_traits.decr E self it = Undefined
  \/ exists it', encoding_traits.decr E self it = Ok it'.
Proof.
  destruct E; cbv [encoding_traits.decr];
    try (right; eexists; reflexivity).
  - unfold UTF8Iterator.decr. cbv [bind].
    repeat first
      [ match goal with
        | |- context [rd ?s ?i] =>
            destruct (rd_cases s i) as [Hx|[? Hx]]; rewrite Hx;
            [left; reflexivity|]; clear Hx
        end
      | match goal with
        | |- context [if ?b then _ else _] => destruct b
        end ];
      right; eexists; reflexivity.
  - unfold UTF16Iterator.decr. cbv [bind].
    repeat first
      [ match goal with
        | |- context [rd ?s ?i] =>
            destruct (rd_cases s i) as [Hx|[? Hx]]; rewrite Hx;
            [left; reflexivity|]; clear Hx
        end
      | match goal with
        | |- context [if ?b then _ else _] => destruct b
        end ];
      right; eexists; reflexivity.
Qed.

Lemma rsplit_loop_S (E : Encoding) (self : units) (fuel : nat)
  (maxsplit prev it : Z) (result : list units) :
  rsplit_loop E self (S fuel) maxsplit prev it result
  = if negb (maxsplit =? 0) && encoding_traits.ne E 0 it then
      c <- rd self (it - 1) ;;
      if is_space c then
        ptr <- rsplit_skip self (S (List.length self)) (it - 1) ;;
        rsplit_loop E self fuel (size_t (maxsplit - 1)) (ptr + 1) ptr
          (result ++ [slice self (it - 1 + 1) prev])
      else
        it' <- encoding_traits.decr E self it ;;
        rsplit_loop E self fuel maxsplit prev it' result
    else Ok (rev (result ++ [slice self 0 prev])).
Proof. reflexivity. Qed.

Lemma rsplit_loop_leading_space (E : Encoding) (self : units) (c0 : Z) :
  rd self 0 = Ok c0 -> is_space c0 = true ->
  forall fuel maxsplit prev it result,
    1 <= it <= size self -> it <= Z.of_nat fuel -> it <= maxsplit <= npos ->
    rsplit_loop E self fuel maxsplit prev it result = Undefined.
Proof.
  intros H0 Hs. induction fuel as [|fuel IH];
    intros maxsplit prev it result Hit Hfuel Hmax; [simpl in Hfuel; lia|].
  rewrite rsplit_loop_S.
  replace (maxsplit =? 0) with false by (symmetry; apply Z.eqb_neq; lia).
  rewrite ne_zero_below by lia. cbn [negb andb].
  destruct (rd_cases self (it - 1)) as [Hrd|[c Hrd]]; rewrite Hrd;
    cbn [bind]; [reflexivity|].
  destruct (is_space c) eqn:Hc.
  - destruct (rsplit_skip_outcome self (S (List.length self)) (it - 1))
      as [Hk|[r [c' [Hk [Hr [Hrd' Hc']]]]]].
    + unfold size in Hit. lia.
    + rewrite Hk. reflexivity.
    + rewrite Hk. cbn [bind].
      assert (r <> 0).
      { intros ->. rewrite Hrd' in H0. injection H0 as ->. congruence. }
      apply IH; try lia.
      unfold size_t, npos in *. rewrite Z.mod_small; lia.
  - assert (it <> 1).
    { intros ->. simpl in Hrd. rewrite Hrd in H0. injection H0 as ->.
      congruence. }
    destruct (decr_cases E self it) as [Hd|[it' Hd]]; rewrite Hd; cbn [bind];
      [reflexivity|].
    apply (decr_stays_inside E self c0 it it' H0 Hs) in Hd; [|lia].
    apply IH; lia.
Qed.

(** C10.  For every view that begins with a whitespace unit, and every
    bound on the number of splits that is at least the size of the view (the
    default, no limit, among them), the whitespace [rsplit] ends in a read
    outside the view: the backward scan over the leading run steps below the
    start. *)
Theorem rsplit_reads_before_the_view (E : Encoding) (self : units)
  (c0 maxsplit : Z) :
  rd self 0 = Ok c0 -> is_space c0 = true ->
  size self <= maxsplit <= npos ->
  rsplit E self maxsplit = Undefined.
Proof.
  intros H0 Hs Hmax. unfold rsplit.
  apply rd_range in H0 as Hr.
  apply (rsplit_loop_leading_space E self c0 H0 Hs); try lia.
  unfold size. lia.
Qed.

(** A blank and the letter a, with no limit and with the limit 2. *)
Lemma rsplit_reads_before_the_view_witness :
  rd (lit " a") 0 = Ok (c_ " ") /\ is_space (c_ " ") = true
  /\ size (lit " a") <= npos <= npos
  /\ rsplit UTF8 (lit " a") npos = Undefined
  /\ rsplit Char8 (lit " a") 2 = Undefined.
Proof.
  assert (H1 : size (lit " a") <= npos <= npos) by (vm_compute; split; congruence).
  assert (H2 : size (lit " a") <= 2 <= npos) by (vm_compute; split; congruence).
  split; [reflexivity|]. split; [reflexivity|]. split; [exact H1|]. split.
  - exact (rsplit_reads_before_the_view UTF8 (lit " a") (c_ " ") npos
             eq_refl eq_refl H1).
  - exact (rsplit_reads_before_the_view Char8 (lit " a") (c_ " ") 2
             eq_refl eq_refl H2).
Defined.

(** When a unit that is not whitespace lies at or before [ptr], the inner
    scan stops inside the view. *)
Lemma rsplit_skip_returns (self : units) (j cj : Z) :
  rd self j = Ok cj -> is_space cj = false ->
  forall fuel ptr,
    j <= ptr < size self -> ptr - j < Z.of_nat fuel ->
    exists r, rsplit_skip self fuel ptr = Ok r /\ j <= r <= ptr.
Proof.
  intros Hj Hcj. induction fuel as [|fuel IH]; intros ptr Hp Hf; [lia|].
  simpl. destruct (rd_inside self ptr) as [c Hc]; [apply rd_range in Hj; lia|].
  rewrite Hc. simpl. destruct (is_space c) eqn:Hs.
  - assert (ptr <> j).
    { intros ->. rewrite Hc in Hj. injection Hj as ->. congruence. }
    destruct (IH (ptr - 1)) as [r [Hr Hb]]; [lia|lia|].
    exists r. split; [exact Hr|lia].
  - exists ptr. split; [reflexivity|lia].
Qed.

Lemma decr_single_unit (E : Encoding) (self : units) (it : Z) :
  encoding_traits.multichar E = false ->
  encoding_traits.decr E self it = Ok (it - 1).
Proof. destruct E; simpl; intros H; try discriminate; reflexivity. Qed.

Lemma ne_single_unit (E : Encoding) (l r : Z) :
  encoding_traits.multichar E = false ->
  encoding_traits.ne E l r = negb (l =? r).
Proof. destruct E; simpl; intros H; try discriminate; reflexivity. Qed.

Lemma rsplit_loop_inside (E : Encoding) (self : units) (c0 : Z) :
  encoding_traits.multichar E = false ->
  rd self 0 = Ok c0 -> is_space c0 = false ->
  forall fuel maxsplit prev it result,
    0 <= it <= size self -> it <= Z.of_nat fuel ->
    exists parts, rsplit_loop E self fuel maxsplit prev it result = Ok parts.
Proof.
  intros HE H0 Hs. induction fuel as [|fuel IH];
    intros maxsplit prev it result Hit Hfuel.
  - assert (it = 0) by lia. subst it. simpl.
    rewrite (ne_single_unit E 0 0 HE). simpl. rewrite andb_false_r.
    eexists. reflexivity.
  - rewrite rsplit_loop_S. rewrite (ne_single_unit E 0 it HE).
    destruct (negb (maxsplit =? 0) && negb (0 =? it)) eqn:Hcond;
      [|eexists; reflexivity].
    apply andb_true_iff in Hcond. destruct Hcond as [_ Hne].
    apply negb_true_iff, Z.eqb_neq in Hne.
    destruct (rd_inside self (it - 1)) as [c Hc]; [lia|].
    rewrite Hc. cbn [bind]. destruct (is_space c) eqn:Hsp.
    + destruct (rsplit_skip_returns self 0 c0 H0 Hs
                  (S (List.length self)) (it - 1)) as [r [Hr Hb]];
        [lia|unfold size in Hit; lia|].
      rewrite Hr. cbn [bind]. apply IH; lia.
    + rewrite (decr_single_unit E self it HE). cbn [bind]. apply IH; lia.
Qed.

(** X3.  For the encodings whose cursor is one unit wide, the whitespace
    [rsplit] of a view that is empty or does not begin with whitespace reads
    inside the view only, and returns. *)
Lemma rsplit_inside_without_leading_space (E : Encoding) (self : units)
  (maxsplit : Z) :
  encoding_traits.multichar E = false ->
  (self = [] \/ exists c0, rd self 0 = Ok c0 /\ is_space c0 = false) ->
  exists parts, rsplit E self maxsplit = Ok parts.
Proof.
  intros HE [->|[c0 [H0 Hs]]].
  - unfold rsplit. change (size []) with 0. rewrite rsplit_loop_S.
    rewrite (ne_single_unit E 0 0 HE). simpl. rewrite andb_false_r.
    eexists. reflexivity.
  - unfold rsplit. apply (rsplit_loop_inside E self c0 HE H0 Hs).
    + pose proof (size_nonneg self). lia.
    + unfold size. lia.
Qed.

Lemma rsplit_inside_without_leading_space_witness :
  encoding_traits.multichar Char8 = false
  /\ (lit "a b" = []
      \/ exists c0, rd (lit "a b") 0 = Ok c0 /\ is_space c0 = false)
  /\ exists parts, rsplit Char8 (lit "a b") 1 = Ok parts.
Proof.
  split; [reflexivity|].
  split; [right; exists 97; split; reflexivity|].
  apply (rsplit_inside_without_leading_space Char8 (lit "a b") 1).
  - reflexivity.
  - right. exists 97. split; reflexivity.
Defined.

(** Without leading whitespace the same scan stays inside the view. *)
Lemma rsplit_without_leading_space :
  rsplit UTF8 (lit "a  b ") npos = Ok [lit "a"; lit "b"; []].
Proof. vm_compute. reflexivity. Qed.

(* ------------------------------------------------------------------ *)
(** ** Justification *)

Lemma padding_zero (fillchar : units) : padding fillchar 0 = [].
Proof. reflexivity. Qed.

Section Justify.

Variable E : Encoding.
Variables s f : units.
Variable w : Z.

Lemma center_noop (n : Z) :
  length E f = Ok 1 -> length E s = Ok n -> w <= n -> center E s w f = Ok s.
Proof.
  intros Hf Hs Hw. unfold center. rewrite Hf. simpl. rewrite Hs. simpl.
  destruct (w <? n) eqn:Hlt; [reflexivity|].
  apply Z.ltb_ge in Hlt. replace (w - n) with 0 by lia.
  change (0 / 2) with 0. change (0 - 0) with 0.
  rewrite padding_zero. simpl. rewrite app_nil_r. reflexivity.
Qed.

Lemma ljust_noop (n : Z) :
  length E f = Ok 1 -> length E s = Ok n -> w <= n -> ljust E s w f = Ok s.
Proof.
  intros Hf Hs Hw. unfold ljust. rewrite Hf. simpl. rewrite Hs. simpl.
  destruct (w <? n) eqn:Hlt; [reflexivity|].
  apply Z.ltb_ge in Hlt. replace (w - n) with 0 by lia.
  rewrite padding_zero, app_nil_r. reflexivity.
Qed.

Lemma rjust_noop (n : Z) :
  length E f = Ok 1 -> length E s = Ok n -> w <= n -> rjust E s w f = Ok s.
Proof.
  intros Hf Hs Hw. unfold rjust. rewrite Hf. simpl. rewrite Hs. simpl.
  destruct (w <? n) eqn:Hlt; [reflexivity|].
  apply Z.ltb_ge in Hlt. replace (w - n) with 0 by lia.
  rewrite padding_zero. reflexivity.
Qed.

Lemma justify_fill_check (k : Z) :
  length E f = Ok k -> k <> 1 ->
  center E s w f = Throw (invalid_argument "center(): fillchar")
  /\ ljust E s w f = Throw (invalid_argument "ljust(): fillchar")
  /\ rjust E s w f = Throw (invalid_argument "rjust(): fillchar").
Proof.
  intros Hf Hk. unfold center, ljust, rjust. rewrite Hf. simpl.
  destruct (k =? 1) eqn:Hk1; [apply Z.eqb_eq in Hk1; contradiction|].
  simpl. repeat split; reflexivity.
Qed.

End Justify.

(** C8.  The three functions test the fill token with [length<E>() != 1]:
    they count the steps of the cursor over it and do not decode it.  For a
    fill token whose count is one and a width that does not exceed the count
    of the string, [center], [ljust] and [rjust] return the string
    unchanged; for a fill token whose count is another number each call
    throws its argument error, whatever the string and the width.  Nothing
    is said where the count itself does not return. *)
Theorem justify_noop_or_fill_error (E : Encoding) (s f : units) (w : Z) :
  (length E f = Ok 1 ->
   forall n, length E s = Ok n -> w <= n ->
     center E s w f = Ok s /\ ljust E s w f = Ok s /\ rjust E s w f = Ok s)
  /\ (forall k, length E f = Ok k -> k <> 1 ->
        center E s w f = Throw (invalid_argument "center(): fillchar")
        /\ ljust E s w f = Throw (invalid_argument "ljust(): fillchar")
        /\ rjust E s w f = Throw (invalid_argument "rjust(): fillchar")).
Proof.
  split.
  - intros Hf n Hs Hw. repeat split.
    + exact (center_noop E s f w n Hf Hs Hw).
    + exact (ljust_noop E s f w n Hf Hs Hw).
    + exact (rjust_noop E s f w n Hf Hs Hw).
  - intros k Hf Hk. exact (justify_fill_check E s f w k Hf Hk).
Qed.

(** Three U+1F600 padded to width 3 with U+270F stay as they are, and a fill
    of two pencils is refused. *)
Lemma justify_noop_or_fill_error_witness :
  (center UTF8 (grinning ++ grinning ++ grinning) 3 pencil
   = Ok (grinning ++ grinning ++ grinning)
   /\ ljust UTF8 (grinning ++ grinning ++ grinning) 3 pencil
      = Ok (grinning ++ grinning ++ grinning)
   /\ rjust UTF8 (grinning ++ grinning ++ grinning) 3 pencil
      = Ok (grinning ++ grinning ++ grinning))
  /\ (center UTF8 (lit "abc") 2 (pencil ++ pencil)
      = Throw (invalid_argument "center(): fillchar")
      /\ ljust UTF8 (lit "abc") 2 (pencil ++ pencil)
         = Throw (invalid_argument "ljust(): fillchar")
      /\ rjust UTF8 (lit "abc") 2 (pencil ++ pencil)
         = Throw (invalid_argument "rjust(): fillchar")).
Proof.
  split.
  - apply (proj1 (justify_noop_or_fill_error UTF8
                    (grinning ++ grinning ++ grinning) pencil 3)
             eq_refl 3 eq_refl).
    lia.
  - apply (proj2 (justify_noop_or_fill_error UTF8 (lit "abc")
                    (pencil ++ pencil) 2) 2 eq_refl).
    lia.
Defined.

(** On a UTF-8 lead byte without its tail the count of codepoints itself
    does not return, and then neither does [center]: such a string has no
    length in codepoints to compare the width with. *)
Lemma length_on_stuck_cursor :
  length UTF8 [0xC3; 0x61] = Diverge
  /\ center UTF8 [0xC3; 0x61] 0 (lit " ") = Diverge.
Proof. split; vm_compute; reflexivity. Qed.

(** A lone continuation byte of UTF-8 decodes to no codepoint (the iterator
    returns the error value -128 for it), yet it is one step of the cursor
    long: the three functions accept it as a fill and pad with it.  So a
    fill token that does not decode to exactly one codepoint does not always
    make the call fail. *)
Lemma justify_accepts_undecodable_fill :
  encoding_traits.deref UTF8 [0x80] 0 = Ok (-128)
  /\ ~ decodes_to_one_codepoint UTF8 [0x80]
  /\ length UTF8 [0x80] = Ok 1
  /\ center UTF8 (lit "abc") 5 [0x80] = Ok ([0x80] ++ lit "abc" ++ [0x80])
  /\ ljust UTF8 (lit "abc") 5 [0x80] = Ok (lit "abc" ++ [0x80; 0x80])
  /\ rjust UTF8 (lit "abc") 5 [0x80] = Ok ([0x80; 0x80] ++ lit "abc")
  /\ ~ (forall (E : Encoding) (s f : units) (w : Z),
          ~ decodes_to_one_codepoint E f ->
          exists what, center E s w f = Throw (invalid_argument what)).
Proof.
  assert (Hno : ~ decodes_to_one_codepoint UTF8 [0x80]).
  { intros [cp [Hd [Hcp _]]]. vm_compute in Hd. injection Hd as <-. lia. }
  split; [reflexivity|]. split; [exact Hno|].
  split; [reflexivity|]. split; [reflexivity|]. split; [reflexivity|].
  split; [reflexivity|].
  intros H. destruct (H UTF8 (lit "abc") [0x80] 5 Hno) as [what Hw].
  vm_compute in Hw. discriminate.
Qed.

(** A fill token that begins with a lead byte without its tail does not
    decode to one codepoint either; on it the count does not return, and
    the calls hang instead of throwing. *)
Lemma justify_hangs_on_stuck_fill :
  ~ decodes_to_one_codepoint UTF8 [0xC3; 0x61]
  /\ center UTF8 (lit "abc") 5 [0xC3; 0x61] = Diverge
  /\ ljust UTF8 (lit "abc") 5 [0xC3; 0x61] = Diverge
  /\ rjust UTF8 (lit "abc") 5 [0xC3; 0x61] = Diverge.
Proof.
  split.
  - intros [cp [_ [_ Hi]]]. vm_compute in Hi. discriminate.
  - repeat split; vm_compute; reflexivity.
Qed.

(* ------------------------------------------------------------------ *)
(** ** Quoting *)

Lemma fold_push_extends (w : Z) (l r : units) :
  exists x, fold_left (push_back w) l r = r ++ x.
Proof.
  revert r. induction l as [|a l IH]; intros r; simpl.
  - exists []. rewrite app_nil_r. reflexivity.
  - destruct (IH (push_back w r a)) as [x Hx]. rewrite Hx.
    unfold push_back. rewrite <- app_assoc. eexists. reflexivity.
Qed.

Lemma quote_char_extends (To : Encoding) (Ascii : bool) (ch : Z) (r : units) :
  exists x, quote_char To Ascii ch r = r ++ x.
Proof.
  unfold quote_char.
  repeat match goal with
    | |- context [if ?b then _ else _] =>
        lazymatch b with
        | context [encoding_traits.append] => fail
        | _ => destruct b
        end
    end;
    try solve [unfold push_back; repeat rewrite <- app_assoc;
               eexists; reflexivity];
    try apply fold_push_extends;
    try apply append_extends.
  destruct (encoding_traits.append To (char_bits To) r ch) as [str ok] eqn:Ha.
  destruct (append_extends To (char_bits To) r ch) as [x Hx].
  rewrite Ha in Hx. simpl in Hx. subst str.
  destruct ok.
  - exists x. reflexivity.
  - destruct (append_extends To (char_bits To) (r ++ x)
                (uint32_t (encoding_traits.replacement To))) as [y Hy].
    rewrite Hy, <- app_assoc. eexists. reflexivity.
Qed.

Lemma quote_char_null (To : Encoding) (Ascii : bool) (r : units) :
  quote_char To Ascii 0 r = r ++ null_escape.
Proof.
  unfold quote_char, push_back. simpl.
  repeat rewrite <- app_assoc. destruct To; reflexivity.
Qed.

Lemma quote_loop_extends (From To : Encoding) (Ascii : bool) (self : units)
  (done : Z) (fuel : nat) :
  forall iter r out,
    quote_loop From To Ascii self fuel iter done r = Ok out ->
    exists x, out = r ++ x.
Proof.
  induction fuel as [|fuel IH]; intros iter r out H; simpl in H.
  - destruct (encoding_traits.ne From iter done); [discriminate|].
    injection H as <-. unfold push_back. eexists. reflexivity.
  - destruct (encoding_traits.ne From iter done).
    + inv_bind H. inv_bind H.
      destruct (a0 =? iter); [discriminate|].
      apply IH in H. destruct H as [x ->].
      destruct (quote_char_extends To Ascii (uint32_t a) r) as [y ->].
      rewrite <- app_assoc. eexists. reflexivity.
    + injection H as <-. unfold push_back. eexists. reflexivity.
Qed.

(** A cursor that moves forward never steps over a null unit: the units a
    step of more than one leaves out are UTF-8 tails or a low surrogate. *)
Lemma incr_stops_at_null (From : Encoding) (self : units) (p q next : Z) :
  rd self q = Ok 0 -> p < q ->
  encoding_traits.incr From self p = Ok next -> next <= q.
Proof.
  intros Hq Hlt H.
  assert (Hat : forall d b, rd self (p + d) = Ok b -> q = p + d -> b = 0).
  { intros d b Hb ->. rewrite Hb in Hq. injection Hq as ->. reflexivity. }
  destruct From; simpl in H;
    try (injection H as <-; unfold UTF32Iterator.incr; lia).
  - (* UTF-8 *)
    unfold UTF8Iterator.incr in H.
    inv_bind H.
    destruct (negb (UTF8Iterator.head a)); [injection H as <-; lia|].
    destruct (UTF8Iterator.head2 a).
    { inv_bind H. destruct (UTF8Iterator.tail a0) eqn:T1;
        injection H as <-; [|lia].
      destruct (Z.eq_dec q (p + 1)) as [e|]; [|lia].
      rewrite (Hat 1 a0 Ha0 e) in T1. discriminate. }
    destruct (UTF8Iterator.head3 a).
    { inv_bind H. destruct (UTF8Iterator.tail a0) eqn:T1;
        [|injection H as <-; lia].
      inv_bind H. destruct (UTF8Iterator.tail a1) eqn:T2;
        injection H as <-; [|lia].
      destruct (Z.eq_dec q (p + 1)) as [e|];
        [rewrite (Hat 1 a0 Ha0 e) in T1; discriminate|].
      destruct (Z.eq_dec q (p + 2)) as [e|]; [|lia].
      rewrite (Hat 2 a1 Ha1 e) in T2. discriminate. }
    destruct (UTF8Iterator.head4 a); [|injection H as <-; lia].
    inv_bind H. destruct (UTF8Iterator.tail a0) eqn:T1;
      [|injection H as <-; lia].
    inv_bind H. destruct (UTF8Iterator.tail a1) eqn:T2;
      [|injection H as <-; lia].
    inv_bind H. destruct (UTF8Iterator.tail a2) eqn:T3;
      injection H as <-; [|lia].
    destruct (Z.eq_dec q (p + 1)) as [e|];
      [rewrite (Hat 1 a0 Ha0 e) in T1; discriminate|].
    destruct (Z.eq_dec q (p + 2)) as [e|];
      [rewrite (Hat 2 a1 Ha1 e) in T2; discriminate|].
    destruct (Z.eq_dec q (p + 3)) as [e|]; [|lia].
    rewrite (Hat 3 a2 Ha2 e) in T3. discriminate.
  - (* UTF-16 *)
    unfold UTF16Iterator.incr in H.
    inv_bind H.
    destruct (UTF16Iterator.is_surrogate_first a); [|injection H as <-; lia].
    inv_bind H. destruct (UTF16Iterator.is_surrogate_last a0) eqn:T1;
      injection H as <-; [|lia].
    destruct (Z.eq_dec q (p + 1)) as [e|]; [|lia].
    rewrite (Hat 1 a0 Ha0 e) in T1. discriminate.
Qed.

Lemma incr_at_null (From : Encoding) (self : units) (q : Z) :
  rd self q = Ok 0 -> encoding_traits.incr From self q = Ok (q + 1).
Proof.
  intros Hq. destruct From; simpl; try reflexivity.
  - unfold UTF8Iterator.incr. rewrite Hq. reflexivity.
  - unfold UTF16Iterator.incr.
    replace (q + 1 - 1) with q by lia. rewrite Hq. reflexivity.
Qed.

Lemma ne_below (From : Encoding) (iter done : Z) :
  iter < done -> encoding_traits.ne From iter done = true.
Proof.
  intros H. destruct From; simpl;
    unfold UTF8Iterator.ne, UTF16Iterator.ne;
    try (apply Z.ltb_lt; exact H);
    apply negb_true_iff, Z.eqb_neq; lia.
Qed.

Lemma quote_loop_step_at_null (From To : Encoding) (Ascii : bool)
  (self : units) (q done : Z) (fuel : nat) (r : units) :
  rd self q = Ok 0 -> encoding_traits.deref From self q = Ok 0 ->
  encoding_traits.ne From q done = true ->
  quote_loop From To Ascii self (S fuel) q done r
  = quote_loop From To Ascii self fuel (q + 1) done (r ++ null_escape).
Proof.
  intros Hq Hd Hne. simpl. rewrite Hne, Hd. simpl.
  rewrite (incr_at_null From self q Hq). simpl.
  replace (q + 1 =? q) with false by (symmetry; apply Z.eqb_neq; lia).
  change (uint32_t 0) with 0. rewrite quote_char_null. reflexivity.
Qed.

Lemma quote_loop_reaches_null (From To : Encoding) (Ascii : bool)
  (self : units) (q done : Z) :
  rd self q = Ok 0 -> encoding_traits.deref From self q = Ok 0 -> q < done ->
  forall fuel iter r out,
    iter <= q ->
    quote_loop From To Ascii self fuel iter done r = Ok out ->
    exists pre post, out = pre ++ null_escape ++ post.
Proof.
  intros Hq Hd Hdone.
  induction fuel as [|fuel IH]; intros iter r out Hle H.
  - simpl in H. rewrite (ne_below From iter done) in H by lia. discriminate.
  - destruct (Z.eq_dec iter q) as [->|Hneq].
    + rewrite quote_loop_step_at_null in H
        by (try assumption; apply ne_below; lia).
      apply quote_loop_extends in H. destruct H as [x ->].
      exists r, x. rewrite <- app_assoc. reflexivity.
    + simpl in H. rewrite (ne_below From iter done) in H by lia.
      inv_bind H. inv_bind H.
      destruct (a0 =? iter) eqn:Hstuck; [discriminate|].
      eapply IH; [|exact H].
      apply (incr_stops_at_null From self iter q a0 Hq); [lia|exact Ha0].
Qed.

(** Under every source encoding but UTF-32 a zero unit is decoded as the
    null character. *)
Lemma deref_null_unit (From : Encoding) (self : units) (q : Z) :
  From <> UTF32 -> rd self q = Ok 0 ->
  encoding_traits.deref From self q = Ok 0.
Proof.
  intros HF Hq. destruct From; try contradiction; simpl.
  all: try (unfold UTF8Iterator.deref; rewrite Hq; reflexivity).
  all: try (unfold UTF16Iterator.deref; rewrite Hq; reflexivity).
  all: try (rewrite Hq; reflexivity).
Qed.

(** Where the null character is decoded, one turn of the loop of [quote]
    writes the escape of the null character and then, falling through, the
    escape of the bell, and moves one unit on; so the output of every call
    that returns on such an input holds the two escapes next to each
    other. *)
Theorem quote_null_falls_through (From To : Encoding) (Ascii : bool)
  (self : units) (q : Z) :
  rd self q = Ok 0 -> encoding_traits.deref From self q = Ok 0 ->
  (forall fuel done r,
      encoding_traits.ne From q done = true ->
      quote_loop From To Ascii self (S fuel) q done r
      = quote_loop From To Ascii self fuel (q + 1) done
          (r ++ lit "\0\a"))
  /\ (forall out,
         quote From To Ascii self = Ok out ->
         exists pre post, out = pre ++ lit "\0\a" ++ post).
Proof.
  intros Hq Hd. split.
  - intros fuel done r Hne.
    exact (quote_loop_step_at_null From To Ascii self q done fuel r Hq Hd Hne).
  - intros out H. unfold quote in H.
    assert (Hrange : 0 <= q < size self).
    { unfold rd in Hq. destruct (q <? 0) eqn:Hneg; [discriminate|].
      apply Z.ltb_ge in Hneg.
      destruct (nth_error self (Z.to_nat q)) eqn:Hn; [|discriminate].
      assert (Hl : (Z.to_nat q < List.length self)%nat).
      { apply nth_error_Some. rewrite Hn. discriminate. }
      unfold size. lia. }
    apply (quote_loop_reaches_null From To Ascii self q (size self) Hq Hd
             (proj2 Hrange) _ 0 _ out (proj1 Hrange) H).
Qed.

(** The string a, null, b is quoted with both escapes between a and b. *)
Lemma quote_null_falls_through_witness :
  rd [0x61; 0; 0x62] 1 = Ok 0
  /\ encoding_traits.deref UTF8 [0x61; 0; 0x62] 1 = Ok 0
  /\ quote UTF8 UTF8 false [0x61; 0; 0x62]
     = Ok (dquote :: lit "a\0\ab" ++ [dquote])
  /\ exists pre post,
       dquote :: lit "a\0\ab" ++ [dquote] = pre ++ lit "\0\a" ++ post.
Proof.
  split; [reflexivity|]. split; [reflexivity|]. split; [reflexivity|].
  apply (proj2 (quote_null_falls_through UTF8 UTF8 false [0x61; 0; 0x62] 1
                  eq_refl eq_refl)).
  reflexivity.
Defined.

(** What the loop writes for the value 0xFFFFFFFF, the error value -1 held
    in the [uint32_t] of the loop. *)
Lemma quote_char_no_character (To : Encoding) (Ascii : bool) (r : units) :
  quote_char To Ascii 4294967295 r
  = r ++ quote_char To Ascii 4294967295 [].
Proof.
  destruct To, Ascii; cbv -[app]; rewrite <- ?app_assoc; reflexivity.
Qed.

(** C9.  Under a UTF-32 source a null character is not written as the escape
    of the null character followed by the escape of the bell.  The iterator
    of UTF-32 rejects every even unit, the zero unit among them: at every
    zero unit of every string it returns the error value -1, and the turn of
    the loop of [quote] writes what it writes for a value that is no
    character (a question mark in the ASCII mode, the replacement of the
    destination otherwise), never the two escapes. *)
Theorem quote_null_lost_under_UTF32 (To : Encoding) (Ascii : bool)
  (self : units) (q : Z) :
  rd self q = Ok 0 ->
  encoding_traits.deref UTF32 self q = Ok (-1)
  /\ exists x,
       x <> null_escape
       /\ (Ascii = true -> x = lit "?")
       /\ forall fuel done r,
            encoding_traits.ne UTF32 q done = true ->
            quote_loop UTF32 To Ascii self (S fuel) q done r
            = quote_loop UTF32 To Ascii self fuel (q + 1) done (r ++ x).
Proof.
  intros Hq.
  assert (Hd : encoding_traits.deref UTF32 self q = Ok (-1)).
  { simpl. apply (UTF32_deref_even self q 0 Hq). reflexivity. }
  split; [exact Hd|].
  exists (quote_char To Ascii 4294967295 []).
  split; [destruct To, Ascii; vm_compute; discriminate|].
  split; [intros ->; destruct To; reflexivity|].
  intros fuel done r Hdone.
  cbn [quote_loop]. rewrite Hdone, Hd. cbn [bind].
  rewrite (incr_at_null UTF32 self q Hq). cbn [bind].
  replace (q + 1 =? q) with false by (symmetry; apply Z.eqb_neq; lia).
  change (uint32_t (-1)) with 4294967295.
  rewrite quote_char_no_character. reflexivity.
Qed.

(** The UTF-32 string a, null, c is quoted in the ASCII mode with a
    question mark between a and c. *)
Lemma quote_null_lost_under_UTF32_witness :
  rd [0x61; 0; 0x63] 1 = Ok 0
  /\ quote UTF32 UTF8 true [0x61; 0; 0x63]
     = Ok (dquote :: lit "a?c" ++ [dquote])
  /\ encoding_traits.deref UTF32 [0x61; 0; 0x63] 1 = Ok (-1)
  /\ exists x,
       x <> null_escape
       /\ (true = true -> x = lit "?")
       /\ forall fuel done r,
            encoding_traits.ne UTF32 1 done = true ->
            quote_loop UTF32 UTF8 true [0x61; 0; 0x63] (S fuel) 1 done r
            = quote_loop UTF32 UTF8 true [0x61; 0; 0x63] fuel (1 + 1) done
                (r ++ x).
Proof.
  split; [reflexivity|]. split; [reflexivity|].
  apply (quote_null_lost_under_UTF32 UTF8 true [0x61; 0; 0x63] 1).
  reflexivity.
Defined.

(** A null character behind a UTF-8 lead byte without its tails is never
    reached: the cursor stays on the lead byte and [quote] does not
    return. *)
Lemma quote_null_behind_stuck_cursor :
  quote UTF8 UTF8 false [0xE2; 0x9C; 0] = Diverge
  /\ quote UTF8 UTF8 false [0; 0xC3; 0x61] = Diverge.
Proof. split; vm_compute; reflexivity. Qed.

(* ------------------------------------------------------------------ *)
(** ** Indexing modes of the format engine *)

Section Indexing.

Variable E : Encoding.
Variable self : units.
Variable fomatters : list Formatter.
Variable count : Z.

Lemma automatic_index_in_manual_mode (st : fstate) (c : Z) :
  manual_mode (position st) ->
  rd self (iter st) = Ok (c_ "{") -> rd self (iter st + 1) = Ok c ->
  c <> c_ "{" -> is_digit c = false ->
  format1_iter E self fomatters count st = Throw switching_to_automatic.
Proof.
  unfold manual_mode. intros Hp H0 H1 Hc Hd.
  unfold format1_iter. rewrite H0. simpl bind.
  change (c_ "{" =? c_ "{") with true. cbv iota. rewrite H1. simpl bind.
  replace (c =? c_ "{") with false by (symmetry; apply Z.eqb_neq; exact Hc).
  cbv iota. unfold format1_index. rewrite Hd, Hp. reflexivity.
Qed.

Lemma manual_index_in_automatic_mode (st : fstate) (c : Z) :
  position st <> 0 -> position st <> npos ->
  rd self (iter st) = Ok (c_ "{") -> rd self (iter st + 1) = Ok c ->
  c <> c_ "{" -> is_digit c = true ->
  format1_iter E self fomatters count st = Throw switching_to_manual.
Proof.
  intros Hp0 Hp H0 H1 Hc Hd.
  unfold format1_iter. rewrite H0. simpl bind.
  change (c_ "{" =? c_ "{") with true. cbv iota. rewrite H1. simpl bind.
  replace (c =? c_ "{") with false by (symmetry; apply Z.eqb_neq; exact Hc).
  cbv iota. unfold format1_index. rewrite Hd.
  replace (position st =? 0) with false
    by (symmetry; apply Z.eqb_neq; exact Hp0).
  replace (position st =? npos) with false
    by (symmetry; apply Z.eqb_neq; exact Hp).
  reflexivity.
Qed.

Lemma format1_index_position (c it position index position' it' : Z) :
  format1_index self c it position = Ok (index, position', it') ->
  (is_digit c = true /\ position' = npos
   /\ (position = 0 \/ position = npos))
  \/ (is_digit c = false /\ position <> npos /\ index = position
      /\ position' = size_t (position + 1)).
Proof.
  unfold format1_index. intros H. destruct (is_digit c).
  - left. split; [reflexivity|].
    inv_bind H.
    destruct (number_loop self (S (List.length self)) (it + 1) (size self)
                (size_t (c - c_ "0"))) as [i j].
    injection H as _ <- _.
    destruct (position =? 0) eqn:H0.
    + injection Ha as <-. apply Z.eqb_eq in H0. auto.
    + destruct (position =? npos) eqn:H1; simpl in Ha; [|discriminate].
      injection Ha as <-. apply Z.eqb_eq in H1. auto.
  - right. split; [reflexivity|].
    destruct (position =? npos) eqn:H1; [discriminate|].
    apply Z.eqb_neq in H1. injection H as <- <- _. auto.
Qed.

(** What a turn of the loop that does not throw does to the counter: it
    leaves it alone, or it processed a manual field, or it processed an
    automatic one. *)
Lemma format1_iter_position (st st' : fstate) :
  format1_iter E self fomatters count st = Ok st' ->
  position st' = position st
  \/ (position st' = npos /\ (position st = 0 \/ position st = npos))
  \/ (position st' = size_t (position st + 1)
      /\ position st <> npos /\ position st < count).
Proof.
  unfold format1_iter. intros H. inv_bind H.
  destruct (a =? c_ "{").
  - inv_bind H. destruct (a0 =? c_ "{").
    + injection H as <-. left. reflexivity.
    + inv_bind H. destruct a1 as [[index pos'] it'].
      destruct (count <=? index) eqn:Hcount; [discriminate|].
      apply Z.leb_gt in Hcount.
      inv_bind H. destruct (a1 =? c_ "["); [discriminate|].
      inv_bind H. destruct a2 as [conv it''].
      inv_bind H. inv_bind H. destruct a3 as [spec it'''].
      inv_bind H. destruct (negb (a3 =? c_ "}")); [discriminate|].
      destruct (nth_error fomatters (Z.to_nat index)); [|discriminate].
      inv_bind H. injection H as <-. simpl.
      apply format1_index_position in Ha1.
      destruct Ha1 as [[_ [-> Hp]]|[_ [Hp [-> ->]]]]; auto.
  - destruct (a =? c_ "}").
    + inv_bind H. destruct (negb (a0 =? c_ "}")); [discriminate|].
      injection H as <-. left. reflexivity.
    + inv_bind H. injection H as <-. left. reflexivity.
Qed.

Lemma format1_iter_keeps_mode (st st' : fstate) :
  count < npos ->
  format1_iter E self fomatters count st = Ok st' ->
  (manual_mode (position st) -> manual_mode (position st'))
  /\ (automatic_mode (position st) -> automatic_mode (position st')).
Proof.
  unfold manual_mode, automatic_mode. intros Hc H.
  apply format1_iter_position in H.
  destruct H as [->|[[-> [H|H]]|[-> [Hn Hlt]]]]; split; intros Hp;
    try assumption; try reflexivity; try lia.
  unfold size_t, npos in *. rewrite Z.mod_small; lia.
Qed.

Lemma format1_loop_keeps_mode (fuel : nat) :
  count < npos ->
  forall st out p,
    format1_loop E self fomatters count fuel st = Ok (out, p) ->
    (manual_mode (position st) -> manual_mode p)
    /\ (automatic_mode (position st) -> automatic_mode p).
Proof.
  intros Hc. induction fuel as [|fuel IH]; intros st out p H; simpl in H.
  - destruct (iter st <? size self); [discriminate|].
    injection H as _ <-. auto.
  - destruct (iter st <? size self).
    + inv_bind H. destruct (iter a =? iter st); [discriminate|].
      apply IH in H. apply format1_iter_keeps_mode in Ha; [|exact Hc].
      destruct H, Ha. auto.
    + injection H as _ <-. auto.
Qed.

(** A field that is processed engages its mode. *)
Lemma field_engages_mode (st st' : fstate) (c : Z) :
  count < npos -> 0 <= position st ->
  rd self (iter st) = Ok (c_ "{") -> rd self (iter st + 1) = Ok c ->
  c <> c_ "{" ->
  format1_iter E self fomatters count st = Ok st' ->
  if is_digit c then manual_mode (position st')
  else automatic_mode (position st').
Proof.
  unfold manual_mode, automatic_mode. intros Hcount Hpos H0 H1 Hc H.
  unfold format1_iter in H. rewrite H0 in H. simpl bind in H.
  change (c_ "{" =? c_ "{") with true in H. cbv iota in H.
  rewrite H1 in H. simpl bind in H.
  replace (c =? c_ "{") with false in H
    by (symmetry; apply Z.eqb_neq; exact Hc).
  cbv iota in H.
  inv_bind H. destruct a as [[index pos'] it'].
  destruct (count <=? index) eqn:Hle; [discriminate|].
  apply Z.leb_gt in Hle.
  inv_bind H. destruct (a =? c_ "["); [discriminate|].
  inv_bind H. destruct a0 as [conv it''].
  inv_bind H. inv_bind H. destruct a1 as [spec it'''].
  inv_bind H. destruct (negb (a1 =? c_ "}")); [discriminate|].
  destruct (nth_error fomatters (Z.to_nat index)); [|discriminate].
  inv_bind H. injection H as <-. simpl.
  apply format1_index_position in Ha.
  destruct Ha as [[-> [-> _]]|[-> [Hp [-> ->]]]]; [reflexivity|].
  unfold size_t, npos in *. rewrite Z.mod_small; lia.
Qed.

End Indexing.

Lemma mixed_template_first_field (E : Encoding) (fs : list Formatter)
  (count : Z) (f : Formatter) (r : units) :
  nth_error fs 0 = Some f -> 0 < count -> f 0 [] [] = Ok r ->
  format1_iter E (lit "{0}{}") fs count
    {| iter := 0; from := 0; result := []; position := 0 |}
  = Ok {| iter := 3; from := 3; result := r; position := npos |}.
Proof.
  intros Hf Hc Hr.
  destruct fs as [|f' fs]; simpl in Hf; [discriminate|]. injection Hf as ->.
  destruct count as [|p|p]; try lia.
  vm_compute. vm_compute in Hr. rewrite Hr. reflexivity.
Qed.

Lemma mixed_template_second_field (E : Encoding) (fs : list Formatter)
  (count : Z) (r : units) :
  format1_iter E (lit "{0}{}") fs count
    {| iter := 3; from := 3; result := r; position := npos |}
  = Throw switching_to_automatic.
Proof. vm_compute. reflexivity. Qed.

Lemma mixed_template_throws (E : Encoding) (fs : list Formatter) (count : Z)
  (f : Formatter) (r : units) :
  nth_error fs 0 = Some f -> 0 < count -> f 0 [] [] = Ok r ->
  format1 E (lit "{0}{}") fs count 0 = Throw switching_to_automatic.
Proof.
  intros Hf Hc Hr. unfold format1.
  cbn -[Z.leb nth_error].
  change [123; 48; 125; 123; 125] with (lit "{0}{}").
  rewrite (mixed_template_first_field E fs count f r Hf Hc Hr). cbn -[lit].
  rewrite mixed_template_second_field. reflexivity.
Qed.

Lemma formatter_int_plain (E : Encoding) (n : Z) :
  exists r, formatter E (Int64 n) 0 [] [] = Ok r.
Proof. unfold formatter. cbn. eexists. reflexivity. Qed.

Lemma mixed_template_with_integer (E : Encoding) (n : Z) (values : list value) :
  format E (lit "{0}{}") (Int64 n :: values) = Throw switching_to_automatic.
Proof.
  unfold format. destruct (formatter_int_plain E n) as [r Hr].
  rewrite (mixed_template_throws E _ _ (formatter E (Int64 n)) r);
    [reflexivity|reflexivity| |exact Hr].
  rewrite length_cons. lia.
Qed.

(** C7, as the code has it.  At a replacement field, an automatic index met
    in manual mode throws the error of switching to automatic indexing and an
    explicit index met in automatic mode throws the error of switching to
    manual indexing; a field that is processed engages its mode, and no turn
    of the loop and no run that returns leaves the mode it is in.  The
    template "{0}{}" throws the switching error whenever the formatter of the
    first argument returns for the empty specifier, as it does for every
    integer. *)
Theorem indexing_modes_do_not_mix (E : Encoding) (self : units)
  (fomatters : list Formatter) (count : Z) :
  count < npos ->
  (forall st c,
      rd self (iter st) = Ok (c_ "{") -> rd self (iter st + 1) = Ok c ->
      c <> c_ "{" ->
      (manual_mode (position st) -> is_digit c = false ->
       format1_iter E self fomatters count st = Throw switching_to_automatic)
      /\ (automatic_mode (position st) -> is_digit c = true ->
          format1_iter E self fomatters count st = Throw switching_to_manual)
      /\ (forall st',
             0 <= position st ->
             format1_iter E self fomatters count st = Ok st' ->
             if is_digit c then manual_mode (position st')
             else automatic_mode (position st')))
  /\ (forall fuel st out p,
         format1_loop E self fomatters count fuel st = Ok (out, p) ->
         (manual_mode (position st) -> manual_mode p)
         /\ (automatic_mode (position st) -> automatic_mode p))
  /\ (forall f r,
         nth_error fomatters 0 = Some f -> 0 < count -> f 0 [] [] = Ok r ->
         format1 E (lit "{0}{}") fomatters count 0
         = Throw switching_to_automatic)
  /\ (forall n values,
         format E (lit "{0}{}") (Int64 n :: values)
         = Throw switching_to_automatic).
Proof.
  intros Hcount. split; [|split; [|split]].
  - intros st c H0 H1 Hc. split; [|split].
    + intros Hm Hd.
      exact (automatic_index_in_manual_mode E self fomatters count st c
               Hm H0 H1 Hc Hd).
    + intros [Ha1 Ha2] Hd.
      apply (manual_index_in_automatic_mode E self fomatters count st c);
        try assumption; lia.
    + intros st' Hp Hok.
      exact (field_engages_mode E self fomatters count st st' c
               Hcount Hp H0 H1 Hc Hok).
  - intros fuel st out p H.
    exact (format1_loop_keeps_mode E self fomatters count fuel Hcount st out p
             H).
  - intros f r Hf Hc Hr.
    exact (mixed_template_throws E fomatters count f r Hf Hc Hr).
  - intros n values. apply mixed_template_with_integer.
Qed.

(** With one integer argument the template "{0}{}" throws the switching
    error at its second field, met in manual mode. *)
Lemma indexing_modes_do_not_mix_witness :
  1 < npos
  /\ format1 UTF8 (lit "{0}{}") [formatter UTF8 (Int64 7)] 1 0
     = Throw switching_to_automatic
  /\ format1_iter UTF8 (lit "{0}{}") [formatter UTF8 (Int64 7)] 1
       {| iter := 3; from := 3; result := lit "7"; position := npos |}
     = Throw switching_to_automatic.
Proof.
  assert (Hc : 1 < npos) by (unfold npos; lia).
  pose proof (indexing_modes_do_not_mix UTF8 (lit "{0}{}")
                [formatter UTF8 (Int64 7)] 1 Hc) as [Hfield [_ [Hmixed _]]].
  split; [exact Hc|]. split.
  - apply (Hmixed (formatter UTF8 (Int64 7)) (lit "7")).
    + reflexivity.
    + lia.
    + reflexivity.
  - apply (proj1 (Hfield {| iter := 3; from := 3; result := lit "7";
                            position := npos |} (c_ "}")
                    eq_refl eq_refl ltac:(discriminate))).
    + reflexivity.
    + reflexivity.
Defined.

(** Without arguments the template "{0}{}" fails at its first field, with
    the range error; with a floating point argument it fails there with the
    error of the renderer.  Neither is the error of switching modes. *)
Lemma mixed_template_other_errors :
  format UTF8 (lit "{0}{}") []
  = Throw (out_of_range "format(): Argument index out of range")
  /\ format UTF8 (lit "{0}{}") [Double]
     = Throw (logic_error "Not implemented!")
  /\ ~ (forall values : list value,
          format UTF8 (lit "{0}{}") values = Throw switching_to_automatic).
Proof.
  split; [vm_compute; reflexivity|]. split; [vm_compute; reflexivity|].
  intros H. specialize (H []). vm_compute in H. discriminate.
Qed.

(* ================================================================== *)
(** * Further properties of the algorithms

    The properties below go through the functions of the header the
    sections above do not reach, and relate them to each other. *)

(* ------------------------------------------------------------------ *)
(** ** Searching *)

Lemma incr_within (E : Encoding) (s : units) (p next : Z) :
  encoding_traits.incr E s p = Ok next -> p < size s -> next <= size s.
Proof.
  intros H Hp. destruct E; cbv [encoding_traits.incr UTF32Iterator.incr] in H;
    try (injection H as <-; lia).
  - unfold UTF8Iterator.incr in H. cbv [bind] in H.
    repeat match type of H with
      | match rd ?s ?i with _ => _ end = _ =>
          let e := fresh "e" in
          destruct (rd s i) eqn:e; try discriminate; apply rd_range in e
      | (if ?b then _ else _) = _ => destruct b
      end; injection H as <-; lia.
  - unfold UTF16Iterator.incr in H. cbv [bind] in H.
    repeat match type of H with
      | match rd ?s ?i with _ => _ end = _ =>
          let e := fresh "e" in
          destruct (rd s i) eqn:e; try discriminate; apply rd_range in e
      | (if ?b then _ else _) = _ => destruct b
      end; injection H as <-; lia.
Qed.

Lemma incr_single_unit (E : Encoding) (s : units) (p : Z) :
  encoding_traits.multichar E = false ->
  encoding_traits.incr E s p = Ok (p + 1).
Proof. destruct E; simpl; intros H; try discriminate; reflexivity. Qed.

Lemma compare_eq_inside (s sub : units) (p : Z) :
  0 <= p -> p + size sub <= size s ->
  compare_eq s p sub
  = Ok (if list_eq_dec Z.eq_dec (slice s p (p + size sub)) sub
        then true else false).
Proof.
  intros H0 H1. unfold compare_eq.
  replace (p <? 0) with false by (symmetry; apply Z.ltb_ge; lia).
  replace (size s <? p + size sub) with false
    by (symmetry; apply Z.ltb_ge; lia).
  reflexivity.
Qed.

Lemma find_loop_sound (E : Encoding) (self sub : units) (done : Z)
  (fuel : nat) :
  forall it r,
    find_loop E self sub fuel it done = Ok r ->
    r = npos
    \/ (it <= r /\ 0 <= r /\ r + size sub <= size self
        /\ slice self r (r + size sub) = sub).
Proof.
  induction fuel as [|fuel IH]; intros it r H; simpl in H;
    (destruct (encoding_traits.ne E it done);
     [|injection H as <-; left; reflexivity]); [discriminate|].
  inv_bind H. apply compare_eq_Ok in Ha. destruct Ha as [H0 [H1 Hm]].
  destruct a.
  - injection H as <-. right. repeat split; try lia. apply Hm. reflexivity.
  - inv_bind H. destruct (a =? it); [discriminate|].
    apply incr_moves_forward in Ha. apply IH in H.
    destruct H as [H|H]; [left; exact H|right].
    repeat split; try tauto; lia.
Qed.

(** X4.  Whatever the encoding, an offset that [find] returns for a pattern that
    is not longer than the string is [npos] or the offset of an occurrence
    of the pattern that does not begin before [start]. *)
Theorem find_returns_an_occurrence (E : Encoding) (self sub : units)
  (start end_ r : Z) :
  size sub <= size self ->
  find E self sub start end_ = Ok r ->
  r = npos
  \/ (start <= r /\ r + size sub <= size self
      /\ slice self r (r + size sub) = sub).
Proof.
  intros Hs H. unfold find in H.
  replace (size self <? size sub) with false in H
    by (symmetry; apply Z.ltb_ge; lia).
  apply find_loop_sound in H. destruct H as [H|H]; [left; exact H|right].
  repeat split; try tauto; lia.
Qed.

Lemma find_returns_an_occurrence_witness :
  size (lit "bc") <= size (lit "abcbc")
  /\ find UTF8 (lit "abcbc") (lit "bc") 0 npos = Ok 1
  /\ (1 = npos
      \/ (0 <= 1 /\ 1 + size (lit "bc") <= size (lit "abcbc")
          /\ slice (lit "abcbc") 1 (1 + size (lit "bc")) = lit "bc")).
Proof.
  split; [vm_compute; discriminate|]. split; [reflexivity|].
  apply (find_returns_an_occurrence UTF8 (lit "abcbc") (lit "bc") 0 npos 1).
  - vm_compute; discriminate.
  - reflexivity.
Defined.




(* ------------------------------------------------------------------ *)
Lemma rfind_loop_last (E : Encoding) (self sub : units) (done : Z) :
  encoding_traits.multichar E = false ->
  0 <= done - size sub + 1 ->
  forall fuel it,
    done <= it <= size self -> it - done <= Z.of_nat fuel ->
    exists r,
      rfind_loop E self sub (Ok npos) fuel done it = Ok r
      /\ ((r = npos
           /\ forall j, done < j + size sub <= it ->
                        slice self j (j + size sub) <> sub)
          \/ (done < r + size sub <= it
              /\ slice self r (r + size sub) = sub
              /\ forall j, r < j -> j + size sub <= it ->
                           slice self j (j + size sub) <> sub)).
Proof.
  intros HE Hd.
  induction fuel as [|fuel IH]; intros it Hit Hf; simpl;
    rewrite (ne_single_unit E done it HE);
    (destruct (Z.eqb_spec done it) as [e|n]; simpl;
     [exists npos; split; [reflexivity|left; split; [reflexivity|]];
      intros j Hj; lia|]); [lia|].
  rewrite compare_eq_inside by lia.
  replace (it - size sub + size sub) with it by lia.
  destruct (list_eq_dec Z.eq_dec (slice self (it - size sub) it) sub)
    as [e|ne]; simpl.
  - exists (it - size sub). split; [reflexivity|right].
    split; [lia|]. split.
    + replace (it - size sub + size sub) with it by lia. exact e.
    + intros j Hj Hj'. lia.
  - rewrite (decr_single_unit E self it HE). simpl.
    destruct (IH (it - 1)) as [r [Hr Hcase]]; [lia|lia|].
    exists r. split; [exact Hr|].
    assert (Hat : forall j, j + size sub = it ->
                            slice self j (j + size sub) <> sub).
    { intros j Hj. replace j with (it - size sub) by lia.
      replace (it - size sub + size sub) with it by lia. exact ne. }
    destruct Hcase as [[-> Hno]|[Hin [Hm Hno]]].
    + left. split; [reflexivity|]. intros j Hj.
      destruct (Z.eq_dec (j + size sub) it) as [e|];
        [apply Hat; exact e|apply Hno; lia].
    + right. split; [lia|]. split; [exact Hm|]. intros j Hj Hj'.
      destruct (Z.eq_dec (j + size sub) it) as [e|];
        [apply Hat; exact e|apply Hno; lia].
Qed.

(** X6.  Under an encoding whose cursor is one unit wide, for a pattern that
    is not longer than the string and a range that has room for it
    ([start + size(sub) - 1 <= min(end, size(self))]), [rfind] returns, and
    what it returns is the greatest offset between [start] and
    [min(end, size(self)) - size(sub)] at which the pattern occurs, or
    [npos] when it occurs at none of them. *)
Theorem rfind_last_occurrence (E : Encoding) (self sub : units)
  (start end_ : Z) :
  encoding_traits.multichar E = false ->
  size sub <= size self ->
  0 <= start -> start + size sub - 1 <= Z.min end_ (size self) ->
  let last := Z.min end_ (size self) - size sub in
  exists r,
    rfind E self sub start end_ = Ok r
    /\ ((r = npos
         /\ forall j, start <= j <= last ->
                      slice self j (j + size sub) <> sub)
        \/ (start <= r <= last /\ slice self r (r + size sub) = sub
            /\ forall j, r < j <= last ->
                         slice self j (j + size sub) <> sub)).
Proof.
  intros HE Hs Hst Hend last. unfold rfind.
  replace (size self <? size sub) with false
    by (symmetry; apply Z.ltb_ge; lia).
  cbv zeta.
  destruct (rfind_loop_last E self sub (start + size sub - 1) HE
              ltac:(lia) (S (S (List.length self)))
              (Z.min end_ (size self))) as [r [Hr Hcase]].
  - lia.
  - pose proof (size_nonneg sub). unfold size in *. lia.
  - exists r. split; [exact Hr|]. unfold last.
    destruct Hcase as [[-> Hno]|[Hin [Hm Hno]]].
    + left. split; [reflexivity|]. intros j Hj. apply Hno. lia.
    + right. split; [lia|]. split; [exact Hm|].
      intros j Hj. apply Hno; lia.
Qed.

Lemma rfind_last_occurrence_witness :
  encoding_traits.multichar Char8 = false
  /\ size (lit "bc") <= size (lit "abcbc")
  /\ 0 <= 0
  /\ 0 + size (lit "bc") - 1 <= Z.min npos (size (lit "abcbc"))
  /\ exists r,
       rfind Char8 (lit "abcbc") (lit "bc") 0 npos = Ok r
       /\ ((r = npos
            /\ forall j, 0 <= j <= Z.min npos (size (lit "abcbc"))
                                   - size (lit "bc") ->
                         slice (lit "abcbc") j (j + size (lit "bc"))
                         <> lit "bc")
           \/ (0 <= r <= Z.min npos (size (lit "abcbc")) - size (lit "bc")
               /\ slice (lit "abcbc") r (r + size (lit "bc")) = lit "bc"
               /\ forall j, r < j <= Z.min npos (size (lit "abcbc"))
                                     - size (lit "bc") ->
                            slice (lit "abcbc") j (j + size (lit "bc"))
                            <> lit "bc")).
Proof.
  split; [reflexivity|]. split; [vm_compute; discriminate|].
  split; [lia|]. split; [vm_compute; discriminate|].
  apply (rfind_last_occurrence Char8 (lit "abcbc") (lit "bc") 0 npos).
  - reflexivity.
  - vm_compute; discriminate.
  - lia.
  - vm_compute; discriminate.
Defined.

(** Without room for the pattern the loop starts below its bound and walks
    away from it: the result is an occurrence in front of [start].  For a
    pattern longer than the string the result is 0. *)
Lemma rfind_outside_the_range :
  rfind Char8 (lit "abc") (lit "bc") 3 npos = Ok 1
  /\ rfind Char8 (lit "a") (lit "ab") 0 npos = Ok 0.
Proof. split; vm_compute; reflexivity. Qed.

(** *** [index] and [rindex] against [find] and [rfind] *)

Lemma index_loop_find_loop (E : Encoding) (self sub : units) (done : Z) :
  size self < npos ->
  forall fuel it,
    index_loop E self sub fuel it done
    = (r <- find_loop E self sub fuel it done ;;
       if r =? npos then Throw (invalid_argument "index(): sub") else Ok r).
Proof.
  intros Hs. induction fuel as [|fuel IH]; intros it; simpl;
    (destruct (encoding_traits.ne E it done); [|reflexivity]);
    [reflexivity|].
  destruct (compare_eq self it sub) as [b| | | |] eqn:Hc; try reflexivity.
  apply compare_eq_Ok in Hc. destruct Hc as [H0 [H1 _]].
  destruct b; simpl.
  - pose proof (size_nonneg sub).
    replace (it =? npos) with false by (symmetry; apply Z.eqb_neq; lia).
    reflexivity.
  - destruct (encoding_traits.incr E self it); try reflexivity. simpl.
    destruct (a =? it); [reflexivity|]. apply IH.
Qed.

Lemma rfind_loop_not_found (E : Encoding) (self sub : units) (done : Z)
  (e : exn) :
  size self < npos ->
  forall fuel it,
    rfind_loop E self sub (Throw e) fuel done it
    = (r <- rfind_loop E self sub (Ok npos) fuel done it ;;
       if r =? npos then Throw e else Ok r).
Proof.
  intros Hs. induction fuel as [|fuel IH]; intros it; simpl;
    (destruct (encoding_traits.ne E done it); [|reflexivity]);
    [reflexivity|].
  destruct (compare_eq self (it - size sub) sub) as [b| | | |] eqn:Hc;
    try reflexivity.
  apply compare_eq_Ok in Hc. destruct Hc as [H0 [H1 _]].
  destruct b; simpl.
  - pose proof (size_nonneg sub).
    replace (it - size sub =? npos) with false
      by (symmetry; apply Z.eqb_neq; lia).
    reflexivity.
  - destruct (encoding_traits.decr E self it); try reflexivity. simpl.
    apply IH.
Qed.

(** X7.  [index] and [rindex] are [find] and [rfind] with the answer [npos]
    turned into an exception: on every string shorter than [npos], for
    every encoding, pattern and range, they end as [find] and [rfind] end,
    except that they throw where those return [npos]. *)
Theorem index_is_find_or_throw (E : Encoding) (self sub : units)
  (start end_ : Z) :
  size self < npos ->
  index E self sub start end_
  = (r <- find E self sub start end_ ;;
     if r =? npos then Throw (invalid_argument "index(): sub") else Ok r)
  /\ rindex E self sub start end_
     = (r <- rfind E self sub start end_ ;;
        if r =? npos then Throw (invalid_argument "rindex(): sub")
        else Ok r).
Proof.
  intros Hs. unfold index, find, rindex, rfind.
  destruct (size self <? size sub); [split; reflexivity|]. split.
  - apply index_loop_find_loop. exact Hs.
  - apply rfind_loop_not_found. exact Hs.
Qed.

Lemma index_is_find_or_throw_witness :
  size (lit "a-b") < npos
  /\ index UTF8 (lit "a-b") (lit "c") 0 npos
     = (r <- find UTF8 (lit "a-b") (lit "c") 0 npos ;;
        if r =? npos then Throw (invalid_argument "index(): sub")
        else Ok r)
  /\ rindex UTF8 (lit "a-b") (lit "c") 0 npos
     = (r <- rfind UTF8 (lit "a-b") (lit "c") 0 npos ;;
        if r =? npos then Throw (invalid_argument "rindex(): sub")
        else Ok r).
Proof.
  split; [reflexivity|].
  apply (index_is_find_or_throw UTF8 (lit "a-b") (lit "c") 0 npos).
  reflexivity.
Defined.

(* ------------------------------------------------------------------ *)
(** *** [count] and [replace] against [split] *)

Lemma size_t_small (x : Z) : 0 <= x <= npos -> size_t x = x.
Proof. intros H. unfold size_t. apply Z.mod_small. unfold npos in H. lia. Qed.

Lemma count_loop_split_loop (E : Encoding) (self sub : units) (done : Z) :
  size self < npos -> 0 < size sub ->
  forall fuel it maxsplit prev lst,
    0 <= it <= size self ->
    Z.of_nat (List.length lst) <= it ->
    npos - it <= maxsplit <= npos ->
    count_loop E self sub fuel it done (Z.of_nat (List.length lst))
    = (parts <- split_loop E self sub fuel maxsplit prev it done lst ;;
       Ok (Z.of_nat (List.length parts) - 1)).
Proof.
  intros Hs Hsub.
  assert (Hexit : forall (lst : list units) (x : units),
             Z.of_nat (List.length lst)
             = Z.of_nat (List.length (lst ++ [x])) - 1).
  { intros lst x. rewrite length_app. simpl. lia. }
  induction fuel as [|fuel IH]; intros it maxsplit prev lst Hit Hl Hm; simpl;
    (replace (maxsplit =? 0) with false by (symmetry; apply Z.eqb_neq; lia));
    simpl;
    (destruct (encoding_traits.ne E it done);
     [|simpl; f_equal; apply Hexit]); [reflexivity|].
  destruct (compare_eq self it sub) as [b| | | |] eqn:Hc; try reflexivity.
  apply compare_eq_Ok in Hc. destruct Hc as [H0 [H1 _]].
  destruct b; simpl.
  - replace (it + size sub =? it) with false
      by (symmetry; apply Z.eqb_neq; lia).
    rewrite (size_t_small (maxsplit - 1)) by lia.
    rewrite (size_t_small (Z.of_nat (List.length lst) + 1)) by lia.
    replace (Z.of_nat (List.length lst) + 1)
      with (Z.of_nat (List.length (lst ++ [slice self prev it])))
      by (rewrite length_app; simpl; lia).
    apply IH; [lia| |lia].
    rewrite length_app. simpl. lia.
  - destruct (encoding_traits.incr E self it) as [next| | | |] eqn:Hi;
      try reflexivity.
    simpl. destruct (next =? it); [reflexivity|].
    apply incr_moves_forward in Hi as Hf.
    apply incr_within in Hi; [|lia].
    apply IH; lia.
Qed.

(** X8.  [count] over the whole string counts what the separator [split] cuts
    at: for a non-empty pattern and every encoding, it ends as the
    unlimited [split] ends, and where that returns a list, [count] returns
    the number of its parts less one. *)
Theorem count_is_number_of_cuts (E : Encoding) (self sub : units) :
  size self < npos -> size sub <> 0 ->
  count E self sub 0 npos
  = (parts <- split E self sub npos ;;
     Ok (Z.of_nat (List.length parts) - 1)).
Proof.
  intros Hs Hsub. pose proof (size_nonneg sub) as Hn.
  pose proof (size_nonneg self) as Hn'.
  unfold count, split.
  replace (size sub =? 0) with false by (symmetry; apply Z.eqb_neq; lia).
  destruct (size self <? size sub); [reflexivity|].
  rewrite Z.min_r by lia.
  apply (count_loop_split_loop E self sub _ Hs ltac:(lia)
           (S (S (List.length self))) 0 npos 0 []); simpl; lia.
Qed.

Lemma count_is_number_of_cuts_witness :
  size (lit "a-b-c") < npos /\ size (lit "-") <> 0
  /\ count UTF8 (lit "a-b-c") (lit "-") 0 npos
     = (parts <- split UTF8 (lit "a-b-c") (lit "-") npos ;;
        Ok (Z.of_nat (List.length parts) - 1)).
Proof.
  split; [reflexivity|]. split; [discriminate|].
  apply (count_is_number_of_cuts UTF8 (lit "a-b-c") (lit "-")).
  - reflexivity.
  - discriminate.
Defined.

Lemma replace_loop_split_loop (E : Encoding) (self old str : units)
  (done : Z) :
  forall fuel count prev it res lst,
    res = terminated str lst ->
    replace_loop E self old str fuel count prev it done res
    = (parts <- split_loop E self old fuel count prev it done lst ;;
       Ok (join str parts)).
Proof.
  induction fuel as [|fuel IH]; intros count prev it res lst Hres; simpl;
    (destruct (negb (count =? 0) && encoding_traits.ne E it done);
     [|simpl; rewrite join_snoc, Hres; reflexivity]); [reflexivity|].
  destruct (compare_eq self it old) as [b| | | |]; try reflexivity.
  destruct b; simpl.
  - apply IH. rewrite terminated_snoc, Hres. reflexivity.
  - destruct (encoding_traits.incr E self it) as [next| | | |];
      try reflexivity.
    simpl. destruct (next =? it); [reflexivity|]. apply IH. exact Hres.
Qed.

Lemma replace_split_join (E : Encoding) (self old str : units) (count : Z) :
  size old <> 0 -> size old <= size self ->
  replace E self old str count
  = (parts <- split E self old count ;; Ok (join str parts)).
Proof.
  intros Ho Hs. unfold replace, split.
  replace (size old =? 0) with false by (symmetry; apply Z.eqb_neq; lia).
  replace (size self <? size old) with false
    by (symmetry; apply Z.ltb_ge; lia).
  rewrite Nat.add_0_r. apply replace_loop_split_loop. reflexivity.
Qed.

(** X9.  [replace] is [split] at the old string followed by [join] with the new
    one: for every encoding, every non-empty [old] that is not longer than
    the string, every replacement and every limit, [replace] ends as
    [split] with that limit ends, and where [split] returns the parts,
    [replace] returns their [join]. *)
Theorem replace_is_split_then_join (E : Encoding) (self old str : units)
  (count : Z) :
  size old <> 0 -> size old <= size self ->
  replace E self old str count
  = (parts <- split E self old count ;; Ok (join str parts)).
Proof.
  intros Ho Hs. unfold replace, split.
  replace (size old =? 0) with false by (symmetry; apply Z.eqb_neq; lia).
  replace (size self <? size old) with false
    by (symmetry; apply Z.ltb_ge; lia).
  rewrite Nat.add_0_r. apply replace_loop_split_loop. reflexivity.
Qed.

Lemma replace_is_split_then_join_witness :
  size (lit "aa") <> 0 /\ size (lit "aa") <= size (lit "aaa-aaa")
  /\ replace UTF8 (lit "aaa-aaa") (lit "aa") (lit "b") 1
     = (parts <- split UTF8 (lit "aaa-aaa") (lit "aa") 1 ;;
        Ok (join (lit "b") parts)).
Proof.
  split; [discriminate|]. split; [vm_compute; discriminate|].
  apply (replace_is_split_then_join UTF8 (lit "aaa-aaa") (lit "aa")
           (lit "b") 1).
  - discriminate.
  - vm_compute; discriminate.
Defined.

(** X10.  Replacing a string by itself changes nothing: whenever such a
    [replace] returns, it returns the string it was given. *)
Theorem replace_by_itself (E : Encoding) (self old : units) (count : Z)
  (r : units) :
  size old <> 0 -> size old <= size self ->
  replace E self old old count = Ok r -> r = self.
Proof.
  intros Ho Hs H. rewrite replace_split_join in H by assumption.
  inv_bind H. injection H as <-.
  unfold split in Ha.
  destruct (size old =? 0); [discriminate|].
  apply split_loop_join in Ha; [exact Ha|lia|reflexivity].
Qed.

Lemma replace_by_itself_witness :
  size (lit "ab") <> 0 /\ size (lit "ab") <= size (lit "abcab")
  /\ replace UTF8 (lit "abcab") (lit "ab") (lit "ab") npos
     = Ok (lit "abcab")
  /\ lit "abcab" = lit "abcab".
Proof.
  split; [discriminate|]. split; [vm_compute; discriminate|].
  split; [reflexivity|].
  apply (replace_by_itself UTF8 (lit "abcab") (lit "ab") npos (lit "abcab")).
  - discriminate.
  - vm_compute; discriminate.
  - reflexivity.
Defined.

(* ------------------------------------------------------------------ *)
(** ** Prefixes and suffixes *)

Lemma slice_app_left (a b : units) : slice (a ++ b) 0 (size a) = a.
Proof.
  unfold slice, size. simpl skipn. rewrite Z.sub_0_r, Nat2Z.id.
  rewrite firstn_app, Nat.sub_diag, firstn_all. simpl. apply app_nil_r.
Qed.

Lemma slice_app_right (a b : units) :
  slice (a ++ b) (size a) (size a + size b) = b.
Proof.
  unfold slice, size.
  replace (Z.of_nat (List.length a) + Z.of_nat (List.length b)
           - Z.of_nat (List.length a)) with (Z.of_nat (List.length b))
    by lia.
  rewrite !Nat2Z.id, skipn_app, skipn_all, Nat.sub_diag. simpl.
  apply firstn_all.
Qed.

Lemma startswith_whole (self prefix : units) :
  size self <= npos ->
  startswith self prefix 0 (size self)
  = if size self <? size prefix then Ok false
    else Ok (if list_eq_dec Z.eq_dec (slice self 0 (size prefix)) prefix
             then true else false).
Proof.
  intros Hs. pose proof (size_nonneg self). pose proof (size_nonneg prefix).
  unfold startswith. rewrite Z.min_id, Z.sub_0_r, size_t_small by lia.
  destruct (Z.ltb_spec (size self) (size prefix)); [reflexivity|].
  rewrite compare_eq_inside by lia. reflexivity.
Qed.

Lemma endswith_whole (self suffix : units) :
  size self <= npos ->
  endswith self suffix 0 (size self)
  = if size self <? size suffix then Ok false
    else Ok (if list_eq_dec Z.eq_dec
                  (slice self (size self - size suffix) (size self)) suffix
             then true else false).
Proof.
  intros Hs. pose proof (size_nonneg self). pose proof (size_nonneg suffix).
  unfold endswith. rewrite Z.min_id, Z.sub_0_r, size_t_small by lia.
  destruct (Z.ltb_spec (size self) (size suffix)); [reflexivity|].
  rewrite compare_eq_inside by lia.
  replace (size self - size suffix + size suffix) with (size self) by lia.
  reflexivity.
Qed.

(** X11.  [removeprefix] strips the prefix when the string begins with it and
    only then: from a string [prefix ++ rest] it returns [rest], and a
    string that is not of that form is returned as it is. *)
Theorem removeprefix_strips_the_prefix (self prefix : units) :
  size self <= npos ->
  (forall rest, self = prefix ++ rest -> removeprefix self prefix = Ok rest)
  /\ ((forall rest, self <> prefix ++ rest) ->
      removeprefix self prefix = Ok self).
Proof.
  intros Hs. pose proof (size_nonneg prefix) as Hp.
  unfold removeprefix. rewrite startswith_whole by exact Hs. split.
  - intros rest ->. rewrite size_app.
    pose proof (size_nonneg rest).
    replace (size prefix + size rest <? size prefix) with false
      by (symmetry; apply Z.ltb_ge; lia).
    rewrite slice_app_left.
    destruct (list_eq_dec Z.eq_dec prefix prefix) as [_|n];
      [|contradiction]. simpl. rewrite slice_app_right. reflexivity.
  - intros Hno. destruct (size self <? size prefix); [reflexivity|].
    destruct (list_eq_dec Z.eq_dec (slice self 0 (size prefix)) prefix)
      as [e|n]; [|reflexivity].
    exfalso. apply (Hno (slice self (size prefix) (size self))).
    assert (Hcat := slice_to_end self (size prefix) Hp).
    rewrite e in Hcat. symmetry. exact Hcat.
Qed.

Lemma removeprefix_strips_the_prefix_witness :
  size (lit "abc") <= npos
  /\ (forall rest, lit "abc" = lit "ab" ++ rest ->
                   removeprefix (lit "abc") (lit "ab") = Ok rest)
  /\ ((forall rest, lit "abc" <> lit "ab" ++ rest) ->
      removeprefix (lit "abc") (lit "ab") = Ok (lit "abc")).
Proof.
  split; [vm_compute; discriminate|].
  apply (removeprefix_strips_the_prefix (lit "abc") (lit "ab")).
  vm_compute; discriminate.
Defined.

(** X12.  [removesuffix] strips the suffix when the string ends with it and only
    then: from a string [rest ++ suffix] it returns [rest], and a string
    that is not of that form is returned as it is. *)
Theorem removesuffix_strips_the_suffix (self suffix : units) :
  size self <= npos ->
  (forall rest, self = rest ++ suffix -> removesuffix self suffix = Ok rest)
  /\ ((forall rest, self <> rest ++ suffix) ->
      removesuffix self suffix = Ok self).
Proof.
  intros Hs. pose proof (size_nonneg suffix) as Hp.
  unfold removesuffix. rewrite endswith_whole by exact Hs. split.
  - intros rest ->. rewrite size_app.
    pose proof (size_nonneg rest).
    replace (size rest + size suffix <? size suffix) with false
      by (symmetry; apply Z.ltb_ge; lia).
    replace (size rest + size suffix - size suffix) with (size rest) by lia.
    rewrite slice_app_right.
    destruct (list_eq_dec Z.eq_dec suffix suffix) as [_|n];
      [|contradiction]. simpl. rewrite slice_app_left. reflexivity.
  - intros Hno. destruct (Z.ltb_spec (size self) (size suffix));
      [reflexivity|].
    destruct (list_eq_dec Z.eq_dec
                (slice self (size self - size suffix) (size self)) suffix)
      as [e|n]; [|reflexivity].
    exfalso. apply (Hno (slice self 0 (size self - size suffix))).
    assert (Hcat := slice_to_end self (size self - size suffix) ltac:(lia)).
    rewrite e in Hcat. symmetry. exact Hcat.
Qed.

Lemma removesuffix_strips_the_suffix_witness :
  size (lit "abc") <= npos
  /\ (forall rest, lit "abc" = rest ++ lit "bc" ->
                   removesuffix (lit "abc") (lit "bc") = Ok rest)
  /\ ((forall rest, lit "abc" <> rest ++ lit "bc") ->
      removesuffix (lit "abc") (lit "bc") = Ok (lit "abc")).
Proof.
  split; [vm_compute; discriminate|].
  apply (removesuffix_strips_the_suffix (lit "abc") (lit "bc")).
  vm_compute; discriminate.
Defined.

(* ------------------------------------------------------------------ *)
(** ** Counting codepoints *)



Lemma rd_app_right (a b : units) (p k : Z) :
  0 <= p -> 0 <= k -> rd (a ++ b) (size a + p + k) = rd b (p + k).
Proof.
  intros Hp Hk. unfold rd, size.
  replace (Z.of_nat (List.length a) + p + k <? 0) with false
    by (symmetry; apply Z.ltb_ge; lia).
  replace (p + k <? 0) with false by (symmetry; apply Z.ltb_ge; lia).
  rewrite nth_error_app2 by lia.
  replace (Z.to_nat (Z.of_nat (List.length a) + p + k) - List.length a)%nat
    with (Z.to_nat (p + k)) by lia.
  reflexivity.
Qed.










(** Under UTF-16 the count of a string that ends in a high surrogate half
    rests on the unit behind the string, which the cursor reads to see
    whether a low half follows. *)
Lemma length_UTF16_reads_behind_a_trailing_half :
  length UTF16 [0xD83D] = Undefined
  /\ length UTF16 [0xDE00] = Ok 1
  /\ length UTF16 [0xD83D; 0xDE00] = Ok 1.
Proof. repeat split; vm_compute; reflexivity. Qed.










(* ------------------------------------------------------------------ *)
(** ** Truncation *)



Lemma ne_lt (E : Encoding) (iter done : Z) :
  iter <= done -> encoding_traits.ne E iter done = (iter <? done).
Proof.
  intros H. destruct (Z.ltb_spec iter done) as [Hlt|Hge].
  - apply ne_below. exact Hlt.
  - replace iter with done by lia.
    destruct E; simpl; unfold UTF8Iterator.ne, UTF16Iterator.ne;
      rewrite ?Z.ltb_irrefl, ?Z.eqb_refl; reflexivity.
Qed.








(* ------------------------------------------------------------------ *)
(** ** Quoting: the shape of the result *)

Ltac ascii_const := vm_compute; split; [discriminate|reflexivity].

Lemma char_bits_cases (E : Encoding) :
  char_bits E = 8 \/ char_bits E = 16 \/ char_bits E = 32.
Proof. destruct E; simpl; auto. Qed.

Lemma push_back_ascii (E : Encoding) (s : units) (v : Z) :
  ascii_unit v -> push_back (char_bits E) s v = s ++ [v].
Proof.
  unfold ascii_unit, push_back. intros Hv. f_equal. f_equal.
  apply Z.mod_small.
  destruct (char_bits_cases E) as [->|[->| ->]];
    [change (2 ^ 8) with 256|change (2 ^ 16) with 65536
    |change (2 ^ 32) with 4294967296]; lia.
Qed.

Lemma quote_loop_wrapped (From To : Encoding) (Ascii : bool) (self : units)
  (done : Z) (fuel : nat) :
  forall iter r out,
    quote_loop From To Ascii self fuel iter done r = Ok out ->
    exists x, out = r ++ x ++ [dquote].
Proof.
  assert (Hexit : forall r,
             exists x, push_back (char_bits To) r dquote
                       = r ++ x ++ [dquote]).
  { intros r. exists []. apply push_back_ascii. ascii_const. }
  induction fuel as [|fuel IH]; intros iter r out H; simpl in H.
  - destruct (encoding_traits.ne From iter done); [discriminate|].
    injection H as <-. apply Hexit.
  - destruct (encoding_traits.ne From iter done);
      [|injection H as <-; apply Hexit].
    inv_bind H. inv_bind H.
    destruct (a0 =? iter); [discriminate|].
    apply IH in H. destruct H as [x ->].
    destruct (quote_char_extends To Ascii (uint32_t a) r) as [y ->].
    exists (y ++ x). rewrite <- !app_assoc. reflexivity.
Qed.

(** X16.  Whatever the encodings, the mode and the string, what [quote] returns
    begins with a double quote and ends with one. *)
Theorem quote_wraps_in_double_quotes (From To : Encoding) (Ascii : bool)
  (self out : units) :
  quote From To Ascii self = Ok out ->
  exists body, out = [dquote] ++ body ++ [dquote].
Proof.
  intros H. unfold quote in H. apply quote_loop_wrapped in H.
  destruct H as [x ->]. exists x.
  rewrite (push_back_ascii To [] dquote); [reflexivity|].
  ascii_const.
Qed.

Lemma quote_wraps_in_double_quotes_witness :
  quote UTF8 UTF8 false (lit "a" ++ [9] ++ pencil)
  = Ok ([dquote] ++ (lit "a\t" ++ pencil) ++ [dquote])
  /\ exists body,
       [dquote] ++ (lit "a\t" ++ pencil) ++ [dquote]
       = [dquote] ++ body ++ [dquote].
Proof.
  split; [reflexivity|].
  apply (quote_wraps_in_double_quotes UTF8 UTF8 false
           (lit "a" ++ [9] ++ pencil)).
  reflexivity.
Defined.

Lemma nibble_ascii (ch shift : Z) : ascii_unit (nibble ch shift).
Proof.
  unfold nibble, digit_of.
  generalize (Z.to_nat (Z.land (Z.shiftr ch shift) 15)). intros n.
  do 17 (destruct n as [|n]; [ascii_const|]).
  ascii_const.
Qed.

Lemma fold_push_ascii (E : Encoding) (l : units) :
  Forall ascii_unit l ->
  forall r, fold_left (push_back (char_bits E)) l r = r ++ l.
Proof.
  induction 1 as [|v l Hv Hl IH]; intros r; simpl.
  - symmetry. apply app_nil_r.
  - rewrite IH, push_back_ascii by exact Hv.
    rewrite <- app_assoc. reflexivity.
Qed.

Lemma quote_char_ascii (To : Encoding) (ch : Z) (r : units) :
  0 <= ch -> Forall ascii_unit r ->
  Forall ascii_unit (quote_char To true ch r).
Proof.
  intros Hch Hr.
  assert (Hc : forall a : ascii, ascii_unit (c_ a) ->
                                 Forall ascii_unit [c_ a])
    by (intros a Ha; repeat constructor; apply Ha).
  assert (Hp : forall s v, Forall ascii_unit s -> ascii_unit v ->
                           Forall ascii_unit (push_back (char_bits To) s v)).
  { intros s v Hs Hv. rewrite push_back_ascii by exact Hv.
    apply Forall_app. split; [exact Hs|]. repeat constructor; apply Hv. }
  assert (Hk : forall v, v = 34 \/ v = 39 \/ v = 92 \/ v = 48 \/ v = 97
                         \/ v = 98 \/ v = 102 \/ v = 110 \/ v = 114
                         \/ v = 116 \/ v = 118 \/ v = 117 \/ v = 85
                         \/ v = 63 ->
                         ascii_unit v).
  { intros v Hv. unfold ascii_unit. lia. }
  unfold quote_char. cbv zeta.
  destruct ((ch =? c_ "'") || (ch =? dquote) || (ch =? backslash)) eqn:E1.
  { apply Hp; [apply Hp; [exact Hr|apply Hk; vm_compute; tauto]|].
    apply orb_true_iff in E1. destruct E1 as [E1|E1];
      [apply orb_true_iff in E1; destruct E1 as [E1|E1]|];
      apply Z.eqb_eq in E1; rewrite E1; ascii_const. }
  repeat match goal with
    | |- Forall ascii_unit (if ?c =? ?k then _ else _) =>
        destruct (c =? k);
        [repeat apply Hp; try exact Hr; apply Hk; vm_compute; tauto|]
    end.
  destruct ((ch <? 32) || (true && (128 <=? ch))) eqn:E2.
  - destruct (ch <? 65536); [|destruct (ch <? 1114112)].
    + rewrite fold_push_ascii; [apply Forall_app; split; [exact Hr|]|];
        repeat constructor; try apply nibble_ascii; apply Hk;
        vm_compute; tauto.
    + rewrite fold_push_ascii; [apply Forall_app; split; [exact Hr|]|];
        repeat constructor; try apply nibble_ascii; apply Hk;
        vm_compute; tauto.
    + apply Hp; [exact Hr|apply Hk; vm_compute; tauto].
  - apply orb_false_iff in E2. destruct E2 as [E2 E3]. simpl in E3.
    apply Z.ltb_ge in E2. apply Z.leb_gt in E3.
    apply Hp; [exact Hr|]. unfold ascii_unit. lia.
Qed.

Lemma quote_loop_ascii (From To : Encoding) (self : units) (done : Z)
  (fuel : nat) :
  forall iter r out,
    Forall ascii_unit r ->
    quote_loop From To true self fuel iter done r = Ok out ->
    Forall ascii_unit out.
Proof.
  assert (Hexit : forall r, Forall ascii_unit r ->
                            Forall ascii_unit
                              (push_back (char_bits To) r dquote)).
  { intros r Hr. rewrite push_back_ascii by (ascii_const).
    apply Forall_app. split; [exact Hr|].
    constructor; [ascii_const|constructor]. }
  induction fuel as [|fuel IH]; intros iter r out Hr H; simpl in H.
  - destruct (encoding_traits.ne From iter done); [discriminate|].
    injection H as <-. apply Hexit. exact Hr.
  - destruct (encoding_traits.ne From iter done);
      [|injection H as <-; apply Hexit; exact Hr].
    inv_bind H. inv_bind H.
    destruct (a0 =? iter); [discriminate|].
    apply IH in H; [exact H|].
    apply quote_char_ascii; [|exact Hr].
    unfold uint32_t. apply Z.mod_pos_bound. lia.
Qed.

(** X17.  In its ASCII mode [quote] writes ASCII only: whatever the encodings and
    whatever the units of the string, well formed or not, every unit of the
    result is below 0x80. *)
Theorem quote_ascii_mode_writes_ascii (From To : Encoding)
  (self out : units) :
  quote From To true self = Ok out -> Forall ascii_unit out.
Proof.
  intros H. unfold quote in H. apply quote_loop_ascii in H; [exact H|].
  rewrite push_back_ascii by (ascii_const).
  constructor; [ascii_const|constructor].
Qed.

Lemma quote_ascii_mode_writes_ascii_witness :
  quote UTF8 UTF16 true (lit "a" ++ pencil ++ [255])
  = Ok ([dquote] ++ lit "a\u270f?" ++ [dquote])
  /\ Forall ascii_unit ([dquote] ++ lit "a\u270f?" ++ [dquote]).
Proof.
  split; [reflexivity|].
  apply (quote_ascii_mode_writes_ascii UTF8 UTF16
           (lit "a" ++ pencil ++ [255])).
  reflexivity.
Defined.

(* ------------------------------------------------------------------ *)
(** ** Integers in replacement fields *)

Lemma digit_of_ascii (digits : units) (d : Z) :
  Forall ascii_unit digits -> ascii_unit (digit_of digits d).
Proof.
  intros H. unfold digit_of.
  destruct (nth_in_or_default (Z.to_nat d) digits 0) as [Hin| ->].
  - rewrite Forall_forall in H. apply H. exact Hin.
  - unfold ascii_unit. lia.
Qed.

Lemma number_digits_ascii (digits : units) (base : Z) :
  Forall ascii_unit digits ->
  forall fuel n number,
    Forall ascii_unit number ->
    Forall ascii_unit (number_digits fuel digits base n number).
Proof.
  intros Hd. induction fuel as [|fuel IH]; intros n number Hn; simpl;
    [exact Hn|].
  assert (Forall ascii_unit (number ++ [digit_of digits (n mod base)])).
  { apply Forall_app. split; [exact Hn|].
    constructor; [apply digit_of_ascii; exact Hd|constructor]. }
  destruct (0 <? n / base); [apply IH|]; assumption.
Qed.

Lemma digits_lower_ascii : Forall ascii_unit digits_lower.
Proof. repeat (constructor; [ascii_const|]). constructor. Qed.

Lemma format__plain_is_str__ (E : Encoding) (n : Z) :
  int64_proxy.format__ E n Specifier.initial = Ok (int64_proxy.str__ n).
Proof.
  unfold int64_proxy.format__, int64_proxy.str__, Specifier.initial.
  cbv -[number_digits Z.ltb push_back rev fold_left app
        int64_proxy.magnitude char_bits digits_lower].
  rewrite fold_push_ascii
    by (apply number_digits_ascii; [apply digits_lower_ascii|constructor]).
  cbn [app]. f_equal.
  destruct (n <? 0).
  - rewrite rev_app_distr. change (rev [45]) with [45]. f_equal.
    apply (push_back_ascii E [] 45). ascii_const.
  - reflexivity.
Qed.

Lemma parse_empty (E : Encoding) : Specifier.parse E [] = Ok Specifier.initial.
Proof. reflexivity. Qed.

(** *** Templates without fields *)

Lemma rd_In (s : units) (i u : Z) : rd s i = Ok u -> In u s.
Proof.
  unfold rd. destruct (i <? 0); [discriminate|].
  destruct (nth_error s (Z.to_nat i)) eqn:H; [|discriminate].
  intros [= <-]. apply nth_error_In in H. exact H.
Qed.

Lemma slice_all (s : units) : slice s 0 (size s) = s.
Proof.
  pose proof (slice_to_end s 0 ltac:(lia)) as H.
  unfold slice at 1 in H. simpl in H. exact H.
Qed.

Lemma format1_iter_plain (E : Encoding) (self : units)
  (fomatters : list Formatter) (count : Z) (st st' : fstate) :
  ~ In (c_ "{") self -> ~ In (c_ "}") self ->
  format1_iter E self fomatters count st = Ok st' ->
  encoding_traits.incr E self (iter st) = Ok (iter st')
  /\ from st' = from st /\ result st' = result st
  /\ position st' = position st.
Proof.
  intros Hl Hr H. unfold format1_iter in H. inv_bind H.
  apply rd_In in Ha.
  destruct (Z.eqb_spec a (c_ "{")) as [e|_]; [subst a; contradiction|].
  destruct (Z.eqb_spec a (c_ "}")) as [e|_]; [subst a; contradiction|].
  inv_bind H. injection H as <-. simpl. auto.
Qed.

Lemma format1_loop_plain (E : Encoding) (self : units)
  (fomatters : list Formatter) (count : Z) :
  ~ In (c_ "{") self -> ~ In (c_ "}") self ->
  forall fuel st r,
    from st = 0 -> result st = [] ->
    format1_loop E self fomatters count fuel st = Ok r ->
    r = (self, position st).
Proof.
  intros Hl Hr.
  assert (Hexit : forall st, from st = 0 -> result st = [] ->
             (result st ++ slice self (from st) (size self), position st)
             = (self, position st)).
  { intros st -> ->. simpl. rewrite slice_all. reflexivity. }
  induction fuel as [|fuel IH]; intros st r Hf Hres H; simpl in H;
    (destruct (iter st <? size self);
     [|injection H as <-; apply Hexit; assumption]); [discriminate|].
  inv_bind H. destruct (iter a =? iter st); [discriminate|].
  apply format1_iter_plain in Ha; [|assumption|assumption].
  destruct Ha as [_ [Hf' [Hr' Hp']]].
  apply IH in H; [|congruence|congruence]. rewrite H, Hp'. reflexivity.
Qed.

Lemma format1_loop_plain_returns (E : Encoding) (self : units)
  (fomatters : list Formatter) (count : Z) :
  encoding_traits.multichar E = false ->
  ~ In (c_ "{") self -> ~ In (c_ "}") self ->
  forall fuel st,
    0 <= iter st -> size self - iter st < Z.of_nat fuel ->
    exists r, format1_loop E self fomatters count fuel st = Ok r.
Proof.
  intros HE Hl Hr.
  induction fuel as [|fuel IH]; intros st H0 Hfuel; simpl;
    (destruct (Z.ltb_spec (iter st) (size self)) as [Hlt|Hge];
     [|eexists; reflexivity]); [lia|].
  unfold format1_iter.
  destruct (rd_inside self (iter st) ltac:(lia)) as [c Hc].
  rewrite Hc. simpl. apply rd_In in Hc.
  destruct (Z.eqb_spec c (c_ "{")) as [e|_]; [subst c; contradiction|].
  destruct (Z.eqb_spec c (c_ "}")) as [e|_]; [subst c; contradiction|].
  rewrite (incr_single_unit E self (iter st) HE). simpl.
  replace (iter st + 1 =? iter st) with false
    by (symmetry; apply Z.eqb_neq; lia).
  apply IH; simpl; lia.
Qed.

(** X18.  A template without braces is returned as it is, whatever the
    arguments: whenever [format] returns it returns the template, and under
    an encoding whose cursor is one unit wide it does return. *)
Theorem format_without_fields (E : Encoding) (self : units)
  (values : list value) :
  ~ In (c_ "{") self -> ~ In (c_ "}") self ->
  (forall r, format E self values = Ok r -> r = self)
  /\ (encoding_traits.multichar E = false ->
      format E self values = Ok self).
Proof.
  intros Hl Hr.
  assert (Hpart : forall r, format E self values = Ok r -> r = self).
  { intros r H. unfold format in H. inv_bind H. injection H as <-.
    unfold format1 in Ha. apply format1_loop_plain in Ha; try assumption;
      try reflexivity. rewrite Ha. reflexivity. }
  split; [exact Hpart|]. intros HE.
  destruct (format1_loop_plain_returns E self (map (formatter E) values)
              (Z.of_nat (List.length values)) HE Hl Hr
              (S (List.length self))
              {| iter := 0; from := 0; result := []; position := 0 |})
    as [r H].
  - simpl. lia.
  - simpl. unfold size. lia.
  - assert (Hf : format E self values = Ok (fst r))
      by (unfold format, format1; rewrite H; reflexivity).
    rewrite Hf. f_equal. apply Hpart. exact Hf.
Qed.

Lemma format_without_fields_witness :
  ~ In (c_ "{") (lit "a" ++ pencil) /\ ~ In (c_ "}") (lit "a" ++ pencil)
  /\ (forall r, format UTF8 (lit "a" ++ pencil) [Int64 1] = Ok r ->
                r = lit "a" ++ pencil)
  /\ (encoding_traits.multichar UTF8 = false ->
      format UTF8 (lit "a" ++ pencil) [Int64 1] = Ok (lit "a" ++ pencil)).
Proof.
  assert (Hl : ~ In (c_ "{") (lit "a" ++ pencil))
    by (vm_compute; intuition discriminate).
  assert (Hr : ~ In (c_ "}") (lit "a" ++ pencil))
    by (vm_compute; intuition discriminate).
  split; [exact Hl|]. split; [exact Hr|].
  apply (format_without_fields UTF8 (lit "a" ++ pencil) [Int64 1] Hl Hr).
Defined.

(* ------------------------------------------------------------------ *)
(** ** Splitting from the right *)

Lemma decr_moves_back (E : Encoding) (s : units) (p q : Z) :
  encoding_traits.decr E s p = Ok q -> q < p.
Proof.
  intros H. destruct E; cbv [encoding_traits.decr UTF32Iterator.decr] in H;
    try (injection H as <-; lia).
  - unfold UTF8Iterator.decr in H. cbv [bind] in H.
    repeat match type of H with
      | match rd ?s ?i with _ => _ end = _ =>
          destruct (rd s i); try discriminate
      | (if ?b then _ else _) = _ => destruct b
      end; injection H as <-; lia.
  - unfold UTF16Iterator.decr in H. cbv [bind] in H.
    repeat match type of H with
      | match rd ?s ?i with _ => _ end = _ =>
          destruct (rd s i); try discriminate
      | (if ?b then _ else _) = _ => destruct b
      end; injection H as <-; lia.
Qed.

Lemma rsplit_separator_loop_join (E : Encoding) (self sep : units)
  (done : Z) (fuel : nat) :
  forall maxsplit prev it result parts,
    0 <= prev <= size self -> it <= prev ->
    List.concat (map (fun p => sep ++ p) (rev result))
    = slice self prev (size self) ->
    rsplit_separator_loop E self sep fuel maxsplit prev done it result
    = Ok parts ->
    join sep parts = self.
Proof.
  assert (Hexit : forall prev result,
             0 <= prev <= size self ->
             List.concat (map (fun p => sep ++ p) (rev result))
             = slice self prev (size self) ->
             join sep (rev (result ++ [slice self 0 prev])) = self).
  { intros prev result Hp Hinv.
    rewrite rev_app_distr. simpl rev. simpl app.
    rewrite join_cons, Hinv. apply slice_to_end. lia. }
  induction fuel as [|fuel IH];
    intros maxsplit prev it result parts Hp Hit Hinv H; simpl in H.
  - destruct (negb (maxsplit =? 0) && encoding_traits.ne E done it);
      [discriminate|].
    injection H as <-. apply Hexit; assumption.
  - destruct (negb (maxsplit =? 0) && encoding_traits.ne E done it);
      [|injection H as <-; apply Hexit; assumption].
    inv_bind H. apply compare_eq_Ok in Ha. destruct Ha as [H0 [H1 Hm]].
    replace (it - size sep + size sep) with it in * by lia.
    pose proof (size_nonneg sep) as Hsep.
    destruct a.
    + apply IH in H; [exact H|lia|lia|].
      rewrite rev_app_distr. simpl rev. simpl app.
      rewrite map_cons, concat_cons. unfold units in *. rewrite Hinv.
      rewrite <- (Hm eq_refl) at 1.
      rewrite slice_app by lia. rewrite slice_app by lia. reflexivity.
    + inv_bind H. apply decr_moves_back in Ha.
      apply IH in H; [exact H|lia|lia|exact Hinv].
Qed.

(** X19.  Whenever the separator [rsplit] returns, for any encoding and any
    bound on the number of splits, joining its parts with the separator
    gives the string back. *)
Theorem rsplit_join_round_trip (E : Encoding) (self sep : units)
  (maxsplit : Z) (parts : list units) :
  rsplit_separator E self sep maxsplit = Ok parts -> join sep parts = self.
Proof.
  unfold rsplit_separator. intros H.
  destruct (size sep =? 0); [discriminate|].
  apply rsplit_separator_loop_join in H; [exact H| | |].
  - pose proof (size_nonneg self). lia.
  - lia.
  - simpl. unfold slice. rewrite Z.sub_diag. reflexivity.
Qed.

Lemma rsplit_join_round_trip_witness :
  rsplit_separator UTF8 (lit "a,b,,c") (lit ",") 2
  = Ok [lit "a,b"; []; lit "c"]
  /\ join (lit ",") [lit "a,b"; []; lit "c"] = lit "a,b,,c".
Proof.
  split; [reflexivity|].
  apply (rsplit_join_round_trip UTF8 (lit "a,b,,c") (lit ",") 2).
  reflexivity.
Defined.

(* ------------------------------------------------------------------ *)
(** ** Splitting on whitespace *)

Lemma slice_empty (s : units) (p : Z) : slice s p p = [].
Proof. unfold slice. rewrite Z.sub_diag. reflexivity. Qed.

Lemma slice_cons (s : units) (p q c : Z) :
  rd s p = Ok c -> p < q -> slice s p q = c :: slice s (p + 1) q.
Proof.
  intros Hrd Hq. apply rd_range in Hrd as Hr.
  unfold rd in Hrd.
  replace (p <? 0) with false in Hrd by (symmetry; apply Z.ltb_ge; lia).
  destruct (nth_error s (Z.to_nat p)) as [u|] eqn:Hn; [|discriminate].
  injection Hrd as ->. unfold slice.
  replace (Z.to_nat (q - p)) with (S (Z.to_nat (q - (p + 1)))) by lia.
  replace (Z.to_nat (p + 1)) with (S (Z.to_nat p)) by lia.
  destruct (nth_error_split s _ Hn) as [l1 [l2 [-> Hlen]]].
  rewrite <- Hlen.
  rewrite skipn_app, skipn_all, Nat.sub_diag.
  replace (S (List.length l1)) with (List.length (l1 ++ [c]))
    by (rewrite length_app; simpl; lia).
  replace (l1 ++ c :: l2) with ((l1 ++ [c]) ++ l2)
    by (rewrite <- app_assoc; reflexivity).
  rewrite skipn_app, skipn_all, Nat.sub_diag. reflexivity.
Qed.

Lemma tail_is_no_space (b : Z) :
  UTF8Iterator.tail b = true -> is_space b = false.
Proof.
  intros H. destruct (is_space b) eqn:Hs; [|reflexivity].
  apply is_space_cases in Hs.
  destruct Hs as [->|[->|[->|[->|[->| ->]]]]]; discriminate.
Qed.

Lemma surrogate_is_no_space (b : Z) :
  UTF16Iterator.is_surrogate_last b = true -> is_space b = false.
Proof.
  intros H. destruct (is_space b) eqn:Hs; [|reflexivity].
  apply is_space_cases in Hs.
  destruct Hs as [->|[->|[->|[->|[->| ->]]]]]; discriminate.
Qed.

(** The units a step takes after a unit that is no whitespace are no
    whitespace either: they are UTF-8 tails or a low surrogate half. *)
Lemma incr_over_no_space (E : Encoding) (s : units) (p next c : Z) :
  rd s p = Ok c -> is_space c = false ->
  encoding_traits.incr E s p = Ok next -> p < next ->
  Forall (fun u => is_space u = false) (slice s p next).
Proof.
  intros Hc Hs H Hp.
  assert (H1 : Forall (fun u => is_space u = false) (slice s p (p + 1))).
  { rewrite (slice_cons s p (p + 1) c Hc) by lia. rewrite slice_empty.
    constructor; [exact Hs|constructor]. }
  destruct E; cbv [encoding_traits.incr UTF32Iterator.incr] in H;
    try (injection H as <-; exact H1).
  - unfold UTF8Iterator.incr in H. cbv [bind] in H. rewrite Hc in H.
    repeat match type of H with
      | match rd ?s ?i with _ => _ end = _ =>
          let e := fresh "e" in
          destruct (rd s i) eqn:e; try discriminate
      | (if UTF8Iterator.tail ?b then _ else _) = _ =>
          let t := fresh "t" in
          destruct (UTF8Iterator.tail b) eqn:t;
          [apply tail_is_no_space in t|]
      | (if ?b then _ else _) = _ => destruct b
      end; injection H as <-; try lia; try exact H1;
      repeat match goal with
        | e : rd s ?i = Ok ?u |- Forall _ (slice s ?j ?q) =>
            first [constr_eq j i|replace j with i by lia];
            rewrite (slice_cons s i q u e) by lia; constructor;
            [assumption|]
        | |- Forall _ (slice s ?j ?q) =>
            replace q with j by lia; rewrite slice_empty; constructor
        end.
  - unfold UTF16Iterator.incr in H. cbv [bind] in H.
    replace (p + 1 - 1) with p in H by lia. rewrite Hc in H.
    repeat match type of H with
      | match rd ?s ?i with _ => _ end = _ =>
          let e := fresh "e" in
          destruct (rd s i) eqn:e; try discriminate
      | (if UTF16Iterator.is_surrogate_last ?b then _ else _) = _ =>
          let t := fresh "t" in
          destruct (UTF16Iterator.is_surrogate_last b) eqn:t;
          [apply surrogate_is_no_space in t|]
      | (if ?b then _ else _) = _ => destruct b
      end; injection H as <-; try lia; try exact H1.
    rewrite (slice_cons s p (p + 1 + 1) c Hc) by lia.
    constructor; [exact Hs|].
    rewrite (slice_cons s (p + 1) (p + 1 + 1) _ e) by lia.
    rewrite slice_empty. constructor; [assumption|constructor].
Qed.

Lemma split_skip_spec (self : units) :
  forall fuel p q,
    split_skip self fuel p = Ok q ->
    p <= q
    /\ Forall (fun u => is_space u = true) (slice self p q)
    /\ exists c, rd self q = Ok c /\ is_space c = false.
Proof.
  induction fuel as [|fuel IH]; intros p q H; simpl in H; inv_bind H;
    destruct (is_space a) eqn:Hs; try discriminate;
    try (injection H as <-; split; [lia|]; rewrite slice_empty;
         split; [constructor|exists a; split; assumption]).
  apply IH in H. destruct H as [Hle [Hall Hq]].
  split; [lia|]. split; [|exact Hq].
  rewrite (slice_cons self p q a Ha) by lia.
  constructor; assumption.
Qed.

Lemma filter_no_space (l : units) :
  Forall (fun u => is_space u = false) l ->
  filter (fun c => negb (is_space c)) l = l.
Proof.
  induction 1 as [|x l Hx Hl IH]; simpl; [reflexivity|].
  rewrite Hx, IH. reflexivity.
Qed.

Lemma filter_all_space (l : units) :
  Forall (fun u => is_space u = true) l ->
  filter (fun c => negb (is_space c)) l = [].
Proof.
  induction 1 as [|x l Hx Hl IH]; simpl; [reflexivity|].
  rewrite Hx, IH. reflexivity.
Qed.

Lemma split_whitespace_loop_O (E : Encoding) (self : units)
  (maxsplit prev it done : Z) (result : list units) :
  split_whitespace_loop E self O maxsplit prev it done result
  = if negb (maxsplit =? 0) && encoding_traits.ne E it done then OutOfFuel
    else Ok (result ++ [slice self prev (size self)]).
Proof. reflexivity. Qed.

Lemma split_whitespace_loop_S (E : Encoding) (self : units) (fuel : nat)
  (maxsplit prev it done : Z) (result : list units) :
  split_whitespace_loop E self (S fuel) maxsplit prev it done result
  = if negb (maxsplit =? 0) && encoding_traits.ne E it done then
      c <- rd self it ;;
      if is_space c then
        ptr <- split_skip self (S (List.length self)) it ;;
        split_whitespace_loop E self fuel (size_t (maxsplit - 1))
                              ptr ptr done (result ++ [slice self prev it])
      else
        next <- encoding_traits.incr E self it ;;
        if next =? it then Diverge
        else split_whitespace_loop E self fuel maxsplit prev next done result
    else Ok (result ++ [slice self prev (size self)]).
Proof. reflexivity. Qed.

Lemma split_whitespace_loop_spec (E : Encoding) (self : units) :
  forall fuel maxsplit prev it result parts,
    0 <= prev <= it -> it <= size self ->
    size self - it < maxsplit <= npos ->
    Forall (Forall (fun u => is_space u = false)) result ->
    Forall (fun u => is_space u = false) (slice self prev it) ->
    List.concat result ++ slice self prev it
    = filter (fun c => negb (is_space c)) (slice self 0 it) ->
    split_whitespace_loop E self fuel maxsplit prev it (size self) result
    = Ok parts ->
    Forall (Forall (fun u => is_space u = false)) parts
    /\ List.concat parts = filter (fun c => negb (is_space c)) self.
Proof.
  induction fuel as [|fuel IH];
    intros maxsplit prev it result parts Hp Hit Hm Hres Hcur Hcat H;
    [rewrite split_whitespace_loop_O in H
    |rewrite split_whitespace_loop_S in H];
    rewrite ne_lt in H by lia;
    (replace (maxsplit =? 0) with false in H
      by (symmetry; apply Z.eqb_neq; lia)); cbn [negb andb] in H;
    (destruct (Z.ltb_spec it (size self)) as [Hlt|Hge];
     [|injection H as <-; replace it with (size self) in * by lia; split;
       [apply Forall_app; split; [exact Hres|];
        constructor; [exact Hcur|constructor]
       |rewrite concat_app; simpl; rewrite app_nil_r;
        unfold units in *; rewrite Hcat, slice_all; reflexivity]]);
    [discriminate|].
  inv_bind H. destruct (is_space a) eqn:Hs.
  - inv_bind H. apply split_skip_spec in Ha0.
    destruct Ha0 as [Hle [Hall [c [Hc Hcs]]]].
    assert (it < a0).
    { destruct (Z.eq_dec it a0) as [e|]; [|lia]. subst a0.
      rewrite Ha in Hc. injection Hc as ->. congruence. }
    apply rd_range in Hc as Hr.
    rewrite size_t_small in H by lia.
    apply IH in H; [exact H|lia|lia|lia| | |].
    + apply Forall_app. split; [exact Hres|].
      constructor; [exact Hcur|constructor].
    + rewrite slice_empty. constructor.
    + rewrite slice_empty, app_nil_r, concat_app. simpl.
      rewrite app_nil_r. unfold units in *. rewrite Hcat.
      rewrite <- (slice_app self 0 it a0) by lia.
      rewrite filter_app, (filter_all_space _ Hall), app_nil_r.
      reflexivity.
  - inv_bind H. destruct (Z.eqb_spec a0 it) as [e|n]; [discriminate|].
    apply incr_moves_forward in Ha0 as Hf.
    apply incr_within in Ha0 as Hw; [|lia].
    pose proof (incr_over_no_space E self it a0 a Ha Hs Ha0 ltac:(lia))
      as Hstep.
    apply IH in H; [exact H|lia|lia|lia|exact Hres| |].
    + rewrite <- (slice_app self prev it a0) by lia.
      apply Forall_app. split; assumption.
    + rewrite <- (slice_app self prev it a0) by lia.
      rewrite <- (slice_app self 0 it a0) by lia.
      rewrite filter_app, (filter_no_space _ Hstep).
      rewrite app_assoc. unfold units in *. rewrite Hcat. reflexivity.
Qed.

(** X20.  The whitespace [split] with room for every split cuts the whitespace
    out and nothing else: whenever it returns, no part holds a whitespace
    unit, and the parts put together are the string without its whitespace
    units. *)
Theorem split_whitespace_removes_whitespace (E : Encoding) (self : units)
  (maxsplit : Z) (parts : list units) :
  size self < maxsplit <= npos ->
  split_whitespace E self maxsplit = Ok parts ->
  Forall (Forall (fun u => is_space u = false)) parts
  /\ List.concat parts = filter (fun c => negb (is_space c)) self.
Proof.
  intros Hm H. unfold split_whitespace in H.
  pose proof (size_nonneg self).
  apply split_whitespace_loop_spec in H; try assumption; try lia.
  - constructor.
  - rewrite slice_empty. constructor.
  - rewrite slice_empty. reflexivity.
Qed.

Lemma split_whitespace_removes_whitespace_witness :
  size (lit "ab  c" ++ [9] ++ pencil) < npos <= npos
  /\ split_whitespace UTF8 (lit "ab  c" ++ [9] ++ pencil) npos
     = Ok [lit "ab"; lit "c"; pencil]
  /\ Forall (Forall (fun u => is_space u = false))
            [lit "ab"; lit "c"; pencil]
  /\ List.concat [lit "ab"; lit "c"; pencil]
     = filter (fun c => negb (is_space c)) (lit "ab  c" ++ [9] ++ pencil).
Proof.
  split; [split; [reflexivity|discriminate]|].
  split; [reflexivity|].
  apply (split_whitespace_removes_whitespace UTF8
           (lit "ab  c" ++ [9] ++ pencil) npos).
  - split; [reflexivity|discriminate].
  - reflexivity.
Defined.

(* ------------------------------------------------------------------ *)
(** ** ASCII text *)

Lemma ascii_is_no_surrogate (u : Z) :
  ascii_unit u -> UTF16Iterator.is_surrogate_first u = false.
Proof.
  intros H.
  assert (Hall : negb (UTF16Iterator.is_surrogate_first u) = true).
  { apply (forallb_range
             (fun u => negb (UTF16Iterator.is_surrogate_first u)) 0 128);
      [vm_compute; reflexivity|exact H]. }
  apply negb_true_iff in Hall. exact Hall.
Qed.

Lemma char_ascii (u : Z) : ascii_unit u -> char u = u.
Proof.
  intros H. unfold ascii_unit in H. unfold char, signed.
  change (2 ^ 8) with 256. change (2 ^ (8 - 1)) with 128.
  rewrite Z.mod_small by lia.
  replace (u <? 128) with true by (symmetry; apply Z.ltb_lt; lia).
  reflexivity.
Qed.

Lemma deref_ascii (E : Encoding) (s : units) (p u : Z) :
  E <> UTF32 -> rd s p = Ok u -> ascii_unit u ->
  encoding_traits.deref E s p = Ok u.
Proof.
  intros HE Hrd Hu. pose proof Hu as Hu'. unfold ascii_unit in Hu'.
  destruct E; cbv [encoding_traits.deref]; try contradiction.
  - rewrite Hrd. simpl. rewrite char_ascii by exact Hu. reflexivity.
  - exact Hrd.
  - rewrite Hrd. simpl. rewrite int32_t_small by lia. reflexivity.
  - unfold UTF8Iterator.deref. rewrite Hrd. simpl.
    unfold UTF8Iterator.ascii.
    replace (u <? 128) with true by (symmetry; apply Z.ltb_lt; lia).
    reflexivity.
  - unfold UTF16Iterator.deref. rewrite Hrd. simpl.
    rewrite ascii_is_no_surrogate by exact Hu. reflexivity.
Qed.

Lemma incr_ascii (E : Encoding) (s : units) (p u : Z) :
  rd s p = Ok u -> ascii_unit u ->
  encoding_traits.incr E s p = Ok (p + 1).
Proof.
  intros Hrd Hu. pose proof Hu as Hu'. unfold ascii_unit in Hu'.
  destruct E; cbv [encoding_traits.incr UTF32Iterator.incr];
    try reflexivity.
  - unfold UTF8Iterator.incr. rewrite Hrd. simpl.
    unfold UTF8Iterator.head.
    replace (192 <? u) with false by (symmetry; apply Z.ltb_ge; lia).
    reflexivity.
  - unfold UTF16Iterator.incr. cbv zeta.
    replace (p + 1 - 1) with p by lia. rewrite Hrd. simpl.
    rewrite ascii_is_no_surrogate by exact Hu. reflexivity.
Qed.

Lemma append_ascii (E : Encoding) (str : units) (cp : Z) :
  E <> UTF32 -> ascii_unit cp ->
  encoding_traits.append E (char_bits E) str cp = (str ++ [cp], true).
Proof.
  intros HE Hu. pose proof Hu as Hu'. unfold ascii_unit in Hu'.
  destruct E; cbv [encoding_traits.append]; try contradiction;
    try (rewrite char_ascii, push_back_ascii by exact Hu; reflexivity).
  - unfold UTF8Encoder.append.
    replace (cp <? 128) with true by (symmetry; apply Z.ltb_lt; lia).
    rewrite char_ascii, push_back_ascii by exact Hu. reflexivity.
  - unfold UTF16Encoder.append, UTF8Encoder.surrogate_test.
    replace (cp <? 65536) with true by (symmetry; apply Z.ltb_lt; lia).
    change (if 63488 =? 216 then 1 else 0) with 0.
    rewrite Z.land_0_r. change (negb (0 =? 0)) with false. cbv iota.
    unfold push_back. simpl char_bits. change (2 ^ 16) with 65536.
    rewrite Z.mod_mod by lia. rewrite Z.mod_small by lia. reflexivity.
Qed.

Lemma rd_app_middle (pre tl : units) (c : Z) :
  rd (pre ++ c :: tl) (size pre) = Ok c.
Proof.
  pose proof (size_nonneg pre).
  replace (size pre) with (size pre + 0 + 0) by lia.
  rewrite rd_app_right by lia. reflexivity.
Qed.

(** ** [translate] on ASCII text *)

Lemma translate_loop_O (E : Encoding) (self : units) (table : Z -> Z)
  (mode : Errors) (it done : Z) (result : units) :
  encoding_traits.ne E it done = false ->
  forall fuel,
    translate_loop E self table mode fuel it done result = Ok result.
Proof. intros H fuel. destruct fuel; simpl; rewrite H; reflexivity. Qed.

Lemma translate_loop_ascii (E : Encoding) (table : Z -> Z) (mode : Errors) :
  E <> UTF32 ->
  forall rest pre fuel result,
    Forall (fun c => ascii_unit c
                     /\ (table c = -1 \/ ascii_unit (table c))) rest ->
    (List.length rest < fuel)%nat ->
    translate_loop E (pre ++ rest) table mode fuel (size pre)
                   (size (pre ++ rest)) result
    = Ok (result
          ++ flat_map (fun c => if table c =? -1 then [] else [table c])
                      rest).
Proof.
  intros HE. induction rest as [|c rest IH];
    intros pre fuel result Hall Hfuel.
  - rewrite app_nil_r. simpl flat_map. rewrite app_nil_r.
    apply translate_loop_O. rewrite ne_lt by lia. apply Z.ltb_irrefl.
  - destruct fuel as [|fuel]; [simpl in Hfuel; lia|].
    inversion Hall as [|c' rest' [Hc Ht] Hrest]; subst.
    pose proof Hc as Hc'. unfold ascii_unit in Hc'.
    simpl translate_loop.
    rewrite ne_below
      by (rewrite size_app; unfold size; simpl List.length; lia).
    rewrite (deref_ascii E _ _ c HE (rd_app_middle pre rest c) Hc).
    rewrite (incr_ascii E _ _ c (rd_app_middle pre rest c) Hc).
    cbv zeta. cbn [bind].
    replace (c <? 0) with false by (symmetry; apply Z.ltb_ge; lia).
    replace (size pre + 1 =? size pre) with false
      by (symmetry; apply Z.eqb_neq; lia).
    match goal with
    | |- bind ?m _ = _ =>
        assert (Hstep : m = Ok (result ++ if table c =? -1 then []
                                          else [table c]))
    end.
    { destruct Ht as [Ht|Ht].
      - rewrite Ht. change (int32_t (-1) =? -1) with true.
        change (-1 =? -1) with true. rewrite app_nil_r.
        destruct mode; reflexivity.
      - pose proof Ht as Ht'. unfold ascii_unit in Ht'.
        rewrite int32_t_small by lia.
        replace (table c =? -1) with false
          by (symmetry; apply Z.eqb_neq; lia).
        unfold uint32_t. rewrite Z.mod_small by lia.
        rewrite append_ascii by assumption.
        destruct mode; reflexivity. }
    rewrite Hstep. cbn [bind].
    replace (pre ++ c :: rest) with ((pre ++ [c]) ++ rest)
      by (rewrite <- app_assoc; reflexivity).
    replace (size pre + 1) with (size (pre ++ [c]))
      by (rewrite size_app; reflexivity).
    rewrite IH; [|exact Hrest|simpl in Hfuel; lia].
    simpl flat_map. rewrite <- app_assoc. reflexivity.
Qed.

(** X21.  [translate] maps ASCII text unit by unit: when the string is ASCII and
    the table sends each of its units to an ASCII value or to -1, the
    result is the string of the values, with the units sent to -1 left out.
    This holds for the three error modes and for every encoding but UTF-32,
    whose cursor rejects every even unit. *)
Theorem translate_maps_ascii_text (E : Encoding) (self : units)
  (table : Z -> Z) (mode : Errors) :
  E <> UTF32 ->
  Forall ascii_unit self ->
  (forall c, In c self -> table c = -1 \/ ascii_unit (table c)) ->
  translate E self table mode
  = Ok (flat_map (fun c => if table c =? -1 then [] else [table c]) self).
Proof.
  intros HE Hs Ht. unfold translate.
  apply (translate_loop_ascii E table mode HE self [] _ []).
  - rewrite Forall_forall in *. intros c Hc. split; auto.
  - lia.
Qed.

Lemma translate_maps_ascii_text_witness :
  UTF8 <> UTF32 /\ Forall ascii_unit (lit "a-b")
  /\ (forall c, In c (lit "a-b") ->
                (fun ch => if ch =? 45 then -1 else ch - 32) c = -1
                \/ ascii_unit ((fun ch => if ch =? 45 then -1 else ch - 32)
                                 c))
  /\ translate UTF8 (lit "a-b")
       (fun ch => if ch =? 45 then -1 else ch - 32) Strict
     = Ok (flat_map
             (fun c =>
                if (fun ch => if ch =? 45 then -1 else ch - 32) c =? -1
                then []
                else [(fun ch => if ch =? 45 then -1 else ch - 32) c])
             (lit "a-b")).
Proof.
  assert (Hs : Forall ascii_unit (lit "a-b"))
    by (repeat (constructor; [ascii_const|]); constructor).
  assert (Ht : forall c, In c (lit "a-b") ->
             (fun ch => if ch =? 45 then -1 else ch - 32) c = -1
             \/ ascii_unit ((fun ch => if ch =? 45 then -1 else ch - 32)
                              c)).
  { intros c [<-|[<-|[<-|[]]]];
      [right; ascii_const|left; reflexivity|right; ascii_const]. }
  split; [discriminate|]. split; [exact Hs|]. split; [exact Ht|].
  apply (translate_maps_ascii_text UTF8 (lit "a-b")
           (fun ch => if ch =? 45 then -1 else ch - 32) Strict).
  - discriminate.
  - exact Hs.
  - exact Ht.
Defined.

(* ------------------------------------------------------------------ *)
(** ** [expandtabs] on ASCII text *)

Lemma expandtabs_loop_O (E : Encoding) (self : units) (tabsize : Z)
  (it done count : Z) (result : units) :
  encoding_traits.ne E it done = false ->
  forall fuel,
    expandtabs_loop E self tabsize fuel it done count result = Ok result.
Proof. intros H fuel. destruct fuel; simpl; rewrite H; reflexivity. Qed.

Lemma expandtabs_loop_plain (E : Encoding) (tabsize : Z) :
  E <> UTF32 ->
  forall rest pre fuel count result,
    Forall (fun c => ascii_unit c /\ c <> 9) rest ->
    (List.length rest < fuel)%nat ->
    expandtabs_loop E (pre ++ rest) tabsize fuel (size pre)
                    (size (pre ++ rest)) count result
    = Ok (result ++ rest).
Proof.
  intros HE. induction rest as [|c rest IH];
    intros pre fuel count result Hall Hfuel.
  - rewrite !app_nil_r.
    apply expandtabs_loop_O. rewrite ne_lt by lia. apply Z.ltb_irrefl.
  - destruct fuel as [|fuel]; [simpl in Hfuel; lia|].
    inversion Hall as [|c' rest' [Hc Ht] Hrest]; subst.
    pose proof Hc as Hc'. unfold ascii_unit in Hc'.
    simpl expandtabs_loop.
    rewrite ne_below
      by (rewrite size_app; unfold size; simpl List.length; lia).
    rewrite (deref_ascii E _ _ c HE (rd_app_middle pre rest c) Hc).
    rewrite (incr_ascii E _ _ c (rd_app_middle pre rest c) Hc).
    cbv zeta. cbn [bind].
    replace (c =? 9) with false by (symmetry; apply Z.eqb_neq; lia).
    unfold uint32_t at 1. rewrite Z.mod_small by lia.
    rewrite append_ascii by assumption. cbn [fst bind].
    replace (size pre + 1 =? size pre) with false
      by (symmetry; apply Z.eqb_neq; lia).
    replace (pre ++ c :: rest) with ((pre ++ [c]) ++ rest)
      by (rewrite <- app_assoc; reflexivity).
    replace (size pre + 1) with (size (pre ++ [c]))
      by (rewrite size_app; reflexivity).
    rewrite IH; [|exact Hrest|simpl in Hfuel; lia].
    rewrite <- app_assoc. reflexivity.
Qed.

(** X22.  [expandtabs] leaves ASCII text without tabs as it is, whatever the tab
    size, under every encoding but UTF-32. *)
Theorem expandtabs_without_tabs (E : Encoding) (self : units) (tabsize : Z) :
  E <> UTF32 ->
  Forall (fun c => ascii_unit c /\ c <> 9) self ->
  expandtabs E self tabsize = Ok self.
Proof.
  intros HE Hs. unfold expandtabs.
  apply (expandtabs_loop_plain E tabsize HE self [] _ 0 []); [exact Hs|lia].
Qed.

Lemma expandtabs_without_tabs_witness :
  UTF16 <> UTF32
  /\ Forall (fun c => ascii_unit c /\ c <> 9) (lit "a b")
  /\ expandtabs UTF16 (lit "a b") 4 = Ok (lit "a b").
Proof.
  assert (Hs : Forall (fun c => ascii_unit c /\ c <> 9) (lit "a b"))
    by (repeat (constructor; [split; [ascii_const|discriminate]|]);
        constructor).
  split; [discriminate|]. split; [exact Hs|].
  apply (expandtabs_without_tabs UTF16 (lit "a b") 4);
    [discriminate|exact Hs].
Defined.







(* ------------------------------------------------------------------ *)
(** ** Zero filling *)









(* ------------------------------------------------------------------ *)
(** ** UTF-8: encoding and decoding *)

Lemma char_byte (v : Z) : 0 <= v < 256 -> char v mod 2 ^ 8 = v.
Proof.
  intros H. unfold char, signed. change (2 ^ 8) with 256.
  change (2 ^ (8 - 1)) with 128. rewrite (Z.mod_small v) by lia.
  destruct (Z.ltb_spec v 128).
  - apply Z.mod_small. lia.
  - replace (v - 256) with (v + (-1) * 256) by lia.
    rewrite Z_mod_plus_full. apply Z.mod_small. lia.
Qed.

Lemma lor_add (x y k : Z) :
  0 <= k -> 0 <= y < 2 ^ k -> Z.lor (x * 2 ^ k) y = x * 2 ^ k + y.
Proof.
  intros Hk Hy.
  assert (Hland : Z.land (x * 2 ^ k) y = 0).
  { apply Z.bits_inj'. intros n Hn.
    rewrite Z.land_spec, Z.bits_0.
    destruct (Z.ltb_spec n k) as [Hlt|Hge].
    - rewrite Z.mul_pow2_bits_low by lia. reflexivity.
    - rewrite <- (Z.mod_small y (2 ^ k)) by lia.
      rewrite Z.mod_pow2_bits_high by lia. apply andb_false_r. }
  pose proof (Z.add_lor_land (x * 2 ^ k) y) as H.
  rewrite Hland in H. lia.
Qed.

Lemma small_range (P : Z -> bool) (n : nat) :
  forallb P (map (fun k => 0 + Z.of_nat k) (seq 0 n)) = true ->
  forall u, 0 <= u < Z.of_nat n -> P u = true.
Proof. intros H u Hu. apply (forallb_range P 0 n H). lia. Qed.

Lemma tail_byte (b : Z) : 0 <= b < 64 -> UTF8Iterator.tail (128 + b) = true.
Proof.
  apply (small_range (fun b => UTF8Iterator.tail (128 + b)) 64).
  vm_compute. reflexivity.
Qed.

Lemma tail_bits (b : Z) : 0 <= b < 64 -> Z.land (128 + b) 63 = b.
Proof.
  intros H. apply Z.eqb_eq.
  apply (small_range (fun b => Z.land (128 + b) 63 =? b) 64);
    [vm_compute; reflexivity|exact H].
Qed.

Lemma lor_tail (b : Z) : 0 <= b < 64 -> Z.lor 128 b = 128 + b.
Proof. intros H. apply (lor_add 2 b 6); lia. Qed.

Lemma lead2_bits (a : Z) :
  0 <= a < 32 -> Z.lor 192 a = 192 + a /\ Z.land (192 + a) 31 = a.
Proof.
  intros H. split; [apply (lor_add 6 a 5); lia|]. apply Z.eqb_eq.
  apply (small_range (fun a => Z.land (192 + a) 31 =? a) 32);
    [vm_compute; reflexivity|exact H].
Qed.

Lemma lead3_bits (a : Z) :
  0 <= a < 16 -> Z.lor 224 a = 224 + a /\ Z.land (224 + a) 15 = a.
Proof.
  intros H. split; [apply (lor_add 14 a 4); lia|]. apply Z.eqb_eq.
  apply (small_range (fun a => Z.land (224 + a) 15 =? a) 16);
    [vm_compute; reflexivity|exact H].
Qed.

Lemma lead4_bits (a : Z) :
  0 <= a < 8 -> Z.lor 240 a = 240 + a /\ Z.land (240 + a) 7 = a.
Proof.
  intros H. split; [apply (lor_add 30 a 3); lia|]. apply Z.eqb_eq.
  apply (small_range (fun a => Z.land (240 + a) 7 =? a) 8);
    [vm_compute; reflexivity|exact H].
Qed.

Lemma shiftr_6 (x : Z) : Z.shiftr x 6 = x / 64.
Proof. apply (Z.shiftr_div_pow2 x 6). lia. Qed.
Lemma shiftr_12 (x : Z) : Z.shiftr x 12 = x / 4096.
Proof. apply (Z.shiftr_div_pow2 x 12). lia. Qed.
Lemma shiftr_18 (x : Z) : Z.shiftr x 18 = x / 262144.
Proof. apply (Z.shiftr_div_pow2 x 18). lia. Qed.
Lemma land_63 (x : Z) : Z.land x 63 = x mod 64.
Proof. apply (Z.land_ones x 6). lia. Qed.
Lemma shiftl_6 (x : Z) : Z.shiftl x 6 = x * 2 ^ 6.
Proof. apply Z.shiftl_mul_pow2. lia. Qed.
Lemma shiftl_12 (x : Z) : Z.shiftl x 12 = x * 2 ^ 12.
Proof. apply Z.shiftl_mul_pow2. lia. Qed.
Lemma shiftl_18 (x : Z) : Z.shiftl x 18 = x * 2 ^ 18.
Proof. apply Z.shiftl_mul_pow2. lia. Qed.

(** The mask of the surrogate test keeps the five bits above the low
    eleven. *)
Lemma land_F800 (cp : Z) :
  0 <= cp < 65536 -> Z.land cp 63488 = 2048 * (cp / 2048).
Proof.
  intros H.
  assert (Hh : 0 <= cp / 2048 < 32)
    by (split; [apply Z.div_pos; lia|apply Z.div_lt_upper_bound; lia]).
  assert (Hl : 0 <= cp mod 2048 < 2048) by (apply Z.mod_pos_bound; lia).
  rewrite (Z.div_mod cp 2048) at 1 by lia.
  replace (2048 * (cp / 2048)) with (cp / 2048 * 2 ^ 11) by lia.
  rewrite <- lor_add by (change (2 ^ 11) with 2048; lia).
  rewrite Z.land_lor_distr_l.
  assert (H1 : Z.land (cp / 2048 * 2 ^ 11) 63488 = cp / 2048 * 2 ^ 11).
  { apply Z.eqb_eq.
    apply (small_range (fun h => Z.land (h * 2 ^ 11) 63488 =? h * 2 ^ 11)
             32); [vm_compute; reflexivity|exact Hh]. }
  assert (H2 : Z.land (cp mod 2048) 63488 = 0).
  { apply Z.eqb_eq.
    apply (small_range (fun l => Z.land l 63488 =? 0) 2048);
      [vm_compute; reflexivity|exact Hl]. }
  rewrite H1, H2. apply Z.lor_0_r.
Qed.

Ltac decide_ltb :=
  repeat match goal with
    | |- context [?x <? ?y] =>
        first [replace (x <? y) with true by (symmetry; apply Z.ltb_lt; lia)
              |replace (x <? y) with false by (symmetry; apply Z.ltb_ge; lia)]
    end.

(* ------------------------------------------------------------------ *)
(** ** UTF-8: what the iterator accepts *)

Lemma payload2_sum (ch b1 : Z) :
  payload2 ch b1 = ch mod 32 * 64 + b1 mod 64.
Proof.
  unfold payload2. rewrite land_63, shiftl_6.
  change (Z.land ch 31) with (Z.land ch (Z.ones 5)).
  rewrite (Z.land_ones ch 5) by lia. change (2 ^ 5) with 32.
  pose proof (Z.mod_pos_bound b1 64 ltac:(lia)).
  rewrite lor_add by (change (2 ^ 6) with 64; lia). reflexivity.
Qed.

Lemma payload3_sum (ch b1 b2 : Z) :
  payload3 ch b1 b2 = ch mod 16 * 4096 + b1 mod 64 * 64 + b2 mod 64.
Proof.
  unfold payload3. rewrite !land_63, shiftl_6, shiftl_12.
  change (Z.land ch 15) with (Z.land ch (Z.ones 4)).
  rewrite (Z.land_ones ch 4) by lia. change (2 ^ 4) with 16.
  pose proof (Z.mod_pos_bound b1 64 ltac:(lia)).
  pose proof (Z.mod_pos_bound b2 64 ltac:(lia)).
  rewrite (lor_add (ch mod 16) (b1 mod 64 * 2 ^ 6) 12)
    by (change (2 ^ 6) with 64; change (2 ^ 12) with 4096; lia).
  replace (ch mod 16 * 2 ^ 12 + b1 mod 64 * 2 ^ 6)
    with ((ch mod 16 * 64 + b1 mod 64) * 2 ^ 6)
    by (change (2 ^ 6) with 64; change (2 ^ 12) with 4096; lia).
  rewrite lor_add by (change (2 ^ 6) with 64; lia).
  change (2 ^ 6) with 64. lia.
Qed.

(** X1.  What the UTF-8 iterator returns when it returns a value that is not
    negative: an ASCII unit, or the value put together from the payload bits
    of a lead unit and of the one, two or three units behind it.  Of those
    units one at least is a continuation unit; the tests do not ask it of
    each.  The value lies in the range of its length (0x80 to 0x7FF, 0x800 to
    0xFFFF, 0x10000 to 0x10FFFF), so it is never the value of an overlong
    form, never a surrogate half and never above 0x10FFFF. *)
Lemma UTF8_deref_accepts (s : units) (ptr v : Z) :
  UTF8Iterator.deref s ptr = Ok v -> 0 <= v ->
  (v <= 0x10FFFF /\ ~ 0xD800 <= v <= 0xDFFF)
  /\ exists ch, rd s ptr = Ok ch
    /\ ((ch < 0x80 /\ v = ch)
        \/ (0xC0 < ch < 0xE0 /\ 0x80 <= v < 0x800
            /\ exists b1,
                 rd s (ptr + 1) = Ok b1 /\ UTF8Iterator.tail b1 = true
                 /\ v = payload2 ch b1)
        \/ (0xE0 <= ch < 0xF0 /\ 0x800 <= v < 0x10000
            /\ exists b1 b2,
                 rd s (ptr + 1) = Ok b1 /\ rd s (ptr + 2) = Ok b2
                 /\ (UTF8Iterator.tail b1 = true
                     \/ UTF8Iterator.tail b2 = true)
                 /\ v = payload3 ch b1 b2)
        \/ (0xF0 <= ch < 0xF8 /\ 0x10000 <= v <= 0x10FFFF
            /\ exists b1 b2 b3,
                 rd s (ptr + 1) = Ok b1 /\ rd s (ptr + 2) = Ok b2
                 /\ rd s (ptr + 3) = Ok b3
                 /\ (UTF8Iterator.tail b1 = true
                     \/ UTF8Iterator.tail b2 = true
                     \/ UTF8Iterator.tail b3 = true)
                 /\ v = payload4 ch b1 b2 b3)).
Proof.
  unfold UTF8Iterator.deref. intros H Hv. inv_bind H.
  unfold UTF8Iterator.ascii, UTF8Iterator.head, UTF8Iterator.head2,
    UTF8Iterator.head3, UTF8Iterator.head4 in H.
  destruct (a <? 0x80) eqn:H1.
  { injection H as <-. apply Z.ltb_lt in H1.
    split; [lia|]. exists a. split; [exact Ha|]. left. lia. }
  apply Z.ltb_ge in H1.
  destruct (0xC0 <? a) eqn:H2; simpl negb in H; cbv iota in H;
    [|injection H as <-; lia].
  apply Z.ltb_lt in H2.
  destruct (a <? 0xE0) eqn:H3.
  { apply Z.ltb_lt in H3. inv_bind H.
    destruct (UTF8Iterator.tail a0) eqn:T1; cbn [negb] in H;
      [|injection H as <-; lia].
    fold (payload2 a a0) in H.
    destruct (payload2 a a0 <? 0x80) eqn:Hc; injection H as <-; [lia|].
    apply Z.ltb_ge in Hc.
    assert (Hb : payload2 a a0 < 0x800).
    { rewrite payload2_sum.
      pose proof (Z.mod_pos_bound a 32 ltac:(lia)).
      pose proof (Z.mod_pos_bound a0 64 ltac:(lia)). lia. }
    split; [lia|]. exists a. split; [exact Ha|]. right. left.
    split; [lia|]. split; [lia|]. exists a0. auto. }
  apply Z.ltb_ge in H3.
  destruct (a <? 0xF0) eqn:H4.
  { apply Z.ltb_lt in H4. inv_bind H. inv_bind H.
    destruct a1; [injection H as <-; lia|].
    inv_bind H. fold (payload3 a a0 a1) in H.
    assert (Ht : UTF8Iterator.tail a0 = true \/ UTF8Iterator.tail a1 = true).
    { destruct (UTF8Iterator.tail a0); [left; reflexivity|].
      cbn [negb] in Ha1. rewrite Ha2 in Ha1. cbn [bind] in Ha1.
      destruct (UTF8Iterator.tail a1); [right; reflexivity|discriminate]. }
    destruct (payload3 a a0 a1 <? 0x800) eqn:Hc;
      destruct (Z.land (payload3 a a0 a1) 0xF800 =? 0xD800) eqn:Hs;
      cbn [orb] in H; injection H as <-; try lia.
    apply Z.ltb_ge in Hc. apply Z.eqb_neq in Hs.
    assert (Hb : payload3 a a0 a1 < 0x10000).
    { rewrite payload3_sum.
      pose proof (Z.mod_pos_bound a 16 ltac:(lia)).
      pose proof (Z.mod_pos_bound a0 64 ltac:(lia)).
      pose proof (Z.mod_pos_bound a1 64 ltac:(lia)). lia. }
    assert (Hsur : ~ 0xD800 <= payload3 a a0 a1 <= 0xDFFF).
    { intros Hsur. apply Hs. apply surrogate_mask. exact Hsur. }
    split; [lia|]. exists a. split; [exact Ha|]. right. right. left.
    split; [lia|]. split; [lia|]. exists a0, a1. auto. }
  apply Z.ltb_ge in H4.
  destruct (a <? 0xF8) eqn:H5; [|injection H as <-; lia].
  apply Z.ltb_lt in H5. inv_bind H. inv_bind H.
  destruct a1; [injection H as <-; lia|].
  inv_bind H. inv_bind H. fold (payload4 a a0 a1 a2) in H.
  assert (Ht : UTF8Iterator.tail a0 = true \/ UTF8Iterator.tail a1 = true
               \/ UTF8Iterator.tail a2 = true).
  { destruct (UTF8Iterator.tail a0); [left; reflexivity|].
    cbn [negb] in Ha1. rewrite Ha2 in Ha1. cbn [bind] in Ha1.
    destruct (UTF8Iterator.tail a1); [right; left; reflexivity|].
    cbn [negb] in Ha1. rewrite Ha3 in Ha1. cbn [bind] in Ha1.
    destruct (UTF8Iterator.tail a2); [right; right; reflexivity|discriminate]. }
  destruct (payload4 a a0 a1 a2 <? 0x10000) eqn:Hc;
    destruct (0x10FFFF <? payload4 a a0 a1 a2) eqn:Hs;
    cbn [orb] in H; injection H as <-; try lia.
  apply Z.ltb_ge in Hc. apply Z.ltb_ge in Hs.
  split; [lia|]. exists a. split; [exact Ha|]. right. right. right.
  split; [lia|]. split; [lia|]. exists a0, a1, a2. auto.
Qed.

Lemma UTF8_deref_accepts_witness :
  UTF8Iterator.deref pencil 0 = Ok 0x270F /\ 0 <= 0x270F
  /\ (0x270F <= 0x10FFFF /\ ~ 0xD800 <= 0x270F <= 0xDFFF)
  /\ exists ch, rd pencil 0 = Ok ch
    /\ ((ch < 0x80 /\ 0x270F = ch)
        \/ (0xC0 < ch < 0xE0 /\ 0x80 <= 0x270F < 0x800
            /\ exists b1,
                 rd pencil (0 + 1) = Ok b1 /\ UTF8Iterator.tail b1 = true
                 /\ 0x270F = payload2 ch b1)
        \/ (0xE0 <= ch < 0xF0 /\ 0x800 <= 0x270F < 0x10000
            /\ exists b1 b2,
                 rd pencil (0 + 1) = Ok b1 /\ rd pencil (0 + 2) = Ok b2
                 /\ (UTF8Iterator.tail b1 = true
                     \/ UTF8Iterator.tail b2 = true)
                 /\ 0x270F = payload3 ch b1 b2)
        \/ (0xF0 <= ch < 0xF8 /\ 0x10000 <= 0x270F <= 0x10FFFF
            /\ exists b1 b2 b3,
                 rd pencil (0 + 1) = Ok b1 /\ rd pencil (0 + 2) = Ok b2
                 /\ rd pencil (0 + 3) = Ok b3
                 /\ (UTF8Iterator.tail b1 = true
                     \/ UTF8Iterator.tail b2 = true
                     \/ UTF8Iterator.tail b3 = true)
                 /\ 0x270F = payload4 ch b1 b2 b3)).
Proof.
  split; [reflexivity|]. split; [lia|].
  apply (UTF8_deref_accepts pencil 0 0x270F); [reflexivity|lia].
Defined.

(** The tests of the continuation units are joined so that one
    continuation unit is enough: behind the lead byte E2 and the
    continuation byte 9C the letter A is taken for the third unit. *)
Lemma UTF8_deref_takes_a_letter_for_a_tail :
  UTF8Iterator.tail 0x41 = false
  /\ UTF8Iterator.deref [0xE2; 0x9C; 0x41] 0 = Ok 0x2701.
Proof. split; reflexivity. Qed.

Lemma UTF8_decode_2 (s : units) (p a b : Z) :
  rd s p = Ok (192 + a) -> rd s (p + 1) = Ok (128 + b) ->
  2 <= a < 32 -> 0 <= b < 64 ->
  UTF8Iterator.deref s p = Ok (a * 2 ^ 6 + b)
  /\ UTF8Iterator.incr s p = Ok (p + 2).
Proof.
  intros H0 H1 Ha Hb. change (2 ^ 6) with 64.
  unfold UTF8Iterator.deref, UTF8Iterator.incr.
  rewrite H0. cbn [bind].
  unfold UTF8Iterator.ascii, UTF8Iterator.head, UTF8Iterator.head2.
  decide_ltb. cbn [negb]. rewrite H1. cbn [bind].
  rewrite tail_byte by lia. cbn [negb].
  destruct (lead2_bits a ltac:(lia)) as [_ ->]. rewrite tail_bits by lia.
  rewrite shiftl_6, lor_add by (change (2 ^ 6) with 64; lia).
  change (2 ^ 6) with 64. decide_ltb. split; reflexivity.
Qed.

Lemma UTF8_decode_3 (s : units) (p a b c : Z) :
  rd s p = Ok (224 + a) -> rd s (p + 1) = Ok (128 + b) ->
  rd s (p + 2) = Ok (128 + c) ->
  0 <= a < 16 -> 0 <= b < 64 -> 0 <= c < 64 ->
  2048 <= a * 2 ^ 12 + b * 2 ^ 6 + c ->
  ~ 55296 <= a * 2 ^ 12 + b * 2 ^ 6 + c <= 57343 ->
  UTF8Iterator.deref s p = Ok (a * 2 ^ 12 + b * 2 ^ 6 + c)
  /\ UTF8Iterator.incr s p = Ok (p + 3).
Proof.
  intros H0 H1 H2 Ha Hb Hc Hlo Hsur.
  change (2 ^ 6) with 64 in *. change (2 ^ 12) with 4096 in *.
  unfold UTF8Iterator.deref, UTF8Iterator.incr.
  rewrite H0. cbn [bind].
  unfold UTF8Iterator.ascii, UTF8Iterator.head, UTF8Iterator.head2,
    UTF8Iterator.head3.
  decide_ltb. cbn [negb]. rewrite H1. cbn [bind].
  rewrite tail_byte by lia. cbn [negb bind]. rewrite H2. cbn [bind].
  rewrite tail_byte by lia.
  destruct (lead3_bits a ltac:(lia)) as [_ ->]. rewrite !tail_bits by lia.
  rewrite shiftl_12, shiftl_6.
  rewrite (lor_add a (b * 2 ^ 6) 12)
    by (change (2 ^ 6) with 64; change (2 ^ 12) with 4096; lia).
  replace (a * 2 ^ 12 + b * 2 ^ 6) with ((a * 64 + b) * 2 ^ 6)
    by (change (2 ^ 6) with 64; change (2 ^ 12) with 4096; lia).
  rewrite lor_add by (change (2 ^ 6) with 64; lia).
  change (2 ^ 6) with 64.
  replace ((a * 64 + b) * 64 + c) with (a * 4096 + b * 64 + c) by lia.
  rewrite land_F800 by lia.
  replace (2048 * ((a * 4096 + b * 64 + c) / 2048) =? 55296) with false.
  - decide_ltb. cbn [orb]. split; reflexivity.
  - symmetry. apply Z.eqb_neq. intros Heq.
    pose proof (Z.div_mod (a * 4096 + b * 64 + c) 2048 ltac:(lia)) as Hd.
    pose proof (Z.mod_pos_bound (a * 4096 + b * 64 + c) 2048 ltac:(lia)).
    lia.
Qed.

Lemma UTF8_decode_4 (s : units) (p a b c d : Z) :
  rd s p = Ok (240 + a) -> rd s (p + 1) = Ok (128 + b) ->
  rd s (p + 2) = Ok (128 + c) -> rd s (p + 3) = Ok (128 + d) ->
  0 <= a < 8 -> 0 <= b < 64 -> 0 <= c < 64 -> 0 <= d < 64 ->
  65536 <= a * 2 ^ 18 + b * 2 ^ 12 + c * 2 ^ 6 + d <= 1114111 ->
  UTF8Iterator.deref s p = Ok (a * 2 ^ 18 + b * 2 ^ 12 + c * 2 ^ 6 + d)
  /\ UTF8Iterator.incr s p = Ok (p + 4).
Proof.
  intros H0 H1 H2 H3 Ha Hb Hc Hd Hr.
  change (2 ^ 6) with 64 in *. change (2 ^ 12) with 4096 in *.
  change (2 ^ 18) with 262144 in *.
  unfold UTF8Iterator.deref, UTF8Iterator.incr.
  rewrite H0. cbn [bind].
  unfold UTF8Iterator.ascii, UTF8Iterator.head, UTF8Iterator.head2,
    UTF8Iterator.head3, UTF8Iterator.head4.
  decide_ltb. cbn [negb]. rewrite H1. cbn [bind].
  rewrite tail_byte by lia. cbn [negb bind]. rewrite H2. cbn [bind].
  rewrite tail_byte by lia. rewrite H3. cbn [bind].
  rewrite tail_byte by lia.
  destruct (lead4_bits a ltac:(lia)) as [_ ->]. rewrite !tail_bits by lia.
  rewrite shiftl_18, shiftl_12, shiftl_6.
  rewrite (lor_add a (b * 2 ^ 12) 18)
    by (change (2 ^ 18) with 262144; change (2 ^ 12) with 4096; lia).
  replace (a * 2 ^ 18 + b * 2 ^ 12) with ((a * 64 + b) * 2 ^ 12)
    by (change (2 ^ 18) with 262144; change (2 ^ 12) with 4096; lia).
  rewrite (lor_add (a * 64 + b) (c * 2 ^ 6) 12)
    by (change (2 ^ 6) with 64; change (2 ^ 12) with 4096; lia).
  replace ((a * 64 + b) * 2 ^ 12 + c * 2 ^ 6)
    with (((a * 64 + b) * 64 + c) * 2 ^ 6)
    by (change (2 ^ 6) with 64; change (2 ^ 12) with 4096; lia).
  rewrite lor_add by (change (2 ^ 6) with 64; lia).
  change (2 ^ 6) with 64.
  replace (((a * 64 + b) * 64 + c) * 64 + d)
    with (a * 262144 + b * 4096 + c * 64 + d) by lia.
  decide_ltb. cbn [orb]. split; reflexivity.
Qed.

Lemma push_byte (str : units) (v : Z) :
  0 <= v < 256 -> push_back 8 str (char v) = str ++ [v].
Proof. intros H. unfold push_back. rewrite char_byte by exact H. reflexivity. Qed.

Lemma UTF8_encode (str : units) (cp : Z) :
  0 <= cp < 1114112 ->
  UTF8Encoder.append 8 str cp
  = (str ++ (if cp <? 128 then [cp]
             else if cp <? 2048 then [192 + cp / 64; 128 + cp mod 64]
             else if cp <? 65536 then
               [224 + cp / 4096; 128 + (cp / 64) mod 64; 128 + cp mod 64]
             else [240 + cp / 262144; 128 + (cp / 4096) mod 64;
                   128 + (cp / 64) mod 64; 128 + cp mod 64]),
     true).
Proof.
  intros H. unfold UTF8Encoder.append, UTF8Encoder.surrogate_test.
  change (if 63488 =? 216 then 1 else 0) with 0. rewrite Z.land_0_r.
  change (negb (0 =? 0)) with false. cbv iota.
  rewrite !shiftr_6, !shiftr_12, !shiftr_18, !land_63.
  assert (H6 : 0 <= cp mod 64 < 64) by (apply Z.mod_pos_bound; lia).
  assert (H12 : 0 <= (cp / 64) mod 64 < 64) by (apply Z.mod_pos_bound; lia).
  assert (H18 : 0 <= (cp / 4096) mod 64 < 64)
    by (apply Z.mod_pos_bound; lia).
  destruct (Z.ltb_spec cp 128); [rewrite push_byte by lia; reflexivity|].
  destruct (Z.ltb_spec cp 2048).
  { assert (0 <= cp / 64 < 32)
      by (split; [apply Z.div_pos; lia|apply Z.div_lt_upper_bound; lia]).
    destruct (lead2_bits (cp / 64) ltac:(lia)) as [-> _].
    rewrite lor_tail by lia. rewrite !push_byte by lia.
    rewrite <- app_assoc. reflexivity. }
  destruct (Z.ltb_spec cp 65536).
  { assert (0 <= cp / 4096 < 16)
      by (split; [apply Z.div_pos; lia|apply Z.div_lt_upper_bound; lia]).
    destruct (lead3_bits (cp / 4096) ltac:(lia)) as [-> _].
    rewrite !lor_tail by lia. rewrite !push_byte by lia.
    rewrite <- !app_assoc. reflexivity. }
  replace (cp <? 1114112) with true by (symmetry; apply Z.ltb_lt; lia).
  assert (0 <= cp / 262144 < 8)
    by (split; [apply Z.div_pos; lia|apply Z.div_lt_upper_bound; lia]).
  destruct (lead4_bits (cp / 262144) ltac:(lia)) as [-> _].
  rewrite !lor_tail by lia. rewrite !push_byte by lia.
  rewrite <- !app_assoc. reflexivity.
Qed.

Lemma rd_appended (str enc : units) (k : nat) (v : Z) :
  nth_error enc k = Some v ->
  rd (str ++ enc) (size str + Z.of_nat k) = Ok v.
Proof.
  intros H. pose proof (size_nonneg str).
  replace (size str + Z.of_nat k) with (size str + 0 + Z.of_nat k) by lia.
  rewrite rd_app_right by lia. unfold rd. rewrite Z.add_0_l.
  replace (Z.of_nat k <? 0) with false by (symmetry; apply Z.ltb_ge; lia).
  rewrite Nat2Z.id, H. reflexivity.
Qed.

(** X25.  Decoding what the encoder wrote gives the codepoint back: for every
    Unicode scalar value (a codepoint up to 0x10FFFF that is no surrogate
    half) and every buffer, the UTF-8 encoder appends one to four units and
    succeeds, the UTF-8 cursor set on the first of them decodes the
    codepoint, and one step takes it to the end of the buffer. *)
Theorem UTF8_encode_then_decode (str : units) (cp : Z) :
  0 <= cp <= 0x10FFFF -> ~ 0xD800 <= cp <= 0xDFFF ->
  exists enc,
    UTF8Encoder.append 8 str cp = (str ++ enc, true)
    /\ 1 <= size enc <= 4
    /\ UTF8Iterator.deref (str ++ enc) (size str) = Ok cp
    /\ UTF8Iterator.incr (str ++ enc) (size str) = Ok (size (str ++ enc)).
Proof.
  intros Hcp Hsur. rewrite UTF8_encode by lia.
  assert (H6 : 0 <= cp mod 64 < 64) by (apply Z.mod_pos_bound; lia).
  assert (H12 : 0 <= (cp / 64) mod 64 < 64) by (apply Z.mod_pos_bound; lia).
  assert (H18 : 0 <= (cp / 4096) mod 64 < 64)
    by (apply Z.mod_pos_bound; lia).
  pose proof (Z.div_mod cp 64 ltac:(lia)) as D6.
  pose proof (Z.div_mod (cp / 64) 64 ltac:(lia)) as D12.
  pose proof (Z.div_mod (cp / 4096) 64 ltac:(lia)) as D18.
  assert (E12 : cp / 4096 = cp / 64 / 64)
    by (rewrite Z.div_div by lia; reflexivity).
  assert (E18 : cp / 262144 = cp / 4096 / 64)
    by (rewrite Z.div_div by lia; reflexivity).
  eexists. split; [reflexivity|].
  rewrite size_app.
  destruct (Z.ltb_spec cp 128).
  { split; [change (size [cp]) with 1; lia|].
    pose proof (rd_appended str [cp] 0 cp eq_refl) as R0.
    rewrite Z.add_0_r in R0.
    unfold UTF8Iterator.deref, UTF8Iterator.incr. rewrite R0. cbn [bind].
    unfold UTF8Iterator.ascii, UTF8Iterator.head. decide_ltb.
    split; reflexivity. }
  destruct (Z.ltb_spec cp 2048).
  { split; [unfold size; simpl; lia|].
    assert (0 <= cp / 64 < 32)
      by (split; [apply Z.div_pos; lia|apply Z.div_lt_upper_bound; lia]).
    pose proof (rd_appended str _ 0 _ (eq_refl
      : nth_error [192 + cp / 64; 128 + cp mod 64] 0 = Some _)) as R0.
    pose proof (rd_appended str _ 1 _ (eq_refl
      : nth_error [192 + cp / 64; 128 + cp mod 64] 1 = Some _)) as R1.
    rewrite Z.add_0_r in R0.
    destruct (UTF8_decode_2 _ _ _ _ R0 R1 ltac:(lia) ltac:(lia))
      as [-> ->].
    change (2 ^ 6) with 64. split; f_equal; unfold size; simpl; lia. }
  destruct (Z.ltb_spec cp 65536).
  { split; [unfold size; simpl; lia|].
    assert (0 <= cp / 4096 < 16)
      by (split; [apply Z.div_pos; lia|apply Z.div_lt_upper_bound; lia]).
    pose proof (rd_appended str _ 0 _ (eq_refl
      : nth_error [224 + cp / 4096; 128 + (cp / 64) mod 64;
                   128 + cp mod 64] 0 = Some _)) as R0.
    pose proof (rd_appended str _ 1 _ (eq_refl
      : nth_error [224 + cp / 4096; 128 + (cp / 64) mod 64;
                   128 + cp mod 64] 1 = Some _)) as R1.
    pose proof (rd_appended str _ 2 _ (eq_refl
      : nth_error [224 + cp / 4096; 128 + (cp / 64) mod 64;
                   128 + cp mod 64] 2 = Some _)) as R2.
    rewrite Z.add_0_r in R0.
    assert (Hv : cp / 4096 * 2 ^ 12 + (cp / 64) mod 64 * 2 ^ 6 + cp mod 64
                 = cp)
      by (change (2 ^ 12) with 4096; change (2 ^ 6) with 64; lia).
    destruct (UTF8_decode_3 _ _ _ _ _ R0 R1 R2 ltac:(lia) ltac:(lia)
                ltac:(lia) ltac:(rewrite Hv; lia) ltac:(rewrite Hv; lia))
      as [-> ->].
    rewrite Hv. split; [reflexivity|f_equal; unfold size; simpl; lia]. }
  split; [unfold size; simpl; lia|].
  assert (0 <= cp / 262144 < 8)
    by (split; [apply Z.div_pos; lia|apply Z.div_lt_upper_bound; lia]).
  pose proof (rd_appended str _ 0 _ (eq_refl
    : nth_error [240 + cp / 262144; 128 + (cp / 4096) mod 64;
                 128 + (cp / 64) mod 64; 128 + cp mod 64] 0 = Some _))
    as R0.
  pose proof (rd_appended str _ 1 _ (eq_refl
    : nth_error [240 + cp / 262144; 128 + (cp / 4096) mod 64;
                 128 + (cp / 64) mod 64; 128 + cp mod 64] 1 = Some _))
    as R1.
  pose proof (rd_appended str _ 2 _ (eq_refl
    : nth_error [240 + cp / 262144; 128 + (cp / 4096) mod 64;
                 128 + (cp / 64) mod 64; 128 + cp mod 64] 2 = Some _))
    as R2.
  pose proof (rd_appended str _ 3 _ (eq_refl
    : nth_error [240 + cp / 262144; 128 + (cp / 4096) mod 64;
                 128 + (cp / 64) mod 64; 128 + cp mod 64] 3 = Some _))
    as R3.
  rewrite Z.add_0_r in R0.
  assert (Hv : cp / 262144 * 2 ^ 18 + (cp / 4096) mod 64 * 2 ^ 12
               + (cp / 64) mod 64 * 2 ^ 6 + cp mod 64 = cp)
    by (change (2 ^ 18) with 262144; change (2 ^ 12) with 4096;
        change (2 ^ 6) with 64; lia).
  destruct (UTF8_decode_4 _ _ _ _ _ _ R0 R1 R2 R3 ltac:(lia) ltac:(lia)
              ltac:(lia) ltac:(lia) ltac:(rewrite Hv; lia))
    as [-> ->].
  rewrite Hv. split; [reflexivity|f_equal; unfold size; simpl; lia].
Qed.

Lemma UTF8_encode_then_decode_witness :
  0 <= 0x1F600 <= 0x10FFFF /\ ~ 0xD800 <= 0x1F600 <= 0xDFFF
  /\ exists enc,
       UTF8Encoder.append 8 (lit "a") 0x1F600 = (lit "a" ++ enc, true)
       /\ 1 <= size enc <= 4
       /\ UTF8Iterator.deref (lit "a" ++ enc) (size (lit "a")) = Ok 0x1F600
       /\ UTF8Iterator.incr (lit "a" ++ enc) (size (lit "a"))
          = Ok (size (lit "a" ++ enc)).
Proof.
  split; [lia|]. split; [lia|].
  apply (UTF8_encode_then_decode (lit "a") 0x1F600); lia.
Defined.

(* ------------------------------------------------------------------ *)
(** *** One field between plain text *)

Lemma format1_loop_S (E : Encoding) (self : units)
  (fomatters : list Formatter) (count : Z) (fuel : nat) (st : fstate) :
  format1_loop E self fomatters count (S fuel) st
  = if iter st <? size self then
      st' <- format1_iter E self fomatters count st ;;
      if iter st' =? iter st then Diverge
      else format1_loop E self fomatters count fuel st'
    else Ok (result st ++ slice self (from st) (size self), position st).
Proof. reflexivity. Qed.

Lemma format1_loop_end (E : Encoding) (self : units)
  (fomatters : list Formatter) (count : Z) (fuel : nat) (st : fstate) :
  size self <= iter st ->
  format1_loop E self fomatters count fuel st
  = Ok (result st ++ slice self (from st) (size self), position st).
Proof.
  intros H. destruct fuel; simpl;
    (replace (iter st <? size self) with false
      by (symmetry; apply Z.ltb_ge; lia)); reflexivity.
Qed.

(** Plain ASCII text is stepped over unit by unit. *)
Lemma format1_loop_text (E : Encoding) (fomatters : list Formatter)
  (count : Z) :
  forall text pre post fuel fr res pos,
    Forall (fun c => ascii_unit c /\ c <> c_ "{" /\ c <> c_ "}") text ->
    format1_loop E (pre ++ text ++ post) fomatters count
      (List.length text + fuel)
      {| iter := size pre; from := fr; result := res; position := pos |}
    = format1_loop E (pre ++ text ++ post) fomatters count fuel
        {| iter := size (pre ++ text); from := fr; result := res;
           position := pos |}.
Proof.
  induction text as [|c text IH]; intros pre post fuel fr res pos Hall.
  - rewrite app_nil_r. reflexivity.
  - inversion Hall as [|c' text' [Hc [Hl Hr]] Htext]; subst c' text'.
    change (List.length (c :: text) + fuel)%nat
      with (S (List.length text + fuel)).
    rewrite format1_loop_S. cbn [iter].
    pose proof (size_nonneg pre). pose proof (size_nonneg (text ++ post)).
    replace (size pre <? size (pre ++ (c :: text) ++ post)) with true
      by (symmetry; apply Z.ltb_lt; rewrite size_app;
          change ((c :: text) ++ post) with (c :: text ++ post);
          unfold size in *; simpl List.length; lia).
    unfold format1_iter. cbn [iter from result position].
    change ((c :: text) ++ post) with (c :: text ++ post).
    rewrite rd_app_middle. cbn [bind].
    replace (c =? c_ "{") with false by (symmetry; apply Z.eqb_neq; exact Hl).
    replace (c =? c_ "}") with false by (symmetry; apply Z.eqb_neq; exact Hr).
    rewrite (incr_ascii E _ _ c (rd_app_middle pre (text ++ post) c) Hc).
    cbn [bind iter].
    replace (size pre + 1 =? size pre) with false
      by (symmetry; apply Z.eqb_neq; lia).
    replace (pre ++ c :: text ++ post) with ((pre ++ [c]) ++ text ++ post)
      by (rewrite <- app_assoc; reflexivity).
    replace (size pre + 1) with (size (pre ++ [c]))
      by (rewrite size_app; reflexivity).
    rewrite IH by exact Htext.
    rewrite <- !app_assoc. reflexivity.
Qed.

Lemma format1_iter_field (E : Encoding) (pre post : units) (f : Formatter)
  (fs : list Formatter) (count fr : Z) (res : units) :
  0 < count ->
  format1_iter E (pre ++ lit "{}" ++ post) (f :: fs) count
    {| iter := size pre; from := fr; result := res; position := 0 |}
  = (r <- f 0 [] (res ++ slice (pre ++ lit "{}" ++ post) fr (size pre)) ;;
     Ok {| iter := size pre + 2; from := size pre + 2; result := r;
           position := 1 |}).
Proof.
  intros Hc.
  pose proof (rd_app_middle pre (125 :: post) 123) as R0.
  pose proof (rd_appended pre (123 :: 125 :: post) 1 125 eq_refl) as R1.
  change (Z.of_nat 1) with 1 in R1.
  change (lit "{}" ++ post) with (123 :: 125 :: post).
  unfold format1_iter. cbn [iter from result position].
  rewrite R0. cbn [bind]. change (123 =? c_ "{") with true. cbv iota.
  rewrite R1. cbn [bind]. change (125 =? c_ "{") with false. cbv iota.
  unfold format1_index. change (is_digit 125) with false. cbv iota.
  change (0 =? npos) with false. cbv iota. cbn [bind].
  replace (count <=? 0) with false by (symmetry; apply Z.leb_gt; lia).
  rewrite R1. cbn [bind].
  change (125 =? c_ "[") with false. change (125 =? c_ "!") with false.
  cbv iota. cbn [bind]. rewrite R1. cbn [bind].
  change (125 =? c_ ":") with false. cbv iota. cbn [bind].
  rewrite R1. cbn [bind].
  change (125 =? c_ "}") with true. cbn [negb]. cbv iota.
  change (nth_error (f :: fs) (Z.to_nat 0)) with (Some f). cbv iota.
  change (size_t (0 + 1)) with 1.
  replace (size pre + 1 + 1) with (size pre + 2) by lia. reflexivity.
Qed.

(** X26.  An empty replacement field between plain ASCII text: for every
    encoding, every integer first argument and every ASCII text without
    braces before and after the field, [format] returns the text before,
    the integer as [str__] writes it, and the text after. *)
Theorem format_one_field (E : Encoding) (pre post : units) (n : Z)
  (values : list value) :
  Forall (fun c => ascii_unit c /\ c <> c_ "{" /\ c <> c_ "}") pre ->
  Forall (fun c => ascii_unit c /\ c <> c_ "{" /\ c <> c_ "}") post ->
  format E (pre ++ lit "{}" ++ post) (Int64 n :: values)
  = Ok (pre ++ int64_proxy.str__ n ++ post).
Proof.
  intros Hpre Hpost. unfold format, format1.
  set (self := pre ++ lit "{}" ++ post).
  set (fs := map (formatter E) (Int64 n :: values)).
  set (cnt := Z.of_nat (List.length (Int64 n :: values))).
  assert (Hcnt : 0 < cnt) by (unfold cnt; simpl List.length; lia).
  pose proof (size_nonneg pre) as Hp.
  (* the text before the field *)
  replace (S (List.length self))
    with (List.length pre + S (List.length post + 2))%nat
    by (unfold self; rewrite !length_app; simpl List.length; lia).
  change 0 with (size (@nil Z)) at 1.
  pose proof (format1_loop_text E fs cnt pre [] (lit "{}" ++ post)
                (S (List.length post + 2)) 0 [] 0 Hpre) as H1.
  change ([] ++ pre ++ lit "{}" ++ post) with self in H1.
  rewrite H1. clear H1. change ([] ++ pre) with pre.
  (* the field *)
  rewrite format1_loop_S. cbn [iter].
  replace (size pre <? size self) with true
    by (symmetry; apply Z.ltb_lt; unfold self; rewrite !size_app;
        pose proof (size_nonneg post); change (size (lit "{}")) with 2;
        lia).
  unfold fs at 1. change (map (formatter E) (Int64 n :: values))
    with (formatter E (Int64 n) :: map (formatter E) values).
  unfold self at 1.
  rewrite (format1_iter_field E pre post _ _ cnt 0 [] Hcnt).
  fold self.
  replace (slice self 0 (size pre)) with pre
    by (unfold self; symmetry; apply slice_app_left).
  unfold formatter at 1. change (0 =? 0) with true. cbv iota.
  rewrite parse_empty. cbn [bind]. rewrite format__plain_is_str__.
  cbn [bind iter app].
  replace (size pre + 2 =? size pre) with false
    by (symmetry; apply Z.eqb_neq; lia).
  (* the text after the field *)
  replace (size pre + 2) with (size (pre ++ lit "{}"))
    by (rewrite size_app; reflexivity).
  assert (Hself : self = (pre ++ lit "{}") ++ post ++ [])
    by (unfold self; rewrite app_nil_r, <- app_assoc; reflexivity).
  rewrite Hself.
  fold fs.
  rewrite (format1_loop_text E fs cnt post (pre ++ lit "{}") [] 2
             _ _ _ Hpost).
  rewrite format1_loop_end
    by (cbn [iter]; rewrite !app_nil_r; lia).
  cbn [result from position bind fst].
  rewrite !app_nil_r.
  rewrite (size_app (pre ++ lit "{}") post).
  replace (slice ((pre ++ lit "{}") ++ post) (size (pre ++ lit "{}"))
             (size (pre ++ lit "{}") + size post)) with post
    by (symmetry; apply slice_app_right).
  rewrite <- app_assoc. reflexivity.
Qed.

Lemma format_one_field_witness :
  Forall (fun c => ascii_unit c /\ c <> c_ "{" /\ c <> c_ "}") (lit "n = ")
  /\ Forall (fun c => ascii_unit c /\ c <> c_ "{" /\ c <> c_ "}") (lit ".")
  /\ format UTF8 (lit "n = " ++ lit "{}" ++ lit ".") [Int64 (-7); Double]
     = Ok (lit "n = " ++ int64_proxy.str__ (-7) ++ lit ".").
Proof.
  assert (H1 : Forall (fun c => ascii_unit c /\ c <> c_ "{" /\ c <> c_ "}")
                      (lit "n = "))
    by (repeat (constructor;
                [split; [ascii_const|split; discriminate]|]);
        constructor).
  assert (H2 : Forall (fun c => ascii_unit c /\ c <> c_ "{" /\ c <> c_ "}")
                      (lit "."))
    by (repeat (constructor;
                [split; [ascii_const|split; discriminate]|]);
        constructor).
  split; [exact H1|]. split; [exact H2|].
  apply (format_one_field UTF8 (lit "n = ") (lit ".") (-7) [Double] H1 H2).
Defined.

(* ------------------------------------------------------------------ *)
(** ** UTF-16: encoding and decoding *)

(** The mask of the surrogate tests keeps the six bits above the low ten. *)
Lemma land_FC00 (v : Z) :
  0 <= v < 65536 -> Z.land v 64512 = 1024 * (v / 1024).
Proof.
  intros H.
  assert (Hh : 0 <= v / 1024 < 64)
    by (split; [apply Z.div_pos; lia|apply Z.div_lt_upper_bound; lia]).
  assert (Hl : 0 <= v mod 1024 < 1024) by (apply Z.mod_pos_bound; lia).
  rewrite (Z.div_mod v 1024) at 1 by lia.
  replace (1024 * (v / 1024)) with (v / 1024 * 2 ^ 10) by lia.
  rewrite <- lor_add by (change (2 ^ 10) with 1024; lia).
  rewrite Z.land_lor_distr_l.
  assert (H1 : Z.land (v / 1024 * 2 ^ 10) 64512 = v / 1024 * 2 ^ 10).
  { apply Z.eqb_eq.
    apply (small_range (fun h => Z.land (h * 2 ^ 10) 64512 =? h * 2 ^ 10)
             64); [vm_compute; reflexivity|exact Hh]. }
  assert (H2 : Z.land (v mod 1024) 64512 = 0).
  { apply Z.eqb_eq.
    apply (small_range (fun l => Z.land l 64512 =? 0) 1024);
      [vm_compute; reflexivity|exact Hl]. }
  rewrite H1, H2. apply Z.lor_0_r.
Qed.

Lemma surrogate_first_iff (v : Z) :
  0 <= v < 65536 ->
  UTF16Iterator.is_surrogate_first v = (v / 1024 =? 54).
Proof.
  intros H. unfold UTF16Iterator.is_surrogate_first.
  rewrite land_FC00 by exact H.
  destruct (Z.eqb_spec (v / 1024) 54) as [e|ne].
  - rewrite e. reflexivity.
  - apply Z.eqb_neq. lia.
Qed.

Lemma surrogate_last_iff (v : Z) :
  0 <= v < 65536 ->
  UTF16Iterator.is_surrogate_last v = (v / 1024 =? 55).
Proof.
  intros H. unfold UTF16Iterator.is_surrogate_last.
  rewrite land_FC00 by exact H.
  destruct (Z.eqb_spec (v / 1024) 55) as [e|ne].
  - rewrite e. reflexivity.
  - apply Z.eqb_neq. lia.
Qed.

(** X27.  What the UTF-16 encoder writes and what the UTF-16 cursor reads back.
    A codepoint of the basic plane that is no surrogate half is written as
    one unit and decoded as itself.  Beyond the basic plane the encoder
    subtracts 10000 where the decoder adds 0x10000: a codepoint from
    0x10000 up to 0x10270F is written as a surrogate pair that decodes to
    the codepoint plus 55536. *)
Theorem UTF16_encode_then_decode (str : units) (cp : Z) :
  0 <= cp < 0x102710 -> ~ 0xD800 <= cp <= 0xDFFF ->
  exists enc,
    UTF16Encoder.append 16 str cp = (str ++ enc, true)
    /\ UTF16Iterator.deref (str ++ enc) (size str)
       = Ok (if cp <? 0x10000 then cp else cp + 55536).
Proof.
  intros Hcp Hsur. destruct (Z.ltb_spec cp 65536) as [Hlt|Hge].
  - exists [cp].
    unfold UTF16Encoder.append, UTF8Encoder.surrogate_test.
    change (if 63488 =? 216 then 1 else 0) with 0. rewrite Z.land_0_r.
    change (negb (0 =? 0)) with false. cbv iota.
    replace (cp <? 65536) with true by (symmetry; apply Z.ltb_lt; lia).
    unfold push_back. change (2 ^ 16) with 65536.
    rewrite Z.mod_mod by lia. rewrite Z.mod_small by lia.
    split; [reflexivity|].
    unfold UTF16Iterator.deref. rewrite rd_app_middle. cbn [bind].
    rewrite surrogate_first_iff by lia.
    replace (cp / 1024 =? 54) with false; [reflexivity|].
    symmetry. apply Z.eqb_neq. intros e.
    pose proof (Z.div_mod cp 1024 ltac:(lia)).
    pose proof (Z.mod_pos_bound cp 1024 ltac:(lia)). lia.
  - assert (Hx : 55536 <= cp - 10000 < 1048576) by lia.
    assert (Hq : 54 <= (cp - 10000) / 1024 < 1024)
      by (split; [apply Z.div_le_lower_bound; lia
                 |apply Z.div_lt_upper_bound; lia]).
    assert (Hr : 0 <= (cp - 10000) mod 1024 < 1024)
      by (apply Z.mod_pos_bound; lia).
    pose proof (Z.div_mod (cp - 10000) 1024 ltac:(lia)) as Hdm.
    exists [55296 + (cp - 10000) / 1024; 56320 + (cp - 10000) mod 1024].
    split.
    { unfold UTF16Encoder.append.
      replace (cp <? 65536) with false by (symmetry; apply Z.ltb_ge; lia).
      replace (cp <? 1114112) with true by (symmetry; apply Z.ltb_lt; lia).
      cbv zeta. unfold uint32_t. rewrite (Z.mod_small (cp - 10000)) by lia.
      rewrite (Z.shiftr_div_pow2 _ 10) by lia.
      rewrite (Z.land_ones _ 10) by lia.
      change (2 ^ 10) with 1024.
      replace (Z.lor 55296 ((cp - 10000) / 1024))
        with (55296 + (cp - 10000) / 1024)
        by (symmetry; apply (lor_add 54 _ 10);
            change (2 ^ 10) with 1024; lia).
      replace (Z.lor 56320 ((cp - 10000) mod 1024))
        with (56320 + (cp - 10000) mod 1024)
        by (symmetry; apply (lor_add 55 _ 10);
            change (2 ^ 10) with 1024; lia).
      unfold push_back. change (2 ^ 16) with 65536.
      rewrite !Z.mod_mod by lia. rewrite !Z.mod_small by lia.
      rewrite <- app_assoc. reflexivity. }
    pose proof (rd_appended str [55296 + (cp - 10000) / 1024;
                                 56320 + (cp - 10000) mod 1024] 0 _ eq_refl)
      as R0.
    pose proof (rd_appended str [55296 + (cp - 10000) / 1024;
                                 56320 + (cp - 10000) mod 1024] 1 _ eq_refl)
      as R1.
    rewrite Z.add_0_r in R0. change (Z.of_nat 1) with 1 in R1.
    unfold UTF16Iterator.deref. rewrite R0. cbn [bind].
    rewrite surrogate_first_iff by lia.
    replace ((55296 + (cp - 10000) / 1024) / 1024) with 54
      by (apply Z.div_unique with (r := (cp - 10000) / 1024); lia).
    change (54 =? 54) with true. cbv iota. rewrite R1. cbn [bind].
    rewrite surrogate_last_iff by lia.
    replace ((56320 + (cp - 10000) mod 1024) / 1024) with 55
      by (apply Z.div_unique with (r := (cp - 10000) mod 1024); lia).
    change (55 =? 55) with true. cbv iota.
    rewrite !(Z.land_ones _ 10) by lia. change (2 ^ 10) with 1024.
    replace ((55296 + (cp - 10000) / 1024) mod 1024)
      with ((cp - 10000) / 1024)
      by (apply Z.mod_unique with (q := 54); lia).
    replace ((56320 + (cp - 10000) mod 1024) mod 1024)
      with ((cp - 10000) mod 1024)
      by (apply Z.mod_unique with (q := 55); lia).
    rewrite Z.shiftl_mul_pow2 by lia. change (2 ^ 10) with 1024.
    f_equal. lia.
Qed.

Lemma UTF16_encode_then_decode_witness :
  0 <= 0x1F600 < 0x102710 /\ ~ 0xD800 <= 0x1F600 <= 0xDFFF
  /\ exists enc,
       UTF16Encoder.append 16 (lit "a") 0x1F600 = (lit "a" ++ enc, true)
       /\ UTF16Iterator.deref (lit "a" ++ enc) (size (lit "a"))
          = Ok (if 0x1F600 <? 0x10000 then 0x1F600 else 0x1F600 + 55536).
Proof.
  split; [lia|]. split; [lia|].
  apply (UTF16_encode_then_decode (lit "a") 0x1F600); lia.
Defined.

(* ------------------------------------------------------------------ *)
(** *** Stepping back over what the encoder wrote *)

Lemma rd_appended_back (str enc : units) (k : nat) (v : Z) :
  nth_error enc k = Some v ->
  rd (str ++ enc) (size (str ++ enc) - (size enc - Z.of_nat k)) = Ok v.
Proof.
  intros H. rewrite size_app.
  replace (size str + size enc - (size enc - Z.of_nat k))
    with (size str + Z.of_nat k) by lia.
  apply rd_appended. exact H.
Qed.

(** X28.  One decrement from the end of the buffer, after the UTF-8 encoder
    appended a Unicode scalar value: it lands on the first unit of the
    codepoint when that took one, two or three units.  Behind a form of four
    units the last test looks at the unit three back where the lead byte is
    four back, and the cursor moves one unit only.  (The body of the
    operator ends without a [return]; the cursor is taken as the body
    leaves it.) *)
Theorem UTF8_step_back_over_encoded (str : units) (cp : Z) :
  0 <= cp <= 0x10FFFF -> ~ 0xD800 <= cp <= 0xDFFF ->
  let buf := fst (UTF8Encoder.append 8 str cp) in
  UTF8Iterator.decr buf (size buf)
  = Ok (if cp <? 0x10000 then size str else size buf - 1).
Proof.
  intros Hcp Hsur buf. unfold buf. rewrite UTF8_encode by lia. cbn [fst].
  assert (H6 : 0 <= cp mod 64 < 64) by (apply Z.mod_pos_bound; lia).
  assert (H12 : 0 <= (cp / 64) mod 64 < 64) by (apply Z.mod_pos_bound; lia).
  assert (H18 : 0 <= (cp / 4096) mod 64 < 64)
    by (apply Z.mod_pos_bound; lia).
  unfold UTF8Iterator.decr.
  destruct (Z.ltb_spec cp 128).
  { pose proof (rd_appended_back str [cp] 0 cp eq_refl) as R1.
    change (size [cp] - Z.of_nat 0) with 1 in R1. rewrite R1. cbn [bind].
    replace (UTF8Iterator.tail cp) with false.
    - replace (cp <? 65536) with true by (symmetry; apply Z.ltb_lt; lia).
      rewrite size_app. change (size [cp]) with 1. f_equal. lia.
    - symmetry. apply negb_true_iff.
      apply (small_range (fun u => negb (UTF8Iterator.tail u)) 128);
        [vm_compute; reflexivity|lia]. }
  destruct (Z.ltb_spec cp 2048).
  { assert (0 <= cp / 64 < 32)
      by (split; [apply Z.div_pos; lia|apply Z.div_lt_upper_bound; lia]).
    assert (2 <= cp / 64) by (apply Z.div_le_lower_bound; lia).
    pose proof (rd_appended_back str [192 + cp / 64; 128 + cp mod 64] 1 _
                  eq_refl) as R1.
    pose proof (rd_appended_back str [192 + cp / 64; 128 + cp mod 64] 0 _
                  eq_refl) as R2.
    change (size [192 + cp / 64; 128 + cp mod 64] - Z.of_nat 1) with 1 in R1.
    change (size [192 + cp / 64; 128 + cp mod 64] - Z.of_nat 0) with 2 in R2.
    rewrite R1. cbn [bind]. rewrite tail_byte by lia. rewrite R2. cbn [bind].
    unfold UTF8Iterator.head2, UTF8Iterator.head. decide_ltb. cbn [andb].
    rewrite size_app. f_equal. unfold size; simpl; lia. }
  destruct (Z.ltb_spec cp 65536).
  { assert (0 <= cp / 4096 < 16)
      by (split; [apply Z.div_pos; lia|apply Z.div_lt_upper_bound; lia]).
    pose proof (rd_appended_back str
                  [224 + cp / 4096; 128 + (cp / 64) mod 64; 128 + cp mod 64]
                  2 _ eq_refl) as R1.
    pose proof (rd_appended_back str
                  [224 + cp / 4096; 128 + (cp / 64) mod 64; 128 + cp mod 64]
                  1 _ eq_refl) as R2.
    pose proof (rd_appended_back str
                  [224 + cp / 4096; 128 + (cp / 64) mod 64; 128 + cp mod 64]
                  0 _ eq_refl) as R3.
    change (size [224 + cp / 4096; 128 + (cp / 64) mod 64; 128 + cp mod 64]
            - Z.of_nat 2) with 1 in R1.
    change (size [224 + cp / 4096; 128 + (cp / 64) mod 64; 128 + cp mod 64]
            - Z.of_nat 1) with 2 in R2.
    change (size [224 + cp / 4096; 128 + (cp / 64) mod 64; 128 + cp mod 64]
            - Z.of_nat 0) with 3 in R3.
    rewrite R1. cbn [bind]. rewrite tail_byte by lia. rewrite R2. cbn [bind].
    rewrite (tail_byte ((cp / 64) mod 64)) by lia.
    unfold UTF8Iterator.head2 at 1, UTF8Iterator.head at 1. decide_ltb.
    cbn [andb]. rewrite R3. cbn [bind].
    unfold UTF8Iterator.head3, UTF8Iterator.head2. decide_ltb. cbn [andb negb].
    rewrite size_app. f_equal. unfold size; simpl; lia. }
  assert (0 <= cp / 262144 < 8)
    by (split; [apply Z.div_pos; lia|apply Z.div_lt_upper_bound; lia]).
  pose proof (rd_appended_back str
                [240 + cp / 262144; 128 + (cp / 4096) mod 64;
                 128 + (cp / 64) mod 64; 128 + cp mod 64]
                3 _ eq_refl) as R1.
  pose proof (rd_appended_back str
                [240 + cp / 262144; 128 + (cp / 4096) mod 64;
                 128 + (cp / 64) mod 64; 128 + cp mod 64]
                2 _ eq_refl) as R2.
  pose proof (rd_appended_back str
                [240 + cp / 262144; 128 + (cp / 4096) mod 64;
                 128 + (cp / 64) mod 64; 128 + cp mod 64]
                1 _ eq_refl) as R3.
  change (size [240 + cp / 262144; 128 + (cp / 4096) mod 64;
                128 + (cp / 64) mod 64; 128 + cp mod 64] - Z.of_nat 3)
    with 1 in R1.
  change (size [240 + cp / 262144; 128 + (cp / 4096) mod 64;
                128 + (cp / 64) mod 64; 128 + cp mod 64] - Z.of_nat 2)
    with 2 in R2.
  change (size [240 + cp / 262144; 128 + (cp / 4096) mod 64;
                128 + (cp / 64) mod 64; 128 + cp mod 64] - Z.of_nat 1)
    with 3 in R3.
  rewrite R1. cbn [bind]. rewrite tail_byte by lia. rewrite R2. cbn [bind].
  rewrite (tail_byte ((cp / 64) mod 64)) by lia.
  unfold UTF8Iterator.head2 at 1, UTF8Iterator.head at 1. decide_ltb.
  cbn [andb]. rewrite R3. cbn [bind].
  rewrite (tail_byte ((cp / 4096) mod 64)) by lia.
  unfold UTF8Iterator.head4, UTF8Iterator.head3, UTF8Iterator.head2.
  decide_ltb. cbn [andb negb]. reflexivity.
Qed.

Lemma UTF8_step_back_over_encoded_witness :
  0 <= 0x270F <= 0x10FFFF /\ ~ 0xD800 <= 0x270F <= 0xDFFF
  /\ (let buf := fst (UTF8Encoder.append 8 (lit "a") 0x270F) in
      UTF8Iterator.decr buf (size buf)
      = Ok (if 0x270F <? 0x10000 then size (lit "a") else size buf - 1)).
Proof.
  split; [lia|]. split; [lia|].
  apply (UTF8_step_back_over_encoded (lit "a") 0x270F); lia.
Defined.

(* ------------------------------------------------------------------ *)
(** ** Widths written in decimal *)

Lemma digit_decimal (m : Z) :
  0 <= m < 10 -> digit_of digits_lower m = 48 + m.
Proof.
  intros H. apply Z.eqb_eq.
  apply (small_range (fun m => digit_of digits_lower m =? 48 + m) 10);
    [vm_compute; reflexivity|exact H].
Qed.

(** The digits [number_digits] writes for a positive number, least
    significant first: decimal digits whose value is the number, the last
    of them not a zero. *)
Lemma number_digits_decimal :
  forall (fuel : nat) (n : Z) (number : units),
    1 <= n < 10 ^ Z.of_nat fuel ->
    exists ds last,
      number_digits fuel digits_lower 10 n number = number ++ ds ++ [last]
      /\ Forall (fun d => 48 <= d <= 57) (ds ++ [last])
      /\ fold_right (fun d v => v * 10 + d - 48) 0 (ds ++ [last]) = n
      /\ last <> 48.
Proof.
  induction fuel as [|fuel IH]; intros n number Hn.
  - change (10 ^ Z.of_nat 0) with 1 in Hn. lia.
  - assert (Hm : 0 <= n mod 10 < 10) by (apply Z.mod_pos_bound; lia).
    pose proof (Z.div_mod n 10 ltac:(lia)) as Hdm.
    cbn [number_digits]. rewrite digit_decimal by exact Hm.
    destruct (Z.ltb_spec 0 (n / 10)) as [Hq|Hq].
    + destruct (IH (n / 10) (number ++ [48 + n mod 10]))
        as [ds [last [Hnd [Hall [Hval Hlast]]]]].
      { split; [lia|]. apply Z.div_lt_upper_bound; [lia|].
        rewrite Nat2Z.inj_succ, Z.pow_succ_r in Hn by lia. lia. }
      exists ((48 + n mod 10) :: ds), last.
      split; [rewrite Hnd, <- app_assoc; reflexivity|].
      split; [constructor; [lia|exact Hall]|].
      split; [|exact Hlast].
      change (((48 + n mod 10) :: ds) ++ [last])
        with ((48 + n mod 10) :: (ds ++ [last])).
      cbn [fold_right]. rewrite Hval. lia.
    + exists [], (48 + n mod 10).
      split; [reflexivity|].
      split; [constructor; [lia|constructor]|].
      split; [cbn [app fold_right]; lia|lia].
Qed.

Lemma scan_grows (ms : units) :
  Forall (fun d => 48 <= d <= 57) ms ->
  forall v, 0 <= v -> v <= fold_left (fun v d => v * 10 + d - 48) ms v.
Proof.
  induction 1 as [|d ms Hd Hms IH]; intros v Hv; cbn [fold_left]; [lia|].
  specialize (IH (v * 10 + d - 48) ltac:(lia)). lia.
Qed.

Lemma unit_at_middle (pre tl : units) (c : Z) :
  unit_at (pre ++ c :: tl) (size pre) = c.
Proof.
  unfold unit_at, size. rewrite Nat2Z.id.
  rewrite app_nth2 by lia. rewrite Nat.sub_diag. reflexivity.
Qed.

Lemma is_digit_decimal (d : Z) : 48 <= d <= 57 -> is_digit d = true.
Proof.
  intros H. unfold is_digit. apply andb_true_iff.
  split; apply Z.leb_le; [change (c_ "0") with 48|change (c_ "9") with 57];
    lia.
Qed.

(** The scanning loop of the widths, the precisions and the indexes reads
    a run of decimal digits that ends with the view as the number they
    write, as long as that is below 2^64. *)
Lemma number_loop_decimal :
  forall (ms pre : units) (fuel : nat) (acc : Z),
    Forall (fun d => 48 <= d <= 57) ms ->
    0 <= acc ->
    fold_left (fun v d => v * 10 + d - 48) ms acc <= npos ->
    (List.length ms <= fuel)%nat ->
    number_loop (pre ++ ms) fuel (size pre) (size (pre ++ ms)) acc
    = (fold_left (fun v d => v * 10 + d - 48) ms acc, size (pre ++ ms)).
Proof.
  induction ms as [|d ms IH]; intros pre fuel acc Hall Hacc Hmax Hfuel.
  - rewrite app_nil_r. cbn [fold_left].
    destruct fuel; cbn [number_loop]; [reflexivity|].
    unfold peek. rewrite Z.ltb_irrefl. reflexivity.
  - destruct fuel as [|fuel]; [simpl in Hfuel; lia|].
    inversion Hall as [|d' ms' Hd Hms]; subst d' ms'.
    pose proof (size_nonneg pre). pose proof (size_nonneg ms).
    cbn [number_loop fold_left]. unfold peek.
    replace (size pre <? size (pre ++ d :: ms)) with true
      by (symmetry; apply Z.ltb_lt; rewrite size_app;
          unfold size; simpl List.length; lia).
    rewrite rd_app_middle, is_digit_decimal by exact Hd. cbn [andb].
    rewrite unit_at_middle. change (c_ "0") with 48.
    pose proof (scan_grows ms Hms (acc * 10 + d - 48) ltac:(lia)) as Hg.
    cbn [fold_left] in Hmax.
    rewrite size_t_small by lia.
    replace (pre ++ d :: ms) with ((pre ++ [d]) ++ ms)
      by (rewrite <- app_assoc; reflexivity).
    replace (size pre + 1) with (size (pre ++ [d]))
      by (rewrite size_app; reflexivity).
    apply IH; [exact Hms|lia|exact Hmax|simpl in Hfuel; lia].
Qed.

Lemma peek_over_digits (s : units) (i e : Z) (p : Z -> bool) :
  Forall (fun d => 48 <= d <= 57) s ->
  (forall d, 48 <= d <= 57 -> p d = false) ->
  peek s i e p = false.
Proof.
  intros Hs Hp. unfold peek. destruct (i <? e); [|reflexivity].
  destruct (rd s i) as [c| | | |] eqn:Hc; try reflexivity.
  apply rd_In in Hc. rewrite Forall_forall in Hs. cbn [andb].
  apply Hp, Hs, Hc.
Qed.

Lemma peek_at_end (s : units) (e : Z) (p : Z -> bool) : peek s e e p = false.
Proof. unfold peek. rewrite Z.ltb_irrefl. reflexivity. Qed.

(** X29.  A width written by [str__] is read back by the parser of the format
    specifications: for every encoding and every positive [w] of the range
    of [int64_t], the specification made of the digits of [w] parses to the
    width [w], with every other field left at its default. *)
Theorem parse_reads_the_width (E : Encoding) (w : Z) :
  1 <= w < 2 ^ 63 ->
  Specifier.parse E (int64_proxy.str__ w)
  = Ok {| Specifier.type := 0; Specifier.sign := 0; Specifier.align := 0;
          Specifier.alter := false; Specifier.comma := false;
          Specifier.width := w; Specifier.precision := npos;
          Specifier.fill := []; Specifier.other := [] |}.
Proof.
  intros Hw. change (2 ^ 63) with 9223372036854775808 in Hw.
  unfold int64_proxy.str__, int64_proxy.magnitude.
  replace (w <? 0) with false by (symmetry; apply Z.ltb_ge; lia).
  rewrite size_t_small by (unfold npos; lia).
  destruct (number_digits_decimal 64 w [])
    as [ds [last [-> [Hall [Hval Hlast]]]]];
    [split; [lia|]; change (10 ^ Z.of_nat 64)
       with 10000000000000000000000000000000000000000000000000000000000000000;
     lia|].
  cbv zeta. cbn [app]. rewrite rev_app_distr. cbn [rev app].
  assert (Hrev : Forall (fun d => 48 <= d <= 57) (last :: rev ds)).
  { apply Forall_app in Hall. destruct Hall as [Hds Hl].
    inversion Hl; subst. constructor; [assumption|].
    apply Forall_rev. exact Hds. }
  inversion Hrev as [|l ms Hl Hms]; subst l ms.
  assert (Hscan : fold_left (fun v d => v * 10 + d - 48) (rev ds)
                            (last - 48) = w).
  { rewrite <- Hval.
    rewrite <- (rev_involutive (ds ++ [last])).
    rewrite fold_left_rev_right. rewrite rev_app_distr.
    cbn [rev app fold_left]. reflexivity. }
  set (s := last :: rev ds) in *.
  assert (R0 : rd s 0 = Ok last) by reflexivity.
  assert (Ha : ascii_unit last) by (unfold ascii_unit; lia).
  assert (Hsz : size s = 1 + size (rev ds))
    by (unfold s, size; simpl List.length; lia).
  pose proof (size_nonneg (rev ds)) as Hnn.
  unfold Specifier.parse.
  replace (size s =? 0) with false by (symmetry; apply Z.eqb_neq; lia).
  cbv zeta. rewrite (incr_ascii E s 0 last R0 Ha). cbn [bind].
  change (0 + 1) with 1.
  rewrite (peek_over_digits s 1 (size s) is_align Hrev)
    by (intros d Hd; unfold is_align;
        change (c_ "<") with 60; change (c_ ">") with 62;
        change (c_ "=") with 61; change (c_ "^") with 94;
        repeat (apply orb_false_iff; split); apply Z.eqb_neq; lia).
  rewrite (peek_over_digits s 0 (size s) is_align Hrev)
    by (intros d Hd; unfold is_align;
        change (c_ "<") with 60; change (c_ ">") with 62;
        change (c_ "=") with 61; change (c_ "^") with 94;
        repeat (apply orb_false_iff; split); apply Z.eqb_neq; lia).
  cbv beta iota.
  rewrite (peek_over_digits s 0 (size s) is_sign Hrev)
    by (intros d Hd; unfold is_sign;
        change (c_ "+") with 43; change (c_ "-") with 45;
        change (c_ " ") with 32;
        repeat (apply orb_false_iff; split); apply Z.eqb_neq; lia).
  cbv beta iota.
  rewrite (peek_over_digits s 0 (size s) (Z.eqb (c_ "#")) Hrev)
    by (intros d Hd; change (c_ "#") with 35; apply Z.eqb_neq; lia).
  cbv beta iota.
  replace (peek s 0 (size s) (Z.eqb (c_ "0"))) with false
    by (unfold peek; rewrite R0; change (c_ "0") with 48;
        replace (48 =? last) with false by (symmetry; apply Z.eqb_neq; lia);
        symmetry; apply andb_false_r).
  cbv beta iota. cbn [bind]. cbv beta iota.
  replace (peek s 0 (size s) is_digit) with true
    by (unfold peek; rewrite R0, is_digit_decimal by exact Hl;
        replace (0 <? size s) with true by (symmetry; apply Z.ltb_lt; lia);
        reflexivity).
  cbv beta iota.
  change (unit_at s 0) with last. change (c_ "0") with 48.
  rewrite size_t_small by (unfold npos; lia).
  change (0 + 1) with (size [last]).
  change s with ([last] ++ rev ds).
  rewrite number_loop_decimal;
    [|exact Hms|lia|rewrite Hscan; unfold npos; lia
     |rewrite length_app, length_rev; simpl; lia].
  rewrite Hscan. cbv beta iota.
  rewrite !peek_at_end. cbv beta iota. reflexivity.
Qed.

Lemma parse_reads_the_width_witness :
  1 <= 120 < 2 ^ 63
  /\ Specifier.parse UTF8 (int64_proxy.str__ 120)
     = Ok {| Specifier.type := 0; Specifier.sign := 0; Specifier.align := 0;
             Specifier.alter := false; Specifier.comma := false;
             Specifier.width := 120; Specifier.precision := npos;
             Specifier.fill := []; Specifier.other := [] |}.
Proof.
  split; [lia|]. apply (parse_reads_the_width UTF8 120). lia.
Defined.
